(** * Cluster autoscaler: node groups, cloud-state cache and scale-up engine

    A shallow embedding of
      - cluster-autoscaler/cloudprovider/aws/aws_cloud_provider.go
      - cluster-autoscaler/cloudprovider/aws/aws_manager.go
      - cluster-autoscaler/provider/gce/gce.go
      - cluster-autoscaler/scale_up.go
    and the properties of these programs.

    Conventions.
      - A Go [int]/[int64] is a [Z]; additions wrap around as on a 64-bit
        target ([GoInt.add]).
      - A Go [string] is a [string] of bytes.
      - A Go function returning [(T, error)] returns an [outcome]: [Ok v],
        [Err e], or [Panic p] when the Go runtime would panic.
      - Code that talks to a cloud backend is a state transformer over the
        receiver: the [AwsManager] with the state of the remote service,
        or the abstract world of the scale-up engine.  The manager logs
        every SDK call in a ghost field, so that "no call reaches the
        backend" is a property of the log.
      - Pointers the program compares ([*Asg]) carry the address of their
        object; a nil pointer is [None].
      - [glog] output is not modelled. *)

From Stdlib Require Import ZArith Lia Ascii String.
From stdpp Require Import gmap strings.

Local Open Scope Z_scope.

(** ** Outcomes of Go calls *)

Inductive panic : Type :=
| SliceBoundsOutOfRange
| IndexOutOfRange
| NilPointerDereference.

Inductive outcome (E A : Type) : Type :=
| Ok (a : A)
| Err (e : E)
| Panic (p : panic).

Arguments Ok {E A} a.
Arguments Err {E A} e.
Arguments Panic {E A} p.

Definition isOk {E A} (o : outcome E A) : bool :=
  match o with Ok _ => true | _ => false end.

Definition isErr {E A} (o : outcome E A) : bool :=
  match o with Err _ => true | _ => false end.

(** ** Go integers *)

Module GoInt.

Definition minInt : Z := - 2 ^ 63.
Definition maxInt : Z := 2 ^ 63 - 1.

Definition inRange (z : Z) : Prop := minInt <= z <= maxInt.

(** Two's complement wrap-around of a 64-bit result. *)
Definition wrap (z : Z) : Z := (z + 2 ^ 63) mod 2 ^ 64 - 2 ^ 63.

(** [a + b] on [int] / [int64]. *)
Definition add (a b : Z) : Z := wrap (a + b).

End GoInt.

(** ** The parts of Go's [strings] and [strconv] the program uses *)

Module GoStrings.

(** [hasByte c s]: byte [c] occurs in [s]. *)
Fixpoint hasByte (c : ascii) (s : string) : bool :=
  match s with
  | EmptyString => false
  | String d s' => if Ascii.eqb d c then true else hasByte c s'
  end.

(** The splitting loop shared by [strings.Split] and [strings.SplitN] for a
    one-byte separator: cut [s] at the first [cuts] occurrences of [sep];
    the last piece is the unsplit remainder. *)
Fixpoint cutAt (sep : ascii) (cuts : nat) (s : string) : list string :=
  match cuts with
  | O => [s]
  | S cuts' =>
      match s with
      | EmptyString => [EmptyString]
      | String c s' =>
          if Ascii.eqb c sep then EmptyString :: cutAt sep cuts' s'
          else match cutAt sep cuts s' with
               | t :: ts => String c t :: ts
               | [] => [String c EmptyString]
               end
      end
  end.

(** [strings.Split(s, sep)] for a one-byte [sep]. *)
Definition Split (s : string) (sep : ascii) : list string :=
  cutAt sep (String.length s) s.

(** [strings.SplitN(s, sep, n)] for a one-byte [sep]: [n = 0] gives no
    piece, [n < 0] every piece, [n > 0] at most [n] pieces. *)
Definition SplitN (s : string) (sep : ascii) (n : Z) : list string :=
  if n =? 0 then []
  else if n <? 0 then Split s sep
  else cutAt sep (Z.to_nat (n - 1)) s.

(** [s[n:]]: the Go runtime panics when [n > len(s)]. *)
Fixpoint dropBytes (n : nat) (s : string) : option string :=
  match n with
  | O => Some s
  | S n' => match s with
            | EmptyString => None
            | String _ s' => dropBytes n' s'
            end
  end.

Definition sliceFrom {E} (s : string) (n : nat) : outcome E string :=
  match dropBytes n s with
  | Some t => Ok t
  | None => Panic SliceBoundsOutOfRange
  end.

Definition digitValue (c : ascii) : option Z :=
  let n := Z.of_N (N_of_ascii c) in
  if (48 <=? n) && (n <=? 57) then Some (n - 48) else None.

Fixpoint parseDigits (acc : Z) (s : string) : option Z :=
  match s with
  | EmptyString => Some acc
  | String c s' =>
      match digitValue c with
      | Some d => parseDigits (10 * acc + d) s'
      | None => None
      end
  end.

(** [strconv.Atoi]: an optional sign, at least one decimal digit, and a
    value that fits an [int].  [None] stands for the [*NumError] (syntax
    or range) that [Atoi] returns otherwise; the callers here only test
    it against [nil]. *)
Definition Atoi (s : string) : option Z :=
  match s with
  | EmptyString => None
  | String c rest =>
      let '(neg, body) :=
        if Ascii.eqb c "-" then (true, rest)
        else if Ascii.eqb c "+" then (false, rest)
        else (false, s) in
      match body with
      | EmptyString => None
      | _ =>
          match parseDigits 0 body with
          | None => None
          | Some un =>
              if neg then (if un <=? 2 ^ 63 then Some (- un) else None)
              else (if un <? 2 ^ 63 then Some un else None)
          end
      end
  end.

End GoStrings.

(** ** Package aws: the AWS node groups and their manager *)

Module Aws.

(** *** Data *)

(** [AwsRef]: a reference to an entity in the AWS world; the key of the
    membership cache. *)
Record AwsRef : Type := mkAwsRef { Zone : string; Name : string }.

#[global] Instance AwsRef_eq_dec : EqDecision AwsRef.
Proof. solve_decision. Defined.

#[global] Instance AwsRef_countable : Countable AwsRef.
Proof.
  refine (inj_countable' (fun r => (Zone r, Name r))
                         (fun p => mkAwsRef (fst p) (snd p)) _).
  intros []; reflexivity.
Defined.

(** [Asg]: the embedded [AwsRef] and the size bounds.  The [awsManager]
    field points to the one manager, which the operations below thread as
    their state.  [asgAddr] is the identity of the allocated object: the
    program holds groups as [*Asg] and [DeleteInstances] compares these
    pointers, so two groups with equal fields are still two groups. *)
Record Asg : Type := mkAsg {
  asgAddr : nat;
  asgRef : AwsRef;
  minSize : Z;
  maxSize : Z
}.

(** A [*Asg] that may be [nil]. *)
Definition AsgPtr : Type := option Asg.

(** [asg == commonAsg] on [*Asg]. *)
Definition samePtr (a b : AsgPtr) : bool :=
  match a, b with
  | None, None => true
  | Some x, Some y => Nat.eqb (asgAddr x) (asgAddr y)
  | _, _ => false
  end.

(** The fields of [kube_api.Node] the package reads. *)
Record Node : Type := mkNode { nodeName : string; ProviderID : string }.

Record asgInformation : Type := mkAsgInformation {
  config : Asg;
  basename : string
}.

(** The errors the package builds with [fmt.Errorf], one constructor per
    message, and the errors it passes on from the SDK. *)
Inductive error : Type :=
| BackendError (msg : string)
| WrongId (id : string)
    (* "Wrong id: expected format aws://<availability-zone>/<name>, got %v" *)
| SizeIncreaseMustBePositive
    (* "size increase must be positive" *)
| SizeIncreaseTooLarge (desired max : Z)
    (* "size increase to large - desired:%d max:%d" *)
| NotInKnownAsg (node : string)
    (* "%s doesn't belong to a known asg" *)
| MinSizeReached
    (* "min size reached, nodes will not be deleted" *)
| BelongsToDifferentAsg (node asgId : string)
    (* "%s belong to a different asg than %s" *)
| WrongNodesConfiguration (value : string)
    (* "wrong nodes configuration: %s" *)
| MinSizeBelowOne
    (* "min size must be >= 1" *)
| MinSizeNotInteger (token : string)
    (* "failed to set min size: %s, expected integer" *)
| MaxSizeBelowMin
    (* "max size must be greater or equal to min size" *)
| MaxSizeNotInteger (token : string)
    (* "failed to set max size: %s, expected integer" *)
| AsgUrlParseFailed (token : string) (cause : error)
    (* "failed to parse asg url: %s got error: %v" *)
| LookupFailed (instance : AwsRef) (cause : error)
    (* "Error while looking for ASG for instance %+v, error: %v" *)
| NotInAnyConfiguredAsg (instance : AwsRef)
    (* "Instance %+v does not belong to any configured ASG" *)
| MixedAsgDelete.
    (* "Cannot delete instances which don't belong to the same ASG." *)

(** *** The autoscaling service of the SDK

    The replies of [autoscaling.AutoScaling], reduced to the fields the
    manager reads.  The SDK hands out pointers everywhere; a [nil] one is
    [None]. *)

Record Instance : Type := mkInstance { InstanceId : option string }.

Record Group : Type := mkGroup {
  DesiredCapacity : option Z;
  Instances : list (option Instance)
}.

Record InstanceDetails : Type := mkInstanceDetails {
  AvailabilityZone : option string
}.

(** What one SDK call gives back: the response, or the SDK's error. *)
Inductive reply (A : Type) : Type :=
| Reply (a : A)
| Refused (msg : string).
Arguments Reply {A} a.
Arguments Refused {A} msg.

(** The four SDK calls, as transitions of the remote service.  The
    describe calls are always made for one name or id with
    [MaxRecords = 1]; [SetDesiredCapacity] with [HonorCooldown = false];
    [TerminateInstanceInAutoScalingGroup] with
    [ShouldDecrementDesiredCapacity = true]. *)
Class AutoScalingAPI (Svc : Type) : Type := {
  DescribeAutoScalingGroups :
    string -> Svc -> reply (list (option Group)) * Svc;
  DescribeAutoScalingInstances :
    string -> Svc -> reply (list (option InstanceDetails)) * Svc;
  SetDesiredCapacity :
    string -> Z -> Svc -> reply unit * Svc;
  TerminateInstanceInAutoScalingGroup :
    string -> Svc -> reply unit * Svc
}.

Definition refusal {A} (r : reply A) : option string :=
  match r with Reply _ => None | Refused msg => Some msg end.

(** Ghost log of the calls that reached the service, oldest first, each
    with the error the service answered, if any. *)
Inductive Call : Type :=
| CallDescribeGroups (name : string) (refused : option string)
| CallDescribeInstances (id : string) (refused : option string)
| CallSetDesiredCapacity (name : string) (size : Z) (refused : option string)
| CallTerminate (id : string) (refused : option string).

Definition isTerminate (c : Call) : bool :=
  match c with CallTerminate _ _ => true | _ => false end.

Definition isDescribe (c : Call) : bool :=
  match c with
  | CallDescribeGroups _ _ | CallDescribeInstances _ _ => true
  | _ => false
  end.

Definition callRefused (c : Call) : option string :=
  match c with
  | CallDescribeGroups _ r | CallDescribeInstances _ r
  | CallSetDesiredCapacity _ _ r | CallTerminate _ r => r
  end.

(** *** Pure parsers *)

(** [AwsRefFromProviderId]: [id[6:]] is taken without looking at the
    first six bytes, and panics on a shorter [id]. *)
Definition AwsRefFromProviderId (id : string) : outcome error AwsRef :=
  match GoStrings.sliceFrom (E:=error) id 6 with
  | Ok tail =>
      match GoStrings.Split tail "/" with
      | [zone; name] => Ok (mkAwsRef zone name)
      | _ => Err (WrongId id)
      end
  | Err e => Err e
  | Panic p => Panic p
  end.

(** [ParseAsgUrl] is not part of the sources at hand; it is a parameter
    of [buildAsg]. *)
Section BuildAsg.

Variable ParseAsgUrl : string -> error + (string * string).

(** [buildAsg]: the fields of the group, allocated at address [here]. *)
Definition buildAsg (here : nat) (value : string) : outcome error Asg :=
  match GoStrings.SplitN value ":" 3 with
  | [t0; t1; t2] =>
      match GoStrings.Atoi t0 with
      | Some size =>
          if size <=? 0 then Err MinSizeBelowOne
          else
            let minSize := size in
            match GoStrings.Atoi t1 with
            | Some size =>
                if size <? minSize then Err MaxSizeBelowMin
                else
                  let maxSize := size in
                  match ParseAsgUrl t2 with
                  | inr (zone, name) =>
                      Ok (mkAsg here (mkAwsRef zone name) minSize maxSize)
                  | inl err => Err (AsgUrlParseFailed t2 err)
                  end
            | None => Err (MaxSizeNotInteger t1)
            end
      | None => Err (MinSizeNotInteger t0)
      end
  | _ => Err (WrongNodesConfiguration value)
  end.

End BuildAsg.

(** *** AwsManager *)

Section Manager.

Context {Svc : Type} `{!AutoScalingAPI Svc}.

(** [GenerateAsgUrl] is not part of the sources at hand. *)
Variable GenerateAsgUrl : string -> string -> string.

(** [cacheMutex] is held for the whole of every operation that touches
    the cache, so the operations are modelled as atomic steps. *)
Record AwsManager : Type := mkAwsManager {
  asgs : list asgInformation;
  asgCache : gmap AwsRef Asg;
  service : Svc;
  calls : list Call
}.

Definition M (A : Type) : Type := AwsManager -> outcome error A * AwsManager.

#[global] Instance M_ret : MRet M := fun A a m => (Ok a, m).

#[global] Instance M_bind : MBind M := fun A B f c m =>
  match c m with
  | (Ok a, m') => f a m'
  | (Err e, m') => (Err e, m')
  | (Panic p, m') => (Panic p, m')
  end.

Definition raise {A} (e : error) : M A := fun m => (Err e, m).

(** [xs[0]] *)
Definition index0 {A} (xs : list A) : M A := fun m =>
  match xs with
  | x :: _ => (Ok x, m)
  | [] => (Panic IndexOutOfRange, m)
  end.

(** [*p] *)
Definition deref {A} (p : option A) : M A := fun m =>
  match p with
  | Some x => (Ok x, m)
  | None => (Panic NilPointerDereference, m)
  end.

Definition liftPure {A} (o : outcome error A) : M A := fun m => (o, m).

(** One SDK call: the service moves on, the call is logged, and an SDK
    error becomes the Go [err]. *)
Definition sdkCall {A} (f : Svc -> reply A * Svc) (c : reply A -> Call) : M A :=
  fun m =>
    let '(r, s') := f (service m) in
    let m' := mkAwsManager (asgs m) (asgCache m) s' (calls m ++ [c r]) in
    match r with
    | Reply a => (Ok a, m')
    | Refused msg => (Err (BackendError msg), m')
    end.

(** [CreateAwsManager]: empty group list and cache.  The hourly
    [regenerateCacheIgnoreError] it starts is a step of its own below. *)
Definition CreateAwsManager (svc : Svc) : AwsManager :=
  mkAwsManager [] ∅ svc [].

Definition RegisterAsg (asg : Asg) : M unit := fun m =>
  (Ok tt,
   mkAwsManager (asgs m ++ [mkAsgInformation asg EmptyString]) (asgCache m)
                (service m) (calls m)).

Definition GetAsgSize (asgConfig : Asg) : M Z :=
  resp ← sdkCall (DescribeAutoScalingGroups (Name (asgRef asgConfig)))
                 (fun r => CallDescribeGroups (Name (asgRef asgConfig))
                                               (refusal r));
  first ← index0 resp;
  asg ← deref first;
  deref (DesiredCapacity asg).

Definition SetAsgSize (asg : Asg) (size : Z) : M unit :=
  sdkCall (SetDesiredCapacity (Name (asgRef asg)) size)
          (fun r => CallSetDesiredCapacity (Name (asgRef asg)) size
                                           (refusal r)).

(** The inner loop of [regenerateCache], over [group.Instances]. *)
Fixpoint regenerateInstances (asgConfig : Asg)
    (instances : list (option Instance)) (newCache : gmap AwsRef Asg)
    : M (gmap AwsRef Asg) :=
  match instances with
  | [] => mret newCache
  | instance :: rest =>
      inst ← deref instance;
      id ← deref (InstanceId inst);
      resp ← sdkCall (DescribeAutoScalingInstances id)
                     (fun r => CallDescribeInstances id (refusal r));
      first ← index0 resp;
      details ← deref first;
      zone ← deref (AvailabilityZone details);
      regenerateInstances asgConfig rest
        (<[ mkAwsRef zone id := asgConfig ]> newCache)
  end.

(** The outer loop of [regenerateCache], over [m.asgs]. *)
Fixpoint regenerateGroups (registered : list asgInformation)
    (newCache : gmap AwsRef Asg) : M (gmap AwsRef Asg) :=
  match registered with
  | [] => mret newCache
  | asg :: rest =>
      groups ← sdkCall (DescribeAutoScalingGroups (basename asg))
                       (fun r => CallDescribeGroups (basename asg) (refusal r));
      first ← index0 groups;
      group ← deref first;
      newCache' ← regenerateInstances (config asg) (Instances group) newCache;
      regenerateGroups rest newCache'
  end.

Definition regenerateCache : M unit := fun m =>
  match regenerateGroups (asgs m) ∅ m with
  | (Ok newCache, m') =>
      (Ok tt, mkAwsManager (asgs m') newCache (service m') (calls m'))
  | (Err e, m') => (Err e, m')
  | (Panic p, m') => (Panic p, m')
  end.

(** The error is only logged. *)
Definition regenerateCacheIgnoreError : M unit := fun m =>
  match regenerateCache m with
  | (Ok _, m') => (Ok tt, m')
  | (Err _, m') => (Ok tt, m')
  | (Panic p, m') => (Panic p, m')
  end.

(** The loop of [GetAsgForInstance] over [m.asgs]; it returns from its
    first zone match. *)
Fixpoint scanAsgs (instance : AwsRef) (registered : list asgInformation)
    : M AsgPtr :=
  match registered with
  | [] => mret None
  | asg :: rest =>
      if String.eqb (Zone (asgRef (config asg))) (Zone instance) then
        fun m =>
          match regenerateCache m with
          | (Err err, m') => (Err (LookupFailed instance err), m')
          | (Panic p, m') => (Panic p, m')
          | (Ok _, m') =>
              match asgCache m' !! instance with
              | Some found => (Ok (Some found), m')
              | None => (Err (NotInAnyConfiguredAsg instance), m')
              end
          end
      else scanAsgs instance rest
  end.

Definition GetAsgForInstance (instance : AwsRef) : M AsgPtr := fun m =>
  match asgCache m !! instance with
  | Some found => (Ok (Some found), m)
  | None => scanAsgs instance (asgs m) m
  end.

(** First loop of [DeleteInstances]. *)
Fixpoint checkCommonAsg (commonAsg : AsgPtr) (instances : list AwsRef)
    : M unit :=
  match instances with
  | [] => mret tt
  | instance :: rest =>
      asg ← GetAsgForInstance instance;
      if samePtr asg commonAsg then checkCommonAsg commonAsg rest
      else raise MixedAsgDelete
  end.

(** Second loop of [DeleteInstances]. *)
Fixpoint terminateEach (instances : list AwsRef) : M unit :=
  match instances with
  | [] => mret tt
  | instance :: rest =>
      _ ← sdkCall (TerminateInstanceInAutoScalingGroup (Name instance))
                  (fun r => CallTerminate (Name instance) (refusal r));
      terminateEach rest
  end.

Definition DeleteInstances (instances : list AwsRef) : M unit :=
  match instances with
  | [] => mret tt
  | first :: _ =>
      commonAsg ← GetAsgForInstance first;
      _ ← checkCommonAsg commonAsg instances;
      terminateEach instances
  end.

(** *** Asg *)

Definition MaxSize (asg : Asg) : Z := maxSize asg.
Definition MinSize (asg : Asg) : Z := minSize asg.

Definition Id (asg : Asg) : string :=
  GenerateAsgUrl (Zone (asgRef asg)) (Name (asgRef asg)).

Definition TargetSize (asg : Asg) : M Z := GetAsgSize asg.

Definition IncreaseSize (asg : Asg) (delta : Z) : M unit :=
  if delta <=? 0 then raise SizeIncreaseMustBePositive
  else
    size ← GetAsgSize asg;
    if GoInt.add size delta >? MaxSize asg
    then raise (SizeIncreaseTooLarge (GoInt.add size delta) (MaxSize asg))
    else SetAsgSize asg (GoInt.add size delta).

Definition Belongs (asg : Asg) (node : Node) : M bool :=
  ref ← liftPure (AwsRefFromProviderId (ProviderID node));
  targetAsg ← GetAsgForInstance ref;
  match targetAsg with
  | None => raise (NotInKnownAsg (nodeName node))
  | Some target =>
      if negb (String.eqb (Id target) (Id asg)) then mret false
      else mret true
  end.

(** The loop of [DeleteNodes]. *)
Fixpoint collectRefs (asg : Asg) (nodes : list Node) (refs : list AwsRef)
    : M (list AwsRef) :=
  match nodes with
  | [] => mret refs
  | node :: rest =>
      belongs ← Belongs asg node;
      if (belongs : bool)
      then raise (BelongsToDifferentAsg (nodeName node) (Id asg))
      else
        awsref ← liftPure (AwsRefFromProviderId (ProviderID node));
        collectRefs asg rest (refs ++ [awsref])
  end.

Definition DeleteNodes (asg : Asg) (nodes : list Node) : M unit :=
  size ← GetAsgSize asg;
  if size <=? MinSize asg then raise MinSizeReached
  else
    refs ← collectRefs asg nodes [];
    DeleteInstances refs.

End Manager.

Arguments AwsManager Svc : clear implicits.
Arguments M Svc A : clear implicits.

(** *** AwsCloudProvider *)

Section CloudProvider.

Context {Svc : Type} `{!AutoScalingAPI Svc}.

Variable ParseAsgUrl : string -> error + (string * string).

(** [AwsCloudProvider]: its [asgs]; the [awsManager] field points to the
    manager the operations thread as their state. *)
Record AwsCloudProvider : Type := mkAwsCloudProvider {
  cloudAsgs : list Asg
}.

(** A value of the interface [cloudprovider.NodeGroup] as this package
    makes them: the nil interface, or an interface holding a [*Asg],
    which may itself be nil. *)
Inductive NodeGroup : Type :=
| NilNodeGroup
| AsgNodeGroup (asg : AsgPtr).

(** [addNodeGroup]: [here] is the address the new group is allocated at;
    the provider as changed is returned when [err] is nil. *)
Definition addNodeGroup (here : nat) (spec : string) (aws : AwsCloudProvider)
    : M Svc AwsCloudProvider :=
  asg ← liftPure (buildAsg ParseAsgUrl here spec);
  let aws' := mkAwsCloudProvider (cloudAsgs aws ++ [asg]) in
  _ ← RegisterAsg asg;
  mret aws'.

(** The loop of [BuildAwsCloudProvider]; the allocator hands out one fresh
    address for each call of [buildAsg]. *)
Fixpoint addNodeGroups (here : nat) (specs : list string)
    (aws : AwsCloudProvider) : M Svc AwsCloudProvider :=
  match specs with
  | [] => mret aws
  | spec :: rest =>
      aws' ← addNodeGroup here spec aws;
      addNodeGroups (S here) rest aws'
  end.

(** [BuildAwsCloudProvider]: [here] is the first address not in use. *)
Definition BuildAwsCloudProvider (here : nat) (specs : list string)
    : M Svc AwsCloudProvider :=
  addNodeGroups here specs (mkAwsCloudProvider []).

Definition NodeGroups (aws : AwsCloudProvider) : list NodeGroup :=
  map (fun asg => AsgNodeGroup (Some asg)) (cloudAsgs aws).

(** [NodeGroupForNode]: a parse error returns the nil interface with the
    error; otherwise the [*Asg] of the lookup is returned as it is, wrapped
    in the interface. *)
Definition NodeGroupForNode (node : Node) : M Svc NodeGroup :=
  ref ← liftPure (AwsRefFromProviderId (ProviderID node));
  asg ← GetAsgForInstance ref;
  mret (AsgNodeGroup asg).

End CloudProvider.

Arguments AwsCloudProvider : clear implicits.
Arguments NodeGroup : clear implicits.

End Aws.

(** ** Package provider: the interfaces of the scale-up engine *)

Module Provider.

(** A Go [(T, error)] of code that is not modelled as panicking. *)
Inductive result (E A : Type) : Type :=
| Success (a : A)
| Failure (e : E).
Arguments Success {E A} a.
Arguments Failure {E A} e.

(** [W] is the world the calls act on (cloud backend, API server, event
    recorder), [E] the values of Go's [error], [KNode] is
    [*kube_api.Node]. *)
Class NodeGroup (W E KNode NG : Type) : Type := {
  IsScaleUpPossible : NG -> W -> result E bool * W;
  GetCurrentSize : NG -> W -> result E Z * W;
  GetSampleNode : NG -> KNode;
  SetSize : NG -> Z -> W -> result E unit * W
}.

(** Of the [Provider] interface the engine calls [GetNodeGroups] only. *)
Class Provider (W E KNode NG P : Type) : Type := {
  GetNodeGroups : P -> list KNode -> W -> result E (list NG) * W
}.

End Provider.

(** ** Package gce: the node group over a managed instance group *)

Module Gce.
Import Provider.

(** [config.MigConfig], which is not part of the sources at hand, reduced
    to the fields read here. *)
Record MigConfig : Type := mkMigConfig {
  MigName : string;
  MinSize : Z;
  MaxSize : Z
}.

Inductive error : Type :=
| ManagerError (msg : string)
| FailedToSetMigSize (cause : error)   (* "failed to set MIG size: %v" *)
| FailedToGetMigSize (cause : error).  (* "failed to get MIG size: %v" *)

(** [gce.GceManager] is not part of the sources at hand; its two calls
    used here are parameters. *)
Class GceManager (W : Type) : Type := {
  GetMigSize : MigConfig -> W -> result error Z * W;
  SetMigSize : MigConfig -> Z -> W -> result error unit * W
}.

Record gceNodeGroup (KNode : Type) : Type := mkGceNodeGroup {
  migConfig : MigConfig;
  sampleNode : KNode
}.
Arguments mkGceNodeGroup {KNode} _ _.
Arguments migConfig {KNode} _.
Arguments sampleNode {KNode} _.

Section NodeGroup.

Context {W KNode : Type} `{!GceManager W}.

Definition IsScaleUpPossible (g : gceNodeGroup KNode) (w : W)
    : result error bool * W :=
  match GetMigSize (migConfig g) w with
  | (Failure err, w') => (Failure err, w')
  | (Success currentSize, w') =>
      if currentSize >=? MaxSize (migConfig g) then (Success false, w')
      else (Success true, w')
  end.

Definition GetSampleNode (g : gceNodeGroup KNode) : KNode := sampleNode g.

(** The size handed to [SetMigSize]. *)
Definition cappedSize (g : gceNodeGroup KNode) (size : Z) : Z :=
  if size >=? MaxSize (migConfig g) then MaxSize (migConfig g) else size.

Definition SetSize (g : gceNodeGroup KNode) (size : Z) (w : W)
    : result error unit * W :=
  let size := cappedSize g size in
  match SetMigSize (migConfig g) size w with
  | (Failure err, w') => (Failure (FailedToSetMigSize err), w')
  | (Success _, w') => (Success tt, w')
  end.

Definition GetCurrentSize (g : gceNodeGroup KNode) (w : W)
    : result error Z * W :=
  match GetMigSize (migConfig g) w with
  | (Failure err, w') => (Failure (FailedToGetMigSize err), w')
  | (Success currentSize, w') => (Success currentSize, w')
  end.

#[global] Instance gceNodeGroup_NodeGroup
    : NodeGroup W error KNode (gceNodeGroup KNode) := {
  Provider.IsScaleUpPossible := IsScaleUpPossible;
  Provider.GetCurrentSize := GetCurrentSize;
  Provider.GetSampleNode := GetSampleNode;
  Provider.SetSize := SetSize
}.

End NodeGroup.

End Gce.

(** ** Package main: the scale-up engine *)

Module Engine.
Import Provider.

(** The errors [ScaleUp] returns: those of its collaborators, passed on
    or wrapped. *)
Inductive error (E : Type) : Type :=
| Passed (e : E)
| FailedToGetNodeGroups (cause : E)
    (* "failed to get NodeGroups for migs: %v" *)
| ErrorGettingNodeGroupSize (cause : E).
    (* "Error getting nodeGroup size: %v" *)
Arguments Passed {E} e.
Arguments FailedToGetNodeGroups {E} cause.
Arguments ErrorGettingNodeGroupSize {E} cause.

(** What the engine hands to the event recorder. *)
Inductive Event (Pod NG : Type) : Type :=
| TriggeredScaleUp (pod : Pod) (nodeGroup : NG) (currentSize newSize : Z)
| NotTriggerScaleUp (pod : Pod).
Arguments TriggeredScaleUp {Pod NG} _ _ _ _.
Arguments NotTriggerScaleUp {Pod NG} _.

(** The collaborators of [ScaleUp] that are not part of the sources at
    hand: the packages [estimator] and [simulator], the event recorder,
    and [BestExpansionOption]. *)
Class Estimator (Pod KNode Est : Type) : Type := {
  NewBasicNodeEstimator : Est;
  Add : Est -> Pod -> Est;
  GetCount : Est -> Z;
  Estimate : Est -> KNode -> Z * string;
  FittingPods : Est -> list Pod
}.

Class Simulator (W E Pod KNode NodeInfo : Type) : Type := {
  BuildNodeInfoForNode : KNode -> W -> result E NodeInfo * W;
  CheckPredicates : Pod -> NodeInfo -> option E;
  NodeInfoNode : NodeInfo -> KNode
}.

Section ScaleUp.

Context {W E Pod KNode NodeInfo Est NG P : Type}.
Context `{!EqDecision Pod}.
Context `{!NodeGroup W E KNode NG} `{!Provider W E KNode NG P}.
Context `{!Estimator Pod KNode Est} `{!Simulator W E Pod KNode NodeInfo}.

Record ExpansionOption : Type := mkExpansionOption {
  nodeGroup : NG;
  estimator : Est
}.

Variable BestExpansionOption : list ExpansionOption -> option ExpansionOption.
Variable recordEvent : Event Pod NG -> W -> W.

(** [podsRemainUnshedulable[pod] = struct{}{}]: a set of pods.  Go leaves
    the iteration order of a map open; the model iterates in insertion
    order. *)
Definition markUnschedulable (pod : Pod) (remain : list Pod) : list Pod :=
  if decide (pod ∈ remain) then remain else remain ++ [pod].

(** The loop over [unschedulablePods] for one node group. *)
Fixpoint tryPods (group : NG) (pods : list Pod)
    (est : Est) (migHelpsSomePods : bool) (remain : list Pod) (w : W)
    : Est * bool * list Pod * W :=
  match pods with
  | [] => (est, migHelpsSomePods, remain, w)
  | pod :: rest =>
      match BuildNodeInfoForNode (GetSampleNode group) w with
      | (Failure _, w') => tryPods group rest est migHelpsSomePods remain w'
      | (Success nodeInfo, w') =>
          match CheckPredicates pod nodeInfo with
          | None => tryPods group rest (Add est pod) true remain w'
          | Some _ =>
              tryPods group rest est migHelpsSomePods
                      (markUnschedulable pod remain) w'
          end
      end
  end.

(** The loop over [nodeGroups]. *)
Fixpoint tryGroups (unschedulablePods : list Pod) (nodeGroups : list NG)
    (expansionOptions : list ExpansionOption) (remain : list Pod) (w : W)
    : list ExpansionOption * list Pod * W :=
  match nodeGroups with
  | [] => (expansionOptions, remain, w)
  | group :: rest =>
      match IsScaleUpPossible group w with
      | (Failure _, w') =>
          tryGroups unschedulablePods rest expansionOptions remain w'
      | (Success false, w') =>
          tryGroups unschedulablePods rest expansionOptions remain w'
      | (Success true, w') =>
          let '(est, migHelpsSomePods, remain', w'') :=
            tryPods group unschedulablePods NewBasicNodeEstimator false
                    remain w' in
          let expansionOptions' :=
            if migHelpsSomePods
            then expansionOptions ++ [mkExpansionOption group est]
            else expansionOptions in
          tryGroups unschedulablePods rest expansionOptions' remain' w''
      end
  end.

Definition recordAll (events : list (Event Pod NG)) (w : W) : W :=
  fold_left (fun w e => recordEvent e w) events w.

(** The end of [ScaleUp] when nothing is resized. *)
Definition noScaleUp (remain : list Pod) (w : W)
    : result (error E) bool * W :=
  (Success false, recordAll (map NotTriggerScaleUp remain) w).

(** The end of [ScaleUp], after the loop over the node groups: pick the
    best option and resize its group. *)
Definition resizeBestOption (expansionOptions : list ExpansionOption)
    (remain : list Pod) (w2 : W) : result (error E) bool * W :=
  match BestExpansionOption expansionOptions with
  | Some bestOption =>
      if GetCount (estimator bestOption) >? 0 then
        match BuildNodeInfoForNode
                (GetSampleNode (nodeGroup bestOption)) w2 with
        | (Failure err, w3) => (Failure (Passed err), w3)
        | (Success nodeInfo, w3) =>
            let '(estimate, report) :=
              Estimate (estimator bestOption) (NodeInfoNode nodeInfo) in
            match GetCurrentSize (nodeGroup bestOption) w3 with
            | (Failure err, w4) =>
                (Failure (ErrorGettingNodeGroupSize err), w4)
            | (Success currentSize, w4) =>
                let newSize := GoInt.add currentSize estimate in
                match SetSize (nodeGroup bestOption) estimate w4 with
                | (Failure err, w5) => (Failure (Passed err), w5)
                | (Success _, w5) =>
                    (Success true,
                     recordAll
                       (map (fun pod =>
                               TriggeredScaleUp pod (nodeGroup bestOption)
                                                currentSize newSize)
                            (FittingPods (estimator bestOption)))
                       w5)
                end
            end
        end
      else noScaleUp remain w2
  | None => noScaleUp remain w2
  end.

Definition ScaleUp (unschedulablePods : list Pod) (nodes : list KNode)
    (provider : P) (w : W) : result (error E) bool * W :=
  match unschedulablePods with
  | [] => (Success false, w)
  | _ :: _ =>
      match GetNodeGroups provider nodes w with
      | (Failure err, w1) => (Failure (FailedToGetNodeGroups err), w1)
      | (Success nodeGroups, w1) =>
          let '(expansionOptions, remain, w2) :=
            tryGroups unschedulablePods nodeGroups [] [] w1 in
          resizeBestOption expansionOptions remain w2
      end
  end.

End ScaleUp.

Arguments ExpansionOption Est NG : clear implicits.

End Engine.

(** ** Specification-side definitions *)

Module Spec.
Import Aws.

(** The node-group specification string [min:max:id]: three
    colon-separated fields, the two sizes written as integers of the
    [int] type with [1 <= min <= max], and an identifier the url parser
    accepts. *)
Definition wellFormedSpec (ParseAsgUrl : string -> error + (string * string))
    (value : string) (min max : Z) (zone name : string) : Prop :=
  exists smin smax id : string,
    value = smin +:+ ":" +:+ smax +:+ ":" +:+ id
    /\ GoStrings.Atoi smin = Some min
    /\ GoStrings.Atoi smax = Some max
    /\ 1 <= min /\ min <= max
    /\ ParseAsgUrl id = inr (zone, name).

Section Manager.

Context {Svc : Type} `{!AutoScalingAPI Svc}.
Variable GenerateAsgUrl : string -> string -> string.

(** The manager with its cache replaced by [c]. *)
Definition withCache (c : gmap AwsRef Asg) (m : AwsManager Svc) : AwsManager Svc :=
  mkAwsManager (asgs m) c (service m) (calls m).

(** The manager after calls made outside its lock: the service has moved
    on and the log has grown, the groups and the cache are as they were. *)
Definition withBackend (s : Svc) (log : list Call) (m : AwsManager Svc)
    : AwsManager Svc :=
  mkAwsManager (asgs m) (asgCache m) s log.

(** Some registered group lies in the zone of [instance]. *)
Definition zoneConfigured (instance : AwsRef) (m : AwsManager Svc) : bool :=
  existsb (fun asg => String.eqb (Zone (asgRef (config asg))) (Zone instance))
          (asgs m).

(** The calls logged between two states of the manager. *)
Definition callsSince (m m' : AwsManager Svc) (new : list Call) : Prop :=
  calls m' = calls m ++ new.

(** The SDK's replies are complete: a successful describe call returns at
    least one record, and no pointer in it is nil. *)
Definition completeInstance (i : option Instance) : bool :=
  match i with
  | Some (mkInstance (Some _)) => true
  | _ => false
  end.

Definition completeGroups (l : list (option Group)) : bool :=
  match l with
  | Some g :: _ =>
      match DesiredCapacity g with
      | Some _ => forallb completeInstance (Instances g)
      | None => false
      end
  | _ => false
  end.

Definition completeDetails (l : list (option InstanceDetails)) : bool :=
  match l with
  | Some (mkInstanceDetails (Some _)) :: _ => true
  | _ => false
  end.

Definition SdkContract : Prop :=
  (forall name s l s',
      DescribeAutoScalingGroups name s = (Reply l, s') -> completeGroups l = true)
  /\ (forall id s l s',
      DescribeAutoScalingInstances id s = (Reply l, s') -> completeDetails l = true).

(** The operations on a manager, each an atomic step. *)
Inductive Op : Type :=
| OpRegisterAsg (asg : Asg)
| OpGetAsgSize (asg : Asg)
| OpSetAsgSize (asg : Asg) (size : Z)
| OpDeleteInstances (instances : list AwsRef)
| OpGetAsgForInstance (instance : AwsRef)
| OpRegenerateCacheIgnoreError
| OpIncreaseSize (asg : Asg) (delta : Z)
| OpBelongs (asg : Asg) (node : Node)
| OpDeleteNodes (asg : Asg) (nodes : list Node).

Definition runOp (op : Op) (m : AwsManager Svc) : AwsManager Svc :=
  match op with
  | OpRegisterAsg asg => snd (RegisterAsg asg m)
  | OpGetAsgSize asg => snd (GetAsgSize asg m)
  | OpSetAsgSize asg size => snd (SetAsgSize asg size m)
  | OpDeleteInstances instances => snd (DeleteInstances instances m)
  | OpGetAsgForInstance instance => snd (GetAsgForInstance instance m)
  | OpRegenerateCacheIgnoreError => snd (regenerateCacheIgnoreError m)
  | OpIncreaseSize asg delta => snd (IncreaseSize asg delta m)
  | OpBelongs asg node => snd (Belongs GenerateAsgUrl asg node m)
  | OpDeleteNodes asg nodes => snd (DeleteNodes GenerateAsgUrl asg nodes m)
  end.

(** The states of a manager created over the service state [svc0].  Any
    operation may run as one step.  [cacheMutex] guards the lookups and
    the refreshes only, so between two of them the backend may have
    changed and calls of other operations may have been made
    ([reach_backend]); this covers the interleavings of operations that
    run at the same time. *)
Inductive reachable (svc0 : Svc) : AwsManager Svc -> Prop :=
| reach_create : reachable svc0 (CreateAwsManager svc0)
| reach_op m op : reachable svc0 m -> reachable svc0 (runOp op m)
| reach_backend m s log :
    reachable svc0 m -> reachable svc0 (withBackend s log m).

(** [c] is the map some wholly successful refresh has built, over groups
    that were registered by then. *)
Definition isSnapshot (registered : list asgInformation) (c : gmap AwsRef Asg)
    : Prop :=
  exists m0 m1 : AwsManager Svc,
    asgs m0 `prefix_of` registered
    /\ regenerateCache m0 = (Ok tt, m1)
    /\ asgCache m1 = c.


(** Looked up one after the other from state [m], the references all
    resolve to the group [g]; the lookups end in state [m']. *)
Inductive resolveInTurn (g : Asg)
    : list AwsRef -> AwsManager Svc -> AwsManager Svc -> Prop :=
| resolve_nil m : resolveInTurn g [] m m
| resolve_cons r rest m m' m'' :
    GetAsgForInstance r m = (Ok (Some g), m') ->
    resolveInTurn g rest m' m'' ->
    resolveInTurn g (r :: rest) m m''.

(** *** Predicates on runs of the manager *)

(** What a run of an operation may do to the manager: the registered
    groups stay, the cache stays or becomes a snapshot, and the calls it
    logs all satisfy [P]. *)
Definition evolves (P : Call -> bool) (m m' : AwsManager Svc) : Prop :=
  asgs m' = asgs m
  /\ (asgCache m' = asgCache m \/ isSnapshot (asgs m) (asgCache m'))
  /\ exists new, calls m' = calls m ++ new /\ forallb P new = true.

(** Every run of [c] is such a step. *)
Definition Evolves (P : Call -> bool) {A} (c : M Svc A) : Prop :=
  forall m r m', c m = (r, m') -> evolves P m m'.

(** No call of [l] was refused. *)
Definition allAccepted (l : list Call) : bool :=
  forallb (fun c => match callRefused c with None => true | Some _ => false end) l.

(** How the result of a refresh loop shows in its log: an error is the
    refusal of the last call, after accepted calls only; otherwise every
    call was accepted. *)
Definition verdict {A} (r : outcome error A) (new : list Call) : Prop :=
  match r with
  | Err e =>
      exists pre c msg,
        new = pre ++ [c] /\ allAccepted pre = true
        /\ callRefused c = Some msg /\ e = BackendError msg
  | _ => allAccepted new = true
  end.

(** Runs that behave as a refresh loop: groups and cache untouched,
    describe calls only, and the result as the log tells. *)
Definition Refreshing {A} (c : M Svc A) : Prop :=
  forall m r m', c m = (r, m') ->
    asgs m' = asgs m /\ asgCache m' = asgCache m
    /\ exists new, calls m' = calls m ++ new
                   /\ forallb isDescribe new = true /\ verdict r new.

(** The run does not depend on the cache of the manager. *)
Definition Oblivious {A} (c : M Svc A) : Prop :=
  forall k m, c (withCache k m) = (fst (c m), withCache k (snd (c m))).

(** What [GetAsgForInstance] does after a miss in a configured zone. *)
Definition refreshAndFind (instance : AwsRef) : M Svc AsgPtr := fun m =>
  match regenerateCache m with
  | (Err err, m') => (Err (LookupFailed instance err), m')
  | (Panic p, m') => (Panic p, m')
  | (Ok _, m') =>
      match asgCache m' !! instance with
      | Some found => (Ok (Some found), m')
      | None => (Err (NotInAnyConfiguredAsg instance), m')
      end
  end.

(** No restriction on the calls logged. *)
Definition anyCall (c : Call) : bool := true.

(** The instance a termination call names. *)
Definition terminatedId (c : Call) : option string :=
  match c with CallTerminate id _ => Some id | _ => None end.

(** How the result of the termination loop shows in its log. *)
Definition terminationVerdict (r : outcome error unit) (done : list Call)
    (instances : list AwsRef) : Prop :=
  match r with
  | Ok _ => length done = length instances /\ allAccepted done = true
  | Err e =>
      exists pre id msg,
        done = pre ++ [CallTerminate id (Some msg)]
        /\ allAccepted pre = true /\ e = BackendError msg
  | Panic _ => False
  end.

(** No run of [c] ends in a panic. *)
Definition NoPanic {A} (c : M Svc A) : Prop :=
  forall m r m', c m = (r, m') -> forall p, r <> Panic p.

(** The part of [DeleteInstances] before its first termination call. *)
Definition validateCommonAsg (instances : list AwsRef) : M Svc unit :=
  match instances with
  | [] => mret tt
  | first :: _ =>
      commonAsg ← GetAsgForInstance first;
      checkCommonAsg commonAsg instances
  end.

End Manager.

End Spec.

(** ** A scripted backend and a small cluster, for concrete runs *)

Module Scenario.
Import Aws.

(** A service that answers every call from a fixed script. *)
Record Script : Type := mkScript {
  onDescribeGroups : string -> reply (list (option Group));
  onDescribeInstances : string -> reply (list (option InstanceDetails));
  onSetDesiredCapacity : string -> Z -> reply unit;
  onTerminate : string -> reply unit
}.

#[global] Instance Script_API : AutoScalingAPI Script := {
  DescribeAutoScalingGroups name s := (onDescribeGroups s name, s);
  DescribeAutoScalingInstances id s := (onDescribeInstances s id, s);
  SetDesiredCapacity name size s := (onSetDesiredCapacity s name size, s);
  TerminateInstanceInAutoScalingGroup id s := (onTerminate s id, s)
}.

(** Every group has three instances wanted and lists the one instance
    "i-a1"; every instance is in zone "us-east-1a"; resizing is accepted;
    terminating is accepted except for "i-bad". *)
Definition script : Script := {|
  onDescribeGroups _ :=
    Reply [Some (mkGroup (Some 3) [Some (mkInstance (Some "i-a1"))])];
  onDescribeInstances _ :=
    Reply [Some (mkInstanceDetails (Some "us-east-1a"))];
  onSetDesiredCapacity _ _ := Reply tt;
  onTerminate id :=
    if String.eqb id "i-bad" then Refused "throttled" else Reply tt
|}.

(** The same service with its describe calls refused. *)
Definition scriptDown : Script := {|
  onDescribeGroups _ := Refused "unavailable";
  onDescribeInstances _ := Refused "unavailable";
  onSetDesiredCapacity _ _ := Reply tt;
  onTerminate _ := Reply tt
|}.

Definition groupA : Asg := mkAsg 1 (mkAwsRef "us-east-1a" "asg-a") 1 5.
Definition groupB : Asg := mkAsg 2 (mkAwsRef "us-east-1a" "asg-b") 1 5.

Definition refA1 : AwsRef := mkAwsRef "us-east-1a" "i-a1".
Definition refA2 : AwsRef := mkAwsRef "us-east-1a" "i-a2".
Definition refBad : AwsRef := mkAwsRef "us-east-1a" "i-bad".
Definition refB1 : AwsRef := mkAwsRef "us-east-1a" "i-b1".
Definition refUnknown : AwsRef := mkAwsRef "us-east-1a" "i-unknown".
Definition refElsewhere : AwsRef := mkAwsRef "eu-west-1b" "i-far".

Definition nodeA1 : Node := mkNode "node-a1" "aws://us-east-1a/i-a1".
Definition nodeB1 : Node := mkNode "node-b1" "aws://us-east-1a/i-b1".

Definition registered : list asgInformation :=
  [mkAsgInformation groupA EmptyString; mkAsgInformation groupB EmptyString].

Definition cache : gmap AwsRef Asg :=
  <[refB1 := groupB]> (<[refBad := groupA]> (<[refA2 := groupA]>
    (<[refA1 := groupA]> ∅))).

(** Both groups registered, their members cached. *)
Definition manager (s : Script) : AwsManager Script :=
  mkAwsManager registered cache s [].

(** A stand-in for [GenerateAsgUrl] that tells the two groups apart. *)
Definition zoneSlashName (zone name : string) : string :=
  zone +:+ "/" +:+ name.

(** A stand-in for [ParseAsgUrl] that takes every identifier as the name
    of a group in zone "us-east-1a". *)
Definition nameInZone (id : string) : error + (string * string) :=
  inr ("us-east-1a", id).

End Scenario.

(** ** A small GCE cluster, for concrete runs of the engine *)

Module EngineScenario.
Import Provider Gce Engine.

(** The world: the target size of the one instance group, and what has
    been asked of the manager and of the event recorder. *)
Record World : Type := mkWorld {
  migSize : Z;
  sizesSet : list Z;
  sizeReads : nat;
  eventCount : nat
}.

(** The manager cannot read the size of the group "mig-down". *)
#[global] Instance fakeManager : GceManager World := {|
  GetMigSize cfg w :=
    (if String.eqb (MigName cfg) "mig-down"
     then Failure (ManagerError "down")
     else Success (migSize w),
     mkWorld (migSize w) (sizesSet w) (S (sizeReads w)) (eventCount w));
  SetMigSize _ size w :=
    (Success tt,
     mkWorld size (sizesSet w ++ [size]) (sizeReads w) (eventCount w))
|}.

(** Pods and nodes are numbered; an estimator keeps the pods added to it,
    and estimates one node per pod. *)
#[global] Instance fakeEstimator : Estimator nat nat (list nat) := {|
  NewBasicNodeEstimator := [];
  Add est pod := est ++ [pod];
  GetCount est := Z.of_nat (length est);
  Estimate est _ := (Z.of_nat (length est), EmptyString);
  FittingPods est := est
|}.

(** Every pod passes the predicates on every node. *)
#[global] Instance fakeSimulator : Simulator World Gce.error nat nat nat := {|
  BuildNodeInfoForNode node w := (Success node, w);
  CheckPredicates _ _ := None;
  NodeInfoNode info := info
|}.

(** A provider is the list of its node groups. *)
#[global] Instance fakeProvider
    : Provider World Gce.error nat (gceNodeGroup nat) (list (gceNodeGroup nat)) := {|
  GetNodeGroups groups _ w := (Success groups, w)
|}.

Definition firstOption
    (options : list (ExpansionOption (list nat) (gceNodeGroup nat)))
    : option (ExpansionOption (list nat) (gceNodeGroup nat)) :=
  head options.

Definition countEvent (e : Event nat (gceNodeGroup nat)) (w : World) : World :=
  mkWorld (migSize w) (sizesSet w) (sizeReads w) (S (eventCount w)).

(** A group of at most three nodes. *)
Definition smallGroup : gceNodeGroup nat :=
  mkGceNodeGroup (mkMigConfig "mig-small" 1 3) 0%nat.

(** A group whose size cannot be read. *)
Definition downGroup : gceNodeGroup nat :=
  mkGceNodeGroup (mkMigConfig "mig-down" 1 3) 0%nat.

(** The group holds one node. *)
Definition oneNode : World := mkWorld 1 [] 0 0.

Definition fivePods : list nat := [1; 2; 3; 4; 5]%nat.

End EngineScenario.

(** ** Further specification-side definitions *)

Module Laws.
Import Aws Spec.

(** The group names the describe-groups calls of a log ask for. *)
Definition describedGroups (log : list Call) : list string :=
  omap (fun c => match c with
                 | CallDescribeGroups name _ => Some name
                 | _ => None
                 end) log.

(** [k1 := g], then [k2 := g], ... written into [c]. *)
Definition insertAll (g : Asg) (keys : list AwsRef) (c : gmap AwsRef Asg)
    : gmap AwsRef Asg :=
  foldl (fun c k => <[k := g]> c) c keys.

(** A node whose provider id has the six bytes [AwsRefFromProviderId]
    skips. *)
Definition longEnough (node : Node) : Prop :=
  (6 <= String.length (ProviderID node))%nat.

(** What [RegisterAsg] appends for a group: its [basename] is not set. *)
Definition registration (asg : Asg) : asgInformation :=
  mkAsgInformation asg EmptyString.

Section Manager.

Context {Svc : Type} `{!AutoScalingAPI Svc}.

(** The describe calls only read: they leave the service as it is. *)
Definition ReadOnlyDescribes : Prop :=
  (forall name (s : Svc), snd (DescribeAutoScalingGroups name s) = s)
  /\ (forall id (s : Svc), snd (DescribeAutoScalingInstances id s) = s).

(** On every manager over the service state [s], [c] gives one and the
    same result and leaves the service at [s]. *)
Definition ReadsOnly (s : Svc) {A} (c : M Svc A) : Prop :=
  exists r, forall m, service m = s -> fst (c m) = r /\ service (snd (c m)) = s.

(** [keys] written for each registered group in turn. *)
Definition spread (keys : list AwsRef) (registered : list asgInformation)
    (c : gmap AwsRef Asg) : gmap AwsRef Asg :=
  foldl (fun c a => insertAll (config a) keys c) c registered.

(** The backend keeps the capacity a group was set to: right after an
    accepted [SetDesiredCapacity], describing the group lists it first,
    with that capacity. *)
Definition KeepsCapacity : Prop :=
  forall name size (s s' : Svc),
    SetDesiredCapacity name size s = (Reply tt, s') ->
    exists g rest,
      fst (DescribeAutoScalingGroups name s') = Reply (Some g :: rest)
      /\ DesiredCapacity g = Some size.

(** A reference that no lookup can resolve: not cached, in no zone of a
    registered group. *)
Definition unmanaged (m : AwsManager Svc) (r : AwsRef) : Prop :=
  asgCache m !! r = None /\ zoneConfigured r m = false.

End Manager.

End Laws.

Module EngineLaws.
Import Provider Engine.

Section ScaleUp.

Context {W E Pod KNode NodeInfo Est NG P : Type}.
Context `{!EqDecision Pod}.
Context `{!NodeGroup W E KNode NG} `{!Provider.Provider W E KNode NG P}.
Context `{!Estimator Pod KNode Est} `{!Simulator W E Pod KNode NodeInfo}.

Variable BestExpansionOption :
  list (ExpansionOption Est NG) -> option (ExpansionOption Est NG).

(** A fresh estimator after the pods of [fitting] were added, in order. *)
Definition fed (fitting : list Pod) : Est :=
  foldl Add NewBasicNodeEstimator fitting.

(** An option as the loop over the node groups makes them: its estimator
    was fed some of the unschedulable pods, at least one, in their order. *)
Definition wellFed (pods : list Pod) (option : ExpansionOption Est NG) : Prop :=
  exists fitting,
    fitting <> [] /\ sublist fitting pods /\ estimator option = fed fitting.

(** The cycle got as far as picking [best]: the node groups were listed,
    the loop over them ended in world [w2] with [remain], and [best] is
    the option picked, with a positive count. *)
Definition picked (pods : list Pod) (nodes : list KNode) (provider : P)
    (w : W) (remain : list Pod) (w2 : W) (best : ExpansionOption Est NG)
    : Prop :=
  exists groups w1 options,
    GetNodeGroups provider nodes w = (Success groups, w1)
    /\ tryGroups pods groups [] [] w1 = (options, remain, w2)
    /\ BestExpansionOption options = Some best
    /\ 0 < GetCount (estimator best).

(** The cycle ended its loop over the node groups with nothing to pick. *)
Definition nothingPicked (pods : list Pod) (nodes : list KNode) (provider : P)
    (w : W) (remain : list Pod) (w2 : W) : Prop :=
  exists groups w1 options,
    GetNodeGroups provider nodes w = (Success groups, w1)
    /\ tryGroups pods groups [] [] w1 = (options, remain, w2)
    /\ (BestExpansionOption options = None
        \/ exists best, BestExpansionOption options = Some best
                        /\ GetCount (estimator best) <= 0).

End ScaleUp.

Section Backend.

Context {W : Type} `{!Gce.GceManager W}.

(** The backend keeps the size a group was set to: a size read right
    after a successful [SetMigSize] on the group returns that size. *)
Definition KeepsSize (cfg : Gce.MigConfig) : Prop :=
  forall size (w w' : W),
    Gce.SetMigSize cfg size w = (Success tt, w') ->
    fst (Gce.GetMigSize cfg w') = Success size.

End Backend.

End EngineLaws.

(** A backend that reads sizes but refuses to set them. *)
Module QuotaScenario.
Import Provider Gce Engine.

(** The world: the size of the one instance group, and the number of
    events recorded. *)
Record World : Type := mkWorld {
  migSize : Z;
  eventCount : nat
}.

#[global] Instance quotaManager : GceManager World := {|
  GetMigSize _ w := (Success (migSize w), w);
  SetMigSize _ _ w := (Failure (ManagerError "quota"), w)
|}.

(** Pods and nodes are numbered; the pods with an even number pass the
    predicates. *)
#[global] Instance evenSimulator : Simulator World Gce.error nat nat nat := {|
  BuildNodeInfoForNode node w := (Success node, w);
  CheckPredicates pod _ :=
    if Nat.even pod then None else Some (ManagerError "odd");
  NodeInfoNode info := info
|}.

#[global] Instance listProvider
    : Provider World Gce.error nat (gceNodeGroup nat) (list (gceNodeGroup nat)) := {|
  GetNodeGroups groups _ w := (Success groups, w)
|}.

Definition countEvent (e : Event nat (gceNodeGroup nat)) (w : World) : World :=
  mkWorld (migSize w) (S (eventCount w)).

Definition group : gceNodeGroup nat :=
  mkGceNodeGroup (mkMigConfig "mig" 1 3) 0%nat.

Definition full : World := mkWorld 3 0.
Definition one : World := mkWorld 1 0.

End QuotaScenario.

(** Further runs over the scripted service. *)
Module MoreScenario.
Import Aws Spec Laws Scenario.

(** A manager just created over the scripted service, with the two
    groups registered. *)
Definition started : AwsManager Script :=
  runOp zoneSlashName (OpRegisterAsg groupB)
    (runOp zoneSlashName (OpRegisterAsg groupA) (CreateAwsManager script)).

(** The same manager after a first lookup of "i-a1". *)
Definition refreshed : AwsManager Script :=
  runOp zoneSlashName (OpGetAsgForInstance refA1) started.

Definition specsAB : list string := ["1:5:asg-a"; "1:5:asg-b"].

(** The second specification has a minimum size of zero. *)
Definition specsBad : list string := ["1:5:asg-a"; "0:5:asg-b"; "1:5:asg-c"].

End MoreScenario.

(** A service that keeps the desired capacity of its one group. *)
Module SteadyScenario.
Import Aws.

Record Steady : Type := mkSteady { capacity : Z }.

(** Terminating an instance decrements the desired capacity. *)
#[global] Instance Steady_API : AutoScalingAPI Steady := {
  DescribeAutoScalingGroups _ s :=
    (Reply [Some (mkGroup (Some (capacity s))
                          [Some (mkInstance (Some "i-a1"))])], s);
  DescribeAutoScalingInstances _ s :=
    (Reply [Some (mkInstanceDetails (Some "us-east-1a"))], s);
  SetDesiredCapacity _ size s := (Reply tt, mkSteady size);
  TerminateInstanceInAutoScalingGroup _ s :=
    (Reply tt, mkSteady (capacity s - 1))
}.

Definition three : Steady := mkSteady 3.

End SteadyScenario.

(** A service that lists the instance of asg-a and the instance of asg-b
    in turn, one for each describe-groups call. *)
Module TurnsScenario.
Import Aws Spec Scenario.

Record Turns : Type := mkTurns { described : nat }.

#[global] Instance Turns_API : AutoScalingAPI Turns := {
  DescribeAutoScalingGroups _ s :=
    (Reply [Some (mkGroup (Some 3)
                    [Some (mkInstance
                             (Some (if Nat.even (described s)
                                    then "i-a1" else "i-b1")))])],
     mkTurns (S (described s)));
  DescribeAutoScalingInstances _ s :=
    (Reply [Some (mkInstanceDetails (Some "us-east-1a"))], s);
  SetDesiredCapacity _ _ s := (Reply tt, s);
  TerminateInstanceInAutoScalingGroup _ s := (Reply tt, s)
}.



End TurnsScenario.

(** * Properties *)

(** ** Go integers and strings *)

Lemma wrap_inRange z : GoInt.inRange z -> GoInt.wrap z = z.
Proof.
  unfold GoInt.inRange, GoInt.minInt, GoInt.maxInt, GoInt.wrap. intros H.
  rewrite Z.mod_small; lia.
Qed.

Lemma add_exact a b : GoInt.inRange (a + b) -> GoInt.add a b = a + b.
Proof. apply wrap_inRange. Qed.

Lemma wrap_range z : GoInt.inRange (GoInt.wrap z).
Proof.
  unfold GoInt.inRange, GoInt.minInt, GoInt.maxInt, GoInt.wrap.
  pose proof (Z.mod_pos_bound (z + 2 ^ 63) (2 ^ 64)). lia.
Qed.

Section StringFacts.
Import GoStrings.

Example Atoi_plain : Atoi "42" = Some 42.
Proof. reflexivity. Qed.

Example Atoi_signed : Atoi "-7" = Some (-7) /\ Atoi "+7" = Some 7.
Proof. split; reflexivity. Qed.

Example Atoi_rejects :
  Atoi EmptyString = None /\ Atoi "+" = None /\ Atoi "1x" = None /\ Atoi " 1" = None
  /\ Atoi "9223372036854775808" = None
  /\ Atoi "9223372036854775807" = Some GoInt.maxInt
  /\ Atoi "-9223372036854775808" = Some GoInt.minInt.
Proof. repeat split; reflexivity. Qed.

Example Split_slash : Split "us-east-1a/i-0a" "/" = ["us-east-1a"; "i-0a"].
Proof. reflexivity. Qed.

Example Split_empty : Split EmptyString "/" = [EmptyString].
Proof. reflexivity. Qed.

Example SplitN_three :
  SplitN "1:10:https://h/asg" ":" 3 = ["1"; "10"; "https://h/asg"].
Proof. reflexivity. Qed.

Example SplitN_short : SplitN "1:10" ":" 3 = ["1"; "10"].
Proof. reflexivity. Qed.

Lemma cutAt_0 sep s : cutAt sep 0 s = [s].
Proof. destruct s; reflexivity. Qed.

Lemma SplitN3_cutAt value : SplitN value ":" 3 = cutAt ":" 2 value.
Proof. reflexivity. Qed.

Lemma cutAt_nonempty sep k s : cutAt sep k s <> [].
Proof.
  revert k. induction s as [|c s IH]; intros [|k]; simpl; try discriminate.
  destruct (Ascii.eqb c sep); [discriminate|].
  destruct (cutAt sep (S k) s); discriminate.
Qed.

(** Cutting at the first separator. *)
Lemma cutAt_first sep k a s :
  hasByte sep a = false ->
  cutAt sep (S k) (a +:+ String sep s) = a :: cutAt sep k s.
Proof.
  induction a as [|c a IH]; intros Ha.
  - simpl. rewrite Ascii.eqb_refl. reflexivity.
  - simpl in Ha. destruct (Ascii.eqb c sep) eqn:Hc; [discriminate|].
    change (String c a +:+ String sep s) with (String c (a +:+ String sep s)).
    cbn [cutAt]. rewrite Hc, (IH Ha). reflexivity.
Qed.

Lemma cutAt_first_inv sep k v a t ts :
  cutAt sep (S k) v = a :: t :: ts ->
  hasByte sep a = false
  /\ exists s, v = a +:+ String sep s /\ cutAt sep k s = t :: ts.
Proof.
  revert a. induction v as [|c v IH]; intros a H.
  - discriminate.
  - cbn [cutAt] in H. destruct (Ascii.eqb c sep) eqn:Hc.
    + injection H as Ha Hrest. subst a. apply Ascii.eqb_eq in Hc. subst c.
      split; [reflexivity|]. exists v. split; [reflexivity|]. exact Hrest.
    + destruct (cutAt sep (S k) v) as [|t' ts'] eqn:Hcut; [discriminate|].
      injection H as Ha Hrest. subst a ts'.
      destruct (IH t' eq_refl) as [Hfree [s [Hv Hs]]].
      split; [simpl; rewrite Hc; exact Hfree|].
      exists s. split; [|exact Hs]. rewrite Hv. reflexivity.
Qed.

Lemma cutAt_free sep k s : hasByte sep s = false -> cutAt sep k s = [s].
Proof.
  revert k. induction s as [|c s IH]; intros k Hs.
  - destruct k; reflexivity.
  - simpl in Hs. destruct (Ascii.eqb c sep) eqn:Hc; [discriminate|].
    destruct k as [|k]; [reflexivity|].
    cbn [cutAt]. rewrite Hc, (IH (S k) Hs). reflexivity.
Qed.

(** The two pieces of [Split] around the only separator. *)
Lemma Split_pair sep a b :
  hasByte sep a = false -> hasByte sep b = false ->
  Split (a +:+ String sep b) sep = [a; b].
Proof.
  intros Ha Hb. unfold Split.
  destruct (String.length (a +:+ String sep b)) as [|k] eqn:Hlen.
  - exfalso. clear -Hlen. induction a; discriminate.
  - rewrite (cutAt_first _ _ _ _ Ha), (cutAt_free _ _ _ Hb). reflexivity.
Qed.

(** The three pieces of [SplitN value ":" 3]. *)
Lemma SplitN3_spec value a b c :
  SplitN value ":" 3 = [a; b; c] <->
  value = a +:+ ":" +:+ b +:+ ":" +:+ c
  /\ hasByte ":" a = false /\ hasByte ":" b = false.
Proof.
  rewrite SplitN3_cutAt. split.
  - intros H.
    destruct (cutAt_first_inv _ _ _ _ _ _ H) as [Ha [s [Hv Hs]]].
    destruct (cutAt_first_inv _ _ _ _ _ _ Hs) as [Hb [s' [Hv' Hs']]].
    rewrite cutAt_0 in Hs'. injection Hs' as Hc. subst.
    repeat split; assumption || reflexivity.
  - intros [Hv [Ha Hb]]. subst value.
    change (":" +:+ b +:+ ":" +:+ c) with (String ":" (b +:+ String ":" c)).
    rewrite (cutAt_first _ _ _ _ Ha), (cutAt_first _ _ _ _ Hb), cutAt_0.
    reflexivity.
Qed.

Lemma parseDigits_no_colon acc s v :
  parseDigits acc s = Some v -> hasByte ":" s = false.
Proof.
  revert acc. induction s as [|c s IH]; intros acc H; [reflexivity|].
  simpl in H. destruct (digitValue c) as [d|] eqn:Hd; [|discriminate].
  simpl. destruct (Ascii.eqb c ":") eqn:Hc.
  - apply Ascii.eqb_eq in Hc. subst c. discriminate.
  - eapply IH; eassumption.
Qed.

(** An integer literal holds no colon. *)
Lemma Atoi_no_colon s z : Atoi s = Some z -> hasByte ":" s = false.
Proof.
  destruct s as [|c rest]; [discriminate|].
  unfold Atoi.
  destruct (Ascii.eqb c "-") eqn:Hminus;
    [|destruct (Ascii.eqb c "+") eqn:Hplus].
  - apply Ascii.eqb_eq in Hminus. subst c.
    destruct rest as [|c' rest']; [discriminate|].
    destruct (parseDigits 0 (String c' rest')) eqn:Hp; [|discriminate].
    intros _. change (hasByte ":" (String c' rest') = false).
    eapply parseDigits_no_colon; eassumption.
  - apply Ascii.eqb_eq in Hplus. subst c.
    destruct rest as [|c' rest']; [discriminate|].
    destruct (parseDigits 0 (String c' rest')) eqn:Hp; [|discriminate].
    intros _. change (hasByte ":" (String c' rest') = false).
    eapply parseDigits_no_colon; eassumption.
  - destruct (parseDigits 0 (String c rest)) eqn:Hp; [|discriminate].
    intros _. eapply parseDigits_no_colon; eassumption.
Qed.

End StringFacts.

(** ** The parsers of package aws *)

Section Parsers.
Import Aws GoStrings.

Lemma AwsRefFromProviderId_short id :
  (String.length id < 6)%nat ->
  AwsRefFromProviderId id = Panic SliceBoundsOutOfRange.
Proof.
  intros Hlen. unfold AwsRefFromProviderId, sliceFrom.
  do 6 (destruct id as [|? id]; [reflexivity|]).
  simpl in Hlen. lia.
Qed.

Lemma dropBytes_prefix prefix rest :
  dropBytes (String.length prefix) (prefix +:+ rest) = Some rest.
Proof. induction prefix as [|c prefix IH]; [reflexivity|exact IH]. Qed.

Lemma AwsRefFromProviderId_any_prefix prefix zone name :
  String.length prefix = 6%nat ->
  hasByte "/" zone = false -> hasByte "/" name = false ->
  AwsRefFromProviderId (prefix +:+ zone +:+ "/" +:+ name)
  = Ok (mkAwsRef zone name).
Proof.
  intros Hlen Hzone Hname. unfold AwsRefFromProviderId, sliceFrom.
  rewrite <- Hlen, dropBytes_prefix.
  change (zone +:+ "/" +:+ name) with (zone +:+ String "/" name).
  rewrite (Split_pair _ _ _ Hzone Hname). reflexivity.
Qed.

(** C9.  The parser of resource identities does not fail cleanly on every
    malformed string: it slices off the first six bytes unchecked.  So
    every identity shorter than the prefix "aws://" makes it panic, and
    every identity made of six bytes of any kind, a zone, a slash and a
    name is accepted as if its scheme were "aws". *)
Theorem AwsRefFromProviderId_unchecked_prefix :
  AwsRefFromProviderId "aws" = Panic SliceBoundsOutOfRange
  /\ AwsRefFromProviderId EmptyString = Panic SliceBoundsOutOfRange
  /\ AwsRefFromProviderId "gce://us-central1-b/node-1"
     = Ok (mkAwsRef "us-central1-b" "node-1")
  /\ AwsRefFromProviderId "aws://us-east-1a/i-0a"
     = Ok (mkAwsRef "us-east-1a" "i-0a")
  /\ AwsRefFromProviderId "aws://us-east-1a"
     = Err (WrongId "aws://us-east-1a")
  /\ (forall id, (String.length id < 6)%nat ->
                 AwsRefFromProviderId id = Panic SliceBoundsOutOfRange)
  /\ (forall prefix zone name,
        String.length prefix = 6%nat ->
        hasByte "/" zone = false -> hasByte "/" name = false ->
        AwsRefFromProviderId (prefix +:+ zone +:+ "/" +:+ name)
        = Ok (mkAwsRef zone name)).
Proof.
  repeat split; try reflexivity.
  - apply AwsRefFromProviderId_short.
  - apply AwsRefFromProviderId_any_prefix.
Qed.

Variable ParseAsgUrl : string -> error + (string * string).

Lemma buildAsg_tokens here value t0 t1 t2 :
  SplitN value ":" 3 = [t0; t1; t2] ->
  buildAsg ParseAsgUrl here value =
    match Atoi t0 with
    | Some mn =>
        if mn <=? 0 then Err MinSizeBelowOne
        else match Atoi t1 with
             | Some mx =>
                 if mx <? mn then Err MaxSizeBelowMin
                 else match ParseAsgUrl t2 with
                      | inr (zone, name) =>
                          Ok (mkAsg here (mkAwsRef zone name) mn mx)
                      | inl err => Err (AsgUrlParseFailed t2 err)
                      end
             | None => Err (MaxSizeNotInteger t1)
             end
    | None => Err (MinSizeNotInteger t0)
    end.
Proof. intros H. unfold buildAsg. rewrite H. reflexivity. Qed.

Lemma buildAsg_wrong_count here value :
  (forall t0 t1 t2, SplitN value ":" 3 <> [t0; t1; t2]) ->
  buildAsg ParseAsgUrl here value = Err (WrongNodesConfiguration value).
Proof.
  intros H. unfold buildAsg.
  destruct (SplitN value ":" 3) as [|t0 [|t1 [|t2 [|t3 ts]]]]; try reflexivity.
  exfalso. exact (H _ _ _ eq_refl).
Qed.

Lemma buildAsg_total here value :
  (exists asg, buildAsg ParseAsgUrl here value = Ok asg)
  \/ (exists e, buildAsg ParseAsgUrl here value = Err e).
Proof.
  unfold buildAsg.
  destruct (SplitN value ":" 3) as [|t0 [|t1 [|t2 [|t3 ts]]]]; eauto.
  destruct (Atoi t0) as [mn|]; eauto.
  destruct (mn <=? 0); eauto.
  destruct (Atoi t1) as [mx|]; eauto.
  destruct (mx <? mn); eauto.
  destruct (ParseAsgUrl t2) as [err|[zone name]]; eauto.
Qed.

Lemma buildAsg_Ok_iff here value asg :
  buildAsg ParseAsgUrl here value = Ok asg <->
  asgAddr asg = here
  /\ Spec.wellFormedSpec ParseAsgUrl value (minSize asg) (maxSize asg)
       (Zone (asgRef asg)) (Name (asgRef asg)).
Proof.
  split.
  - intros H.
    destruct (SplitN value ":" 3) as [|t0 [|t1 [|t2 [|t3 ts]]]] eqn:Hsplit;
      try (unfold buildAsg in H; rewrite Hsplit in H; discriminate).
    rewrite (buildAsg_tokens _ _ _ _ _ Hsplit) in H.
    destruct (Atoi t0) as [mn|] eqn:H0; [|discriminate].
    destruct (mn <=? 0) eqn:Hmn; [discriminate|].
    destruct (Atoi t1) as [mx|] eqn:H1; [|discriminate].
    destruct (mx <? mn) eqn:Hmx; [discriminate|].
    destruct (ParseAsgUrl t2) as [err|[zone name]] eqn:Hurl; [discriminate|].
    injection H as <-. simpl. split; [reflexivity|].
    apply SplitN3_spec in Hsplit as [Hv _].
    exists t0, t1, t2. repeat split; try assumption; lia.
  - intros [Haddr (smin & smax & id & Hv & H0 & H1 & Hmn & Hmx & Hurl)].
    assert (Hsplit : SplitN value ":" 3 = [smin; smax; id]).
    { apply SplitN3_spec. repeat split; [assumption| |];
        eapply Atoi_no_colon; eassumption. }
    rewrite (buildAsg_tokens _ _ _ _ _ Hsplit), H0.
    destruct (minSize asg <=? 0) eqn:E; [lia|].
    rewrite H1. destruct (maxSize asg <? minSize asg) eqn:E'; [lia|].
    rewrite Hurl. destruct asg as [addr [zone name] mn mx]. simpl in *.
    subst. reflexivity.
Qed.

(** C5.  [buildAsg] yields a group exactly for the strings of the form
    [min:max:id] whose two size fields are integers (as [strconv.Atoi]
    reads an [int]) with [1 <= min <= max] and whose identifier the url
    parser accepts; the group then has exactly these bounds.  Every other
    string gives an error, and no group. *)
Theorem buildAsg_accepts_exactly_well_formed_specs (here : nat) (value : string) :
  (forall asg,
      buildAsg ParseAsgUrl here value = Ok asg <->
      asgAddr asg = here
      /\ Spec.wellFormedSpec ParseAsgUrl value (minSize asg) (maxSize asg)
           (Zone (asgRef asg)) (Name (asgRef asg)))
  /\ ((exists asg, buildAsg ParseAsgUrl here value = Ok asg) <->
      (exists mn mx zone name,
          Spec.wellFormedSpec ParseAsgUrl value mn mx zone name))
  /\ ((~ exists mn mx zone name,
          Spec.wellFormedSpec ParseAsgUrl value mn mx zone name) ->
      exists e, buildAsg ParseAsgUrl here value = Err e).
Proof.
  split; [intros asg; apply buildAsg_Ok_iff|].
  assert (Hex : (exists asg, buildAsg ParseAsgUrl here value = Ok asg) <->
                (exists mn mx zone name,
                    Spec.wellFormedSpec ParseAsgUrl value mn mx zone name)).
  { split.
    - intros [asg H]. apply buildAsg_Ok_iff in H as [_ H]. eauto.
    - intros (mn & mx & zone & name & H).
      exists (mkAsg here (mkAwsRef zone name) mn mx).
      apply buildAsg_Ok_iff. split; [reflexivity|exact H]. }
  split; [exact Hex|].
  intros Hnot. destruct (buildAsg_total here value) as [Hok|Herr]; [|exact Herr].
  exfalso. apply Hnot, Hex, Hok.
Qed.

Example buildAsg_rejects :
  buildAsg ParseAsgUrl 0 "0:5:k8s-worker-asg" = Err MinSizeBelowOne
  /\ buildAsg ParseAsgUrl 0 "3:2:k8s-worker-asg" = Err MaxSizeBelowMin
  /\ buildAsg ParseAsgUrl 0 "a:2:k8s-worker-asg" = Err (MinSizeNotInteger "a")
  /\ buildAsg ParseAsgUrl 0 "1:b:k8s-worker-asg" = Err (MaxSizeNotInteger "b")
  /\ buildAsg ParseAsgUrl 0 "1:2" = Err (WrongNodesConfiguration "1:2").
Proof. repeat split; reflexivity. Qed.

End Parsers.

(** ** The manager: what its operations touch *)

Section ManagerFacts.
Import Aws Spec.

Context {Svc : Type} `{!AutoScalingAPI Svc}.

Lemma bind_unfold {A B} (c : M Svc A) (f : A -> M Svc B) (m : AwsManager Svc) :
  (c ≫= f) m =
    match c m with
    | (Ok a, m') => f a m'
    | (Err e, m') => (Err e, m')
    | (Panic p, m') => (Panic p, m')
    end.
Proof. reflexivity. Qed.

Lemma evolves_refl P m : evolves P m m.
Proof.
  split; [reflexivity|]. split; [left; reflexivity|].
  exists []. rewrite app_nil_r. split; reflexivity.
Qed.

Lemma evolves_trans P m1 m2 m3 :
  evolves P m1 m2 -> evolves P m2 m3 -> evolves P m1 m3.
Proof.
  intros (Ha & Hc & n1 & Hn1 & Hp1) (Ha' & Hc' & n2 & Hn2 & Hp2).
  split; [congruence|]. split.
  - destruct Hc' as [Hc'|Hc'].
    + rewrite Hc'. exact Hc.
    + right. rewrite <- Ha. exact Hc'.
  - exists (n1 ++ n2). split.
    + rewrite Hn2, Hn1, app_assoc. reflexivity.
    + rewrite forallb_app, Hp1, Hp2. reflexivity.
Qed.

Lemma evolves_weaken (P Q : Call -> bool) m m' :
  (forall c, P c = true -> Q c = true) -> evolves P m m' -> evolves Q m m'.
Proof.
  intros HPQ (Ha & Hc & n & Hn & Hp). split; [exact Ha|]. split; [exact Hc|].
  exists n. split; [exact Hn|].
  rewrite forallb_forall in *. intros c Hin. apply HPQ, Hp, Hin.
Qed.

Lemma Evolves_weaken (P Q : Call -> bool) {A} (c : M Svc A) :
  (forall x, P x = true -> Q x = true) -> Evolves P c -> Evolves Q c.
Proof. intros HPQ Hc m r m' Hrun. eapply evolves_weaken; eauto. Qed.

Lemma Evolves_ret P {A} (a : A) : Evolves P (mret a : M Svc A).
Proof. intros m r m' H. injection H as _ <-. apply evolves_refl. Qed.

Lemma Evolves_raise P {A} e : Evolves P (raise e : M Svc A).
Proof. intros m r m' H. injection H as _ <-. apply evolves_refl. Qed.

Lemma Evolves_liftPure P {A} (o : outcome error A) : Evolves P (liftPure o).
Proof. intros m r m' H. injection H as _ <-. apply evolves_refl. Qed.

Lemma Evolves_index0 P {A} (xs : list A) : Evolves P (index0 (Svc:=Svc) xs).
Proof.
  intros m r m' H. unfold index0 in H.
  destruct xs; injection H as _ <-; apply evolves_refl.
Qed.

Lemma Evolves_deref P {A} (p : option A) : Evolves P (deref (Svc:=Svc) p).
Proof.
  intros m r m' H. unfold deref in H.
  destruct p; injection H as _ <-; apply evolves_refl.
Qed.

Lemma Evolves_bind P {A B} (c : M Svc A) (f : A -> M Svc B) :
  Evolves P c -> (forall a, Evolves P (f a)) -> Evolves P (c ≫= f).
Proof.
  intros Hc Hf m r m' H. rewrite bind_unfold in H.
  destruct (c m) as [[a|e|p] m1] eqn:Hcm.
  - eapply evolves_trans; [eapply Hc; eassumption|eapply Hf; eassumption].
  - injection H as _ <-. eapply Hc; eassumption.
  - injection H as _ <-. eapply Hc; eassumption.
Qed.

Lemma Evolves_sdkCall (P : Call -> bool) {A} (f : Svc -> reply A * Svc)
    (c : reply A -> Call) :
  (forall r, P (c r) = true) -> Evolves P (sdkCall f c).
Proof.
  intros HP m r m' H. unfold sdkCall in H.
  destruct (f (service m)) as [rep s'].
  assert (Hm : m' = mkAwsManager (asgs m) (asgCache m) s' (calls m ++ [c rep]))
    by (destruct rep; injection H as _ <-; reflexivity).
  subst m'. split; [reflexivity|]. split; [left; reflexivity|].
  exists [c rep]. split; [reflexivity|]. simpl. rewrite HP. reflexivity.
Qed.

(** *** The refresh loops *)

Lemma Refreshing_pure {A} (c : M Svc A) :
  (forall m, exists r, c m = (r, m) /\ isErr r = false) -> Refreshing c.
Proof.
  intros Hc m r m' H. destruct (Hc m) as [r0 [Hr0 Hne]].
  rewrite Hr0 in H. injection H as <- <-.
  repeat split. exists []. rewrite app_nil_r. repeat split.
  destruct r0; try reflexivity. discriminate.
Qed.

Lemma Refreshing_ret {A} (a : A) : Refreshing (mret a : M Svc A).
Proof. apply Refreshing_pure. intros m. eexists; split; reflexivity. Qed.

Lemma Refreshing_index0 {A} (xs : list A) : Refreshing (index0 (Svc:=Svc) xs).
Proof.
  apply Refreshing_pure. intros m. unfold index0.
  destruct xs; eexists; split; reflexivity.
Qed.

Lemma Refreshing_deref {A} (p : option A) : Refreshing (deref (Svc:=Svc) p).
Proof.
  apply Refreshing_pure. intros m. unfold deref.
  destruct p; eexists; split; reflexivity.
Qed.

Lemma Refreshing_sdkCall {A} (f : Svc -> reply A * Svc) (c : reply A -> Call) :
  (forall r, isDescribe (c r) = true) ->
  (forall r, callRefused (c r) = refusal r) ->
  Refreshing (sdkCall f c).
Proof.
  intros Hd Hr m r m' H. unfold sdkCall in H.
  destruct (f (service m)) as [rep s'].
  assert (Hm : m' = mkAwsManager (asgs m) (asgCache m) s' (calls m ++ [c rep]))
    by (destruct rep; injection H as _ <-; reflexivity).
  subst m'. repeat split. exists [c rep]. split; [reflexivity|].
  split; [simpl; rewrite Hd; reflexivity|].
  destruct rep as [a|msg]; injection H as <-; simpl.
  - unfold allAccepted. simpl. rewrite Hr. reflexivity.
  - exists [], (c (Refused msg)), msg. rewrite Hr. repeat split.
Qed.

Lemma allAccepted_app l1 l2 :
  allAccepted (l1 ++ l2) = allAccepted l1 && allAccepted l2.
Proof. apply forallb_app. Qed.

Lemma Refreshing_bind {A B} (c : M Svc A) (f : A -> M Svc B) :
  Refreshing c -> (forall a, Refreshing (f a)) -> Refreshing (c ≫= f).
Proof.
  intros Hc Hf m r m' H. rewrite bind_unfold in H.
  destruct (c m) as [[a|e|p] m1] eqn:Hcm.
  - destruct (Hc _ _ _ Hcm) as (Ha1 & Hc1 & n1 & Hn1 & Hd1 & Hv1).
    destruct (Hf _ _ _ _ H) as (Ha2 & Hc2 & n2 & Hn2 & Hd2 & Hv2).
    split; [congruence|]. split; [congruence|].
    exists (n1 ++ n2). split; [rewrite Hn2, Hn1, app_assoc; reflexivity|].
    split; [rewrite forallb_app, Hd1, Hd2; reflexivity|].
    simpl in Hv1. destruct r as [b|e|p]; simpl in *.
    + rewrite allAccepted_app, Hv1, Hv2. reflexivity.
    + destruct Hv2 as (pre & c0 & msg & -> & Hpre & Hc0 & ->).
      exists (n1 ++ pre), c0, msg. rewrite app_assoc.
      repeat split; [|assumption].
      rewrite allAccepted_app, Hv1, Hpre. reflexivity.
    + rewrite allAccepted_app, Hv1, Hv2. reflexivity.
  - injection H as <- <-. exact (Hc _ _ _ Hcm).
  - injection H as <- <-. exact (Hc _ _ _ Hcm).
Qed.

Lemma Oblivious_pure {A} (c : M Svc A) :
  (exists r, forall m, c m = (r, m)) -> Oblivious c.
Proof. intros [r Hr] k m. rewrite !Hr. reflexivity. Qed.

Lemma Oblivious_sdkCall {A} (f : Svc -> reply A * Svc) (c : reply A -> Call) :
  Oblivious (sdkCall f c).
Proof.
  intros k m. unfold sdkCall, withCache. simpl.
  destruct (f (service m)) as [[a|msg] s']; reflexivity.
Qed.

Lemma Oblivious_bind {A B} (c : M Svc A) (f : A -> M Svc B) :
  Oblivious c -> (forall a, Oblivious (f a)) -> Oblivious (c ≫= f).
Proof.
  intros Hc Hf k m. rewrite !bind_unfold, Hc.
  destruct (c m) as [[a|e|p] m1]; simpl; [apply Hf|reflexivity|reflexivity].
Qed.

Lemma Oblivious_index0 {A} (xs : list A) : Oblivious (index0 (Svc:=Svc) xs).
Proof. apply Oblivious_pure. unfold index0. destruct xs; eexists; reflexivity. Qed.

Lemma Oblivious_deref {A} (p : option A) : Oblivious (deref (Svc:=Svc) p).
Proof. apply Oblivious_pure. unfold deref. destruct p; eexists; reflexivity. Qed.

Ltac refresh_steps :=
  repeat first
    [ apply Refreshing_bind; [|intros ?]
    | apply Refreshing_ret
    | apply Refreshing_index0
    | apply Refreshing_deref
    | apply Refreshing_sdkCall; [intros ?; reflexivity|intros ?; reflexivity]
    | apply Oblivious_bind; [|intros ?]
    | apply Oblivious_index0
    | apply Oblivious_deref
    | apply Oblivious_sdkCall
    | (apply Oblivious_pure; eexists; reflexivity) ].

Lemma regenerateInstances_Refreshing asgConfig instances newCache :
  Refreshing (regenerateInstances asgConfig instances newCache).
Proof.
  revert newCache. induction instances as [|i rest IH]; intros newCache;
    cbn [regenerateInstances]; refresh_steps. apply IH.
Qed.

Lemma regenerateInstances_Oblivious asgConfig instances newCache :
  Oblivious (regenerateInstances asgConfig instances newCache).
Proof.
  revert newCache. induction instances as [|i rest IH]; intros newCache;
    cbn [regenerateInstances]; refresh_steps. apply IH.
Qed.

Lemma regenerateGroups_Refreshing registered newCache :
  Refreshing (regenerateGroups registered newCache).
Proof.
  revert newCache. induction registered as [|a rest IH]; intros newCache;
    cbn [regenerateGroups]; refresh_steps.
  - apply regenerateInstances_Refreshing.
  - apply IH.
Qed.

Lemma regenerateGroups_Oblivious registered newCache :
  Oblivious (regenerateGroups registered newCache).
Proof.
  revert newCache. induction registered as [|a rest IH]; intros newCache;
    cbn [regenerateGroups]; refresh_steps.
  - apply regenerateInstances_Oblivious.
  - apply IH.
Qed.

(** *** [regenerateCache] and the lookup *)

Lemma regenerateCache_run m r m' :
  regenerateCache m = (r, m') ->
  asgs m' = asgs m
  /\ (exists new, calls m' = calls m ++ new
                  /\ forallb isDescribe new = true /\ verdict r new)
  /\ match r with
     | Ok _ =>
         exists m1, regenerateGroups (asgs m) ∅ m = (Ok (asgCache m'), m1)
                    /\ m' = withCache (asgCache m') m1
     | _ => asgCache m' = asgCache m
     end.
Proof.
  unfold regenerateCache. intros H.
  destruct (regenerateGroups (asgs m) ∅ m) as [[nc|e|p] m1] eqn:Hg;
    destruct (regenerateGroups_Refreshing _ _ _ _ _ Hg)
      as (Ha & Hc & new & Hn & Hd & Hv);
    injection H as <- <-; simpl.
  - split; [exact Ha|]. split; [exists new; auto|].
    exists m1. split; reflexivity.
  - split; [exact Ha|]. split; [exists new; auto|exact Hc].
  - split; [exact Ha|]. split; [exists new; auto|exact Hc].
Qed.

Lemma isSnapshot_now m m' :
  regenerateCache m = (Ok tt, m') -> isSnapshot (asgs m) (asgCache m').
Proof. intros H. exists m, m'. split; [reflexivity|]. split; [exact H|reflexivity]. Qed.

Lemma isSnapshot_later l l' c :
  l `prefix_of` l' -> isSnapshot (Svc:=Svc) l c -> isSnapshot l' c.
Proof.
  intros Hl (m0 & m1 & Hp & Hr & Hc). exists m0, m1.
  split; [etrans; eassumption|]. split; assumption.
Qed.

Lemma regenerateCache_Evolves : Evolves isDescribe regenerateCache.
Proof.
  intros m r m' H. destruct (regenerateCache_run _ _ _ H) as (Ha & Hn & Hc).
  split; [exact Ha|]. split.
  - destruct r as [[]| |]; [right; eapply isSnapshot_now; eassumption| |];
      left; exact Hc.
  - destruct Hn as (new & Hn & Hd & _). exists new. auto.
Qed.

(** A refresh that succeeds builds the same cache whatever the cache was. *)
Lemma regenerateCache_fresh k m m' :
  regenerateCache m = (Ok tt, m') ->
  regenerateCache (withCache k m) = (Ok tt, m').
Proof.
  unfold regenerateCache. simpl. rewrite regenerateGroups_Oblivious.
  destruct (regenerateGroups (asgs m) ∅ m) as [[nc|e|p] m1]; simpl;
    intros H; try discriminate. exact H.
Qed.

Lemma scanAsgs_cases instance registered m :
  scanAsgs instance registered m =
    if existsb (fun asg => String.eqb (Zone (asgRef (config asg))) (Zone instance))
               registered
    then refreshAndFind instance m
    else (Ok None, m).
Proof.
  induction registered as [|a rest IH]; [reflexivity|].
  cbn [scanAsgs existsb].
  destruct (String.eqb (Zone (asgRef (config a))) (Zone instance));
    [reflexivity|exact IH].
Qed.

Lemma GetAsgForInstance_cases instance m :
  GetAsgForInstance instance m =
    match asgCache m !! instance with
    | Some found => (Ok (Some found), m)
    | None =>
        if zoneConfigured instance m then refreshAndFind instance m
        else (Ok None, m)
    end.
Proof.
  unfold GetAsgForInstance, zoneConfigured.
  destruct (asgCache m !! instance); [reflexivity|apply scanAsgs_cases].
Qed.

Lemma GetAsgForInstance_hit instance m g :
  asgCache m !! instance = Some g ->
  GetAsgForInstance instance m = (Ok (Some g), m).
Proof. intros H. rewrite GetAsgForInstance_cases, H. reflexivity. Qed.

Lemma refreshAndFind_Evolves instance : Evolves isDescribe (refreshAndFind instance).
Proof.
  intros m r m' H. unfold refreshAndFind in H.
  destruct (regenerateCache m) as [[[]|e|p] m1] eqn:Hr;
    pose proof (regenerateCache_Evolves _ _ _ Hr) as Hev.
  - destruct (asgCache m1 !! instance); injection H as _ <-; exact Hev.
  - injection H as _ <-; exact Hev.
  - injection H as _ <-; exact Hev.
Qed.

Lemma GetAsgForInstance_Evolves instance :
  Evolves isDescribe (GetAsgForInstance instance).
Proof.
  intros m r m' H. rewrite GetAsgForInstance_cases in H.
  destruct (asgCache m !! instance).
  - injection H as _ <-. apply evolves_refl.
  - destruct (zoneConfigured instance m).
    + eapply refreshAndFind_Evolves; eassumption.
    + injection H as _ <-. apply evolves_refl.
Qed.

(** A lookup that returns a group leaves it in the cache. *)
Lemma GetAsgForInstance_found instance m g m' :
  GetAsgForInstance instance m = (Ok (Some g), m') ->
  asgCache m' !! instance = Some g.
Proof.
  rewrite GetAsgForInstance_cases.
  destruct (asgCache m !! instance) as [g0|] eqn:Hhit.
  - intros H. injection H as <- <-. exact Hhit.
  - destruct (zoneConfigured instance m); [|discriminate].
    unfold refreshAndFind.
    destruct (regenerateCache m) as [[[]|e|p] m1]; try discriminate.
    destruct (asgCache m1 !! instance) as [g1|] eqn:Hfound; [|discriminate].
    intros H. injection H as <- <-. exact Hfound.
Qed.

(** *** Every operation keeps the registered groups and a whole cache *)

Variable GenerateAsgUrl : string -> string -> string.

Lemma Evolves_any (P : Call -> bool) {A} (c : M Svc A) :
  Evolves P c -> Evolves anyCall c.
Proof. apply Evolves_weaken. reflexivity. Qed.

Lemma regenerateCacheIgnoreError_run m :
  snd (regenerateCacheIgnoreError m) = snd (regenerateCache m).
Proof.
  unfold regenerateCacheIgnoreError.
  destruct (regenerateCache m) as [[[]|e|p] m1]; reflexivity.
Qed.

Lemma regenerateCacheIgnoreError_Evolves :
  Evolves isDescribe regenerateCacheIgnoreError.
Proof.
  intros m r m' H.
  assert (Hm : m' = snd (regenerateCache m))
    by (rewrite <- regenerateCacheIgnoreError_run, H; reflexivity).
  destruct (regenerateCache m) as [r0 m0] eqn:Hr. simpl in Hm. subst m'.
  eapply regenerateCache_Evolves; eassumption.
Qed.

Lemma GetAsgSize_Evolves asg : Evolves isDescribe (GetAsgSize asg).
Proof.
  unfold GetAsgSize.
  repeat (apply Evolves_bind; [|intros ?]);
    first [apply Evolves_sdkCall; reflexivity
          |apply Evolves_index0|apply Evolves_deref].
Qed.

Lemma SetAsgSize_Evolves asg size : Evolves anyCall (SetAsgSize asg size).
Proof. apply Evolves_sdkCall. reflexivity. Qed.

Lemma checkCommonAsg_Evolves commonAsg instances :
  Evolves isDescribe (checkCommonAsg commonAsg instances).
Proof.
  induction instances as [|i rest IH]; cbn [checkCommonAsg].
  - apply Evolves_ret.
  - apply Evolves_bind; [apply GetAsgForInstance_Evolves|]. intros asg.
    destruct (samePtr asg commonAsg); [exact IH|apply Evolves_raise].
Qed.

Lemma terminateEach_Evolves instances :
  Evolves isTerminate (terminateEach instances).
Proof.
  induction instances as [|i rest IH]; cbn [terminateEach].
  - apply Evolves_ret.
  - apply Evolves_bind; [apply Evolves_sdkCall; reflexivity|]. intros _. exact IH.
Qed.

Lemma DeleteInstances_Evolves instances :
  Evolves anyCall (DeleteInstances instances).
Proof.
  unfold DeleteInstances. destruct instances as [|first rest].
  - apply Evolves_ret.
  - apply Evolves_bind;
      [eapply Evolves_any, GetAsgForInstance_Evolves|intros commonAsg].
    apply Evolves_bind; [eapply Evolves_any, checkCommonAsg_Evolves|intros _].
    eapply Evolves_any, terminateEach_Evolves.
Qed.

Lemma IncreaseSize_Evolves asg delta : Evolves anyCall (IncreaseSize asg delta).
Proof.
  unfold IncreaseSize. destruct (delta <=? 0); [apply Evolves_raise|].
  apply Evolves_bind; [eapply Evolves_any, GetAsgSize_Evolves|intros size].
  destruct (GoInt.add size delta >? MaxSize asg);
    [apply Evolves_raise|apply SetAsgSize_Evolves].
Qed.

Lemma Belongs_Evolves asg node :
  Evolves isDescribe (Belongs GenerateAsgUrl asg node).
Proof.
  unfold Belongs.
  apply Evolves_bind; [apply Evolves_liftPure|intros ref].
  apply Evolves_bind; [apply GetAsgForInstance_Evolves|intros [target|]].
  - destruct (negb _); apply Evolves_ret.
  - apply Evolves_raise.
Qed.

Lemma collectRefs_Evolves asg nodes refs :
  Evolves isDescribe (collectRefs GenerateAsgUrl asg nodes refs).
Proof.
  revert refs. induction nodes as [|node rest IH]; intros refs;
    cbn [collectRefs].
  - apply Evolves_ret.
  - apply Evolves_bind; [apply Belongs_Evolves|intros belongs].
    destruct belongs; [apply Evolves_raise|].
    apply Evolves_bind; [apply Evolves_liftPure|intros awsref]. apply IH.
Qed.

Lemma DeleteNodes_Evolves asg nodes :
  Evolves anyCall (DeleteNodes GenerateAsgUrl asg nodes).
Proof.
  unfold DeleteNodes.
  apply Evolves_bind; [eapply Evolves_any, GetAsgSize_Evolves|intros size].
  destruct (size <=? MinSize asg); [apply Evolves_raise|].
  apply Evolves_bind; [eapply Evolves_any, collectRefs_Evolves|intros refs].
  apply DeleteInstances_Evolves.
Qed.

Lemma Evolves_snd P {A} (c : M Svc A) m : Evolves P c -> evolves P m (snd (c m)).
Proof. intros Hc. destruct (c m) as [r m'] eqn:H. eapply Hc. exact H. Qed.

Lemma runOp_whole op m :
  isSnapshot (asgs m) (asgCache m) ->
  isSnapshot (asgs (runOp GenerateAsgUrl op m))
             (asgCache (runOp GenerateAsgUrl op m)).
Proof.
  intros Hinv.
  assert (Hev : forall m', evolves anyCall m m' ->
                           isSnapshot (asgs m') (asgCache m')).
  { intros m' (Ha & [Hc|Hc] & _); rewrite Ha; [rewrite Hc|]; assumption. }
  destruct op; cbn [runOp];
    [simpl; eapply isSnapshot_later; [|exact Hinv];
     apply prefix_app_r; reflexivity|..];
    apply Hev, Evolves_snd.
  - eapply Evolves_any, GetAsgSize_Evolves.
  - apply SetAsgSize_Evolves.
  - apply DeleteInstances_Evolves.
  - eapply Evolves_any, GetAsgForInstance_Evolves.
  - eapply Evolves_any, regenerateCacheIgnoreError_Evolves.
  - apply IncreaseSize_Evolves.
  - eapply Evolves_any, Belongs_Evolves.
  - apply DeleteNodes_Evolves.
Qed.

Lemma reachable_whole svc0 m :
  reachable GenerateAsgUrl svc0 m -> isSnapshot (asgs m) (asgCache m).
Proof.
  induction 1 as [|m op _ IH|m s log _ IH].
  - exists (CreateAwsManager svc0), (CreateAwsManager svc0).
    split; [reflexivity|]. split; reflexivity.
  - apply runOp_whole, IH.
  - exact IH.
Qed.

(** C4.  A refresh of the membership cache returns an error as soon as
    one listing or describing call is refused, and every refresh that does
    not succeed leaves the cache map exactly as it was.  A refresh that
    succeeds replaces the cache by the map it has built from the empty map
    over all registered groups, whatever the cache held before.  The
    background refresh is this refresh with its error dropped, and a
    lookup that fails on its refresh leaves the cache alone.  So in every
    state a manager can reach, the cache is the map of a wholly
    successful refresh, never a partly rebuilt one. *)
Theorem cache_refresh_is_all_or_nothing :
  (forall (m : AwsManager Svc) r m',
      regenerateCache m = (r, m') ->
      (forall new c, callsSince m m' new -> c ∈ new -> callRefused c <> None ->
                     exists msg, r = Err (BackendError msg))
      /\ (r <> Ok tt -> asgCache m' = asgCache m)
      /\ (r = Ok tt ->
          (exists m1, regenerateGroups (asgs m) ∅ m = (Ok (asgCache m'), m1))
          /\ forall k, regenerateCache (withCache k m) = (Ok tt, m')))
  /\ (forall m : AwsManager Svc,
        snd (regenerateCacheIgnoreError m) = snd (regenerateCache m))
  /\ (forall instance (m : AwsManager Svc) e m',
        GetAsgForInstance instance m = (Err (LookupFailed instance e), m') ->
        asgCache m' = asgCache m)
  /\ (forall svc0 m,
        reachable GenerateAsgUrl svc0 m -> isSnapshot (asgs m) (asgCache m)).
Proof.
  split; [|split; [|split]].
  - intros m r m' H.
    destruct (regenerateCache_run _ _ _ H) as (Ha & (new & Hn & Hd & Hv) & Hc).
    split; [|split].
    + intros new' c Hnew' Hin Href. unfold callsSince in Hnew'.
      assert (new' = new) by (apply (app_inv_head (calls m)); congruence). subst new'.
      destruct r as [u|e|p]; simpl in Hv.
      * exfalso. unfold allAccepted in Hv. rewrite forallb_forall in Hv.
        apply list_elem_of_In in Hin. specialize (Hv _ Hin).
        destruct (callRefused c); [discriminate|congruence].
      * destruct Hv as (_ & _ & msg & _ & _ & _ & ->). eauto.
      * exfalso. unfold allAccepted in Hv. rewrite forallb_forall in Hv.
        apply list_elem_of_In in Hin. specialize (Hv _ Hin).
        destruct (callRefused c); [discriminate|congruence].
    + intros Hne. destruct r as [[]|e|p]; [congruence|exact Hc|exact Hc].
    + intros ->. split.
      * destruct Hc as (m1 & Hg & _). eauto.
      * intros k. apply regenerateCache_fresh, H.
  - apply regenerateCacheIgnoreError_run.
  - intros instance m e m' H. rewrite GetAsgForInstance_cases in H.
    destruct (asgCache m !! instance); [discriminate|].
    destruct (zoneConfigured instance m); [|discriminate].
    unfold refreshAndFind in H.
    destruct (regenerateCache m) as [[[]|e0|p] m1] eqn:Hr.
    + destruct (asgCache m1 !! instance); discriminate.
    + injection H as _ <-.
      destruct (regenerateCache_run _ _ _ Hr) as (_ & _ & Hc). exact Hc.
    + discriminate.
  - apply reachable_whole.
Qed.

(** *** Lookups *)

(** C3, as the code has it.  The lookup answers "no group" without an
    error exactly when the reference is not cached and no registered group
    lies in its zone.  When a registered group does lie in its zone, the
    lookup refreshes the cache: if the refresh succeeds and the reference
    is still not cached, the lookup returns the error "does not belong to
    any configured ASG"; if the refresh fails, it returns the error "Error
    while looking for ASG" around the cause, and the cache is as before.
    The two errors differ. *)
Theorem GetAsgForInstance_miss_in_configured_zone
    (instance : AwsRef) (m : AwsManager Svc) :
  (fst (GetAsgForInstance instance m) = Ok None <->
   asgCache m !! instance = None /\ zoneConfigured instance m = false)
  /\ (asgCache m !! instance = None -> zoneConfigured instance m = true ->
      (forall m', regenerateCache m = (Ok tt, m') ->
                  asgCache m' !! instance = None ->
                  GetAsgForInstance instance m
                  = (Err (NotInAnyConfiguredAsg instance), m'))
      /\ (forall e m', regenerateCache m = (Err e, m') ->
                       GetAsgForInstance instance m
                       = (Err (LookupFailed instance e), m')
                       /\ asgCache m' = asgCache m)
      /\ (forall e, LookupFailed instance e <> NotInAnyConfiguredAsg instance)).
Proof.
  split.
  - rewrite GetAsgForInstance_cases.
    destruct (asgCache m !! instance) as [g|] eqn:Hhit.
    + simpl. split; [discriminate|intros [? _]; discriminate].
    + destruct (zoneConfigured instance m) eqn:Hz.
      * unfold refreshAndFind.
        destruct (regenerateCache m) as [[[]|e|p] m1]; simpl;
          try (split; [discriminate|intros [_ ?]; discriminate]).
        destruct (asgCache m1 !! instance); simpl;
          split; try discriminate; intros [_ ?]; discriminate.
      * simpl. split; auto.
  - intros Hmiss Hzone. split; [|split].
    + intros m' Hr Hstill.
      rewrite GetAsgForInstance_cases, Hmiss, Hzone.
      unfold refreshAndFind. rewrite Hr, Hstill. reflexivity.
    + intros e m' Hr.
      rewrite GetAsgForInstance_cases, Hmiss, Hzone.
      unfold refreshAndFind. rewrite Hr. split; [reflexivity|].
      destruct (regenerateCache_run _ _ _ Hr) as (_ & _ & Hc). exact Hc.
    + intros e. discriminate.
Qed.

(** *** Resizing *)

Lemma SetAsgSize_run asg size (m : AwsManager Svc) :
  exists rep s',
    SetDesiredCapacity (Name (asgRef asg)) size (service m) = (rep, s')
    /\ SetAsgSize asg size m =
        (match rep with
         | Reply _ => Ok tt
         | Refused msg => Err (BackendError msg)
         end,
         mkAwsManager (asgs m) (asgCache m) s'
           (calls m ++ [CallSetDesiredCapacity (Name (asgRef asg)) size
                                               (refusal rep)])).
Proof.
  unfold SetAsgSize, sdkCall.
  destruct (SetDesiredCapacity (Name (asgRef asg)) size (service m))
    as [rep s'].
  exists rep, s'. split; [reflexivity|]. destruct rep as [[]|msg]; reflexivity.
Qed.

(** What [IncreaseSize] does.  It refuses every [delta <= 0] before any
    call to the backend.  For [delta > 0] and a current size that was
    read, it compares [target], the sum as Go adds it on [int], with
    [MaxSize()]: at or below, it asks the backend for the size [target]
    and returns what the backend answers to that one call; above, it
    returns an error and asks for no resize.  [target] is the
    mathematical sum whenever that fits an [int]. *)
Lemma IncreaseSize_within_max (asg : Asg) (delta : Z) (m : AwsManager Svc) :
  (delta <= 0 -> IncreaseSize asg delta m = (Err SizeIncreaseMustBePositive, m))
  /\ (0 < delta ->
      forall size m1,
        GetAsgSize asg m = (Ok size, m1) ->
        let target := GoInt.add size delta in
        (target <= MaxSize asg ->
         exists rep s',
           SetDesiredCapacity (Name (asgRef asg)) target (service m1) = (rep, s')
           /\ IncreaseSize asg delta m =
               (match rep with
                | Reply _ => Ok tt
                | Refused msg => Err (BackendError msg)
                end,
                mkAwsManager (asgs m1) (asgCache m1) s'
                  (calls m1 ++ [CallSetDesiredCapacity (Name (asgRef asg))
                                                      target (refusal rep)])))
        /\ (MaxSize asg < target ->
            IncreaseSize asg delta m
            = (Err (SizeIncreaseTooLarge target (MaxSize asg)), m1))
        /\ (forall m', IncreaseSize asg delta m = (Ok tt, m') ->
                       target <= MaxSize asg
                       /\ exists s',
                           m' = mkAwsManager (asgs m1) (asgCache m1) s'
                                  (calls m1 ++ [CallSetDesiredCapacity
                                                  (Name (asgRef asg)) target None]))
        /\ (GoInt.inRange (size + delta) -> target = size + delta)).
Proof.
  split.
  - intros Hd. unfold IncreaseSize.
    destruct (delta <=? 0) eqn:E; [reflexivity|lia].
  - intros Hd size m1 Hsize target.
    assert (Hrun : IncreaseSize asg delta m =
                   if target >? MaxSize asg
                   then (Err (SizeIncreaseTooLarge target (MaxSize asg)), m1)
                   else SetAsgSize asg target m1).
    { unfold IncreaseSize. destruct (delta <=? 0) eqn:E; [lia|].
      rewrite bind_unfold, Hsize. fold target.
      destruct (target >? MaxSize asg); reflexivity. }
    split; [|split; [|split]].
    + intros Hle. rewrite Hrun.
      destruct (target >? MaxSize asg) eqn:E; [lia|]. apply SetAsgSize_run.
    + intros Hgt. rewrite Hrun.
      destruct (target >? MaxSize asg) eqn:E; [reflexivity|lia].
    + intros m' Hok. rewrite Hrun in Hok.
      destruct (target >? MaxSize asg) eqn:E; [discriminate|].
      split; [lia|].
      destruct (SetAsgSize_run asg target m1) as (rep & s' & _ & Hset).
      rewrite Hset in Hok. destruct rep as [[]|msg]; [|discriminate].
      injection Hok as <-. exists s'. reflexivity.
    + apply add_exact.
Qed.

(** When the sum of the size read and a positive [delta] is beyond the
    largest [int], Go's sum is negative: it passes the comparison with
    any maximum size from [-1] on, and is handed to the backend. *)
Lemma IncreaseSize_overflow (asg : Asg) (delta size : Z)
    (m m1 : AwsManager Svc) :
  GetAsgSize asg m = (Ok size, m1) ->
  GoInt.inRange size -> GoInt.inRange delta ->
  GoInt.maxInt < size + delta ->
  -1 <= MaxSize asg ->
  size + delta - 2 ^ 64 < 0
  /\ IncreaseSize asg delta m = SetAsgSize asg (size + delta - 2 ^ 64) m1.
Proof.
  unfold GoInt.inRange, GoInt.minInt, GoInt.maxInt.
  intros Hsize [Hs1 Hs2] [Hd1 Hd2] Hover Hmax.
  assert (Hwrap : GoInt.add size delta = size + delta - 2 ^ 64).
  { unfold GoInt.add, GoInt.wrap.
    replace (size + delta + 2 ^ 63)
      with (size + delta - 2 ^ 63 + 1 * 2 ^ 64) by lia.
    rewrite Z.mod_add by lia. rewrite Z.mod_small; lia. }
  split; [lia|].
  unfold IncreaseSize. destruct (delta <=? 0) eqn:E; [lia|].
  rewrite bind_unfold, Hsize, Hwrap.
  destruct (size + delta - 2 ^ 64 >? MaxSize asg) eqn:E'; [lia|reflexivity].
Qed.

(** *** Deleting instances *)

Lemma terminateEach_run instances (m : AwsManager Svc) :
  exists r m' done,
    terminateEach instances m = (r, m')
    /\ asgs m' = asgs m /\ asgCache m' = asgCache m
    /\ calls m' = calls m ++ done
    /\ (length done <= length instances)%nat
    /\ map terminatedId done
       = map (fun ref => Some (Name ref)) (take (length done) instances)
    /\ terminationVerdict r done instances.
Proof.
  revert m. induction instances as [|i rest IH]; intros m.
  - exists (Ok tt), m, []. simpl. rewrite app_nil_r. repeat split; lia.
  - cbn [terminateEach]. rewrite bind_unfold. unfold sdkCall.
    destruct (TerminateInstanceInAutoScalingGroup (Name i) (service m))
      as [[[]|msg] s'].
    + destruct (IH (mkAwsManager (asgs m) (asgCache m) s'
                      (calls m ++ [CallTerminate (Name i) None])))
        as (r & m' & done & Hrun & Ha & Hc & Hn & Hlen & Hids & Hv).
      exists r, m', (CallTerminate (Name i) None :: done). simpl in *.
      split; [exact Hrun|]. split; [exact Ha|]. split; [exact Hc|].
      split; [rewrite Hn, <- app_assoc; reflexivity|].
      split; [lia|]. split; [rewrite Hids; reflexivity|].
      destruct r as [u|e|p]; simpl in *.
      * destruct Hv as [Hl Hacc]. split; [lia|exact Hacc].
      * destruct Hv as (pre & id & msg & -> & Hpre & ->).
        exists (CallTerminate (Name i) None :: pre), id, msg.
        repeat split. exact Hpre.
      * exact Hv.
    + exists (Err (BackendError msg)),
        (mkAwsManager (asgs m) (asgCache m) s'
           (calls m ++ [CallTerminate (Name i) (Some msg)])),
        [CallTerminate (Name i) (Some msg)].
      simpl. repeat split; try lia.
      exists [], (Name i), msg. repeat split.
Qed.

Lemma samePtr_refl g : samePtr (Some g) (Some g) = true.
Proof. simpl. apply Nat.eqb_refl. Qed.

Lemma checkCommonAsg_resolved g instances (m m1 : AwsManager Svc) :
  resolveInTurn g instances m m1 ->
  checkCommonAsg (Some g) instances m = (Ok tt, m1).
Proof.
  induction 1 as [m|r rest m m' m'' Hget _ IH]; [reflexivity|].
  cbn [checkCommonAsg]. rewrite bind_unfold, Hget, samePtr_refl. exact IH.
Qed.

Lemma DeleteInstances_resolved g instances (m m1 : AwsManager Svc) :
  instances <> [] ->
  resolveInTurn g instances m m1 ->
  DeleteInstances instances m = terminateEach instances m1.
Proof.
  intros Hne Hres. destruct Hres as [m|r rest m m' m'' Hget Hrest];
    [congruence|].
  unfold DeleteInstances. rewrite bind_unfold, Hget.
  rewrite bind_unfold. cbn [checkCommonAsg]. rewrite bind_unfold.
  rewrite (GetAsgForInstance_hit _ _ _ (GetAsgForInstance_found _ _ _ _ Hget)).
  rewrite samePtr_refl, (checkCommonAsg_resolved _ _ _ _ Hrest). reflexivity.
Qed.

(** C10.  An empty list succeeds at once and leaves the manager as it was:
    no call, no lookup.  For a list whose references all resolve, looked
    up in turn, to one group, [DeleteInstances] then issues termination
    calls for a prefix of the list, one per reference and in list order.
    It returns nil when every reference was terminated, and otherwise the
    error of the first refused call, after which it stops: the references
    before the refused one have been terminated already. *)
Theorem DeleteInstances_terminates_in_order
    (instances : list AwsRef) (m : AwsManager Svc) :
  DeleteInstances [] m = (Ok tt, m)
  /\ (forall g m1,
        instances <> [] ->
        resolveInTurn g instances m m1 ->
        exists r m' done,
          DeleteInstances instances m = (r, m')
          /\ asgs m' = asgs m1 /\ asgCache m' = asgCache m1
          /\ calls m' = calls m1 ++ done
          /\ (length done <= length instances)%nat
          /\ map terminatedId done
             = map (fun ref => Some (Name ref)) (take (length done) instances)
          /\ terminationVerdict r done instances).
Proof.
  split; [reflexivity|].
  intros g m1 Hne Hres. rewrite (DeleteInstances_resolved _ _ _ _ Hne Hres).
  apply terminateEach_run.
Qed.

(** *** No panic on complete replies *)

Lemma NoPanic_bind {A B} (c : M Svc A) (f : A -> M Svc B) :
  NoPanic c -> (forall a, NoPanic (f a)) -> NoPanic (c ≫= f).
Proof.
  intros Hc Hf m r m' H p. rewrite bind_unfold in H.
  destruct (c m) as [[a|e|q] m1] eqn:Hcm.
  - eapply Hf; eassumption.
  - injection H as <- _. discriminate.
  - exfalso. eapply Hc; [eassumption|reflexivity].
Qed.

Lemma regenerateInstances_no_panic asgConfig instances newCache :
  SdkContract ->
  forallb completeInstance instances = true ->
  NoPanic (regenerateInstances asgConfig instances newCache).
Proof.
  intros [_ Hsdk]. revert newCache.
  induction instances as [|i rest IH]; intros newCache Hall m r m' H p.
  - injection H as <- _. discriminate.
  - simpl in Hall. apply andb_prop in Hall as [Hi Hrest].
    destruct i as [[[id|]]|]; try discriminate.
    cbn [regenerateInstances] in H.
    rewrite bind_unfold in H. cbn [deref] in H.
    rewrite bind_unfold in H. cbn [deref InstanceId] in H.
    rewrite bind_unfold in H. unfold sdkCall in H.
    destruct (DescribeAutoScalingInstances id (service m)) as [[l|msg] s'] eqn:Hd.
    + apply Hsdk in Hd. destruct l as [|[[[zone|]]|] l']; try discriminate.
      rewrite bind_unfold in H. cbn [index0] in H.
      rewrite bind_unfold in H. cbn [deref] in H.
      rewrite bind_unfold in H. cbn [deref AvailabilityZone] in H.
      eapply IH; eassumption.
    + injection H as <- _. discriminate.
Qed.

Lemma regenerateGroups_no_panic registered newCache :
  SdkContract -> NoPanic (regenerateGroups registered newCache).
Proof.
  intros Hsdk. revert newCache.
  induction registered as [|a rest IH]; intros newCache m r m' H p.
  - injection H as <- _. discriminate.
  - cbn [regenerateGroups] in H. rewrite bind_unfold in H. unfold sdkCall in H.
    destruct (DescribeAutoScalingGroups (basename a) (service m))
      as [[l|msg] s'] eqn:Hd.
    + apply (proj1 Hsdk) in Hd. destruct l as [|[g|] l']; try discriminate.
      simpl in Hd. destruct (DesiredCapacity g); [|discriminate].
      rewrite bind_unfold in H. cbn [index0] in H.
      rewrite bind_unfold in H. cbn [deref] in H.
      revert H p. apply NoPanic_bind.
      * apply regenerateInstances_no_panic; assumption.
      * intros nc. apply IH.
    + injection H as <- _. discriminate.
Qed.

Lemma GetAsgForInstance_no_panic instance :
  SdkContract -> NoPanic (GetAsgForInstance instance).
Proof.
  intros Hsdk m r m' H p. rewrite GetAsgForInstance_cases in H.
  destruct (asgCache m !! instance); [injection H as <- _; discriminate|].
  destruct (zoneConfigured instance m); [|injection H as <- _; discriminate].
  unfold refreshAndFind, regenerateCache in H.
  destruct (regenerateGroups (asgs m) ∅ m) as [[nc|e|q] m1] eqn:Hg.
  - simpl in H. destruct (nc !! instance); injection H as <- _; discriminate.
  - injection H as <- _. discriminate.
  - exfalso. eapply regenerateGroups_no_panic; [exact Hsdk|exact Hg|reflexivity].
Qed.

Lemma checkCommonAsg_no_panic commonAsg instances :
  SdkContract -> NoPanic (checkCommonAsg commonAsg instances).
Proof.
  intros Hsdk. induction instances as [|i rest IH]; cbn [checkCommonAsg].
  - intros m r m' H p. injection H as <- _. discriminate.
  - apply NoPanic_bind; [apply GetAsgForInstance_no_panic, Hsdk|].
    intros asg. destruct (samePtr asg commonAsg); [exact IH|].
    intros m r m' H p. injection H as <- _. discriminate.
Qed.

(** *** Mixed groups *)






Lemma DeleteInstances_validate_then_terminate instances (m : AwsManager Svc) :
  DeleteInstances instances m =
    match validateCommonAsg instances m with
    | (Ok _, m') => terminateEach instances m'
    | (Err e, m') => (Err e, m')
    | (Panic p, m') => (Panic p, m')
    end.
Proof.
  destruct instances as [|first rest]; [reflexivity|].
  unfold DeleteInstances, validateCommonAsg. rewrite !bind_unfold.
  destruct (GetAsgForInstance first m) as [[common|e|p] m1]; reflexivity.
Qed.

Lemma validateCommonAsg_Evolves instances :
  Evolves isDescribe (validateCommonAsg instances).
Proof.
  destruct instances as [|first rest]; [apply Evolves_ret|].
  apply Evolves_bind; [apply GetAsgForInstance_Evolves|].
  intros common. apply checkCommonAsg_Evolves.
Qed.






Lemma resolveInTurn_cached g refs (m : AwsManager Svc) :
  (forall x, x ∈ refs -> asgCache m !! x = Some g) ->
  resolveInTurn g refs m m.
Proof.
  induction refs as [|r rest IH]; intros Hall; [constructor|].
  econstructor.
  - apply GetAsgForInstance_hit, Hall. left.
  - apply IH. intros x Hx. apply Hall. right. exact Hx.
Qed.

(** *** [DeleteNodes] *)

(** A node of the group itself stops [DeleteNodes]. *)
Lemma collectRefs_own_member asg node rest refs ref (m : AwsManager Svc) :
  AwsRefFromProviderId (ProviderID node) = Ok ref ->
  asgCache m !! ref = Some asg ->
  collectRefs GenerateAsgUrl asg (node :: rest) refs m
  = (Err (BelongsToDifferentAsg (nodeName node) (Id GenerateAsgUrl asg)), m).
Proof.
  intros Href Hhit. cbn [collectRefs]. rewrite bind_unfold.
  unfold Belongs. rewrite bind_unfold. unfold liftPure. rewrite Href.
  rewrite bind_unfold, (GetAsgForInstance_hit _ _ _ Hhit).
  rewrite String.eqb_refl. reflexivity.
Qed.

(** A node of another group passes the test of [DeleteNodes]. *)
Lemma collectRefs_foreign_member asg other node rest refs ref
    (m : AwsManager Svc) :
  AwsRefFromProviderId (ProviderID node) = Ok ref ->
  asgCache m !! ref = Some other ->
  Id GenerateAsgUrl other <> Id GenerateAsgUrl asg ->
  collectRefs GenerateAsgUrl asg (node :: rest) refs m
  = collectRefs GenerateAsgUrl asg rest (refs ++ [ref]) m.
Proof.
  intros Href Hhit Hne. cbn [collectRefs]. rewrite bind_unfold.
  unfold Belongs. rewrite bind_unfold. unfold liftPure. rewrite Href.
  rewrite bind_unfold, (GetAsgForInstance_hit _ _ _ Hhit).
  apply String.eqb_neq in Hne. rewrite Hne. simpl.
  rewrite bind_unfold. reflexivity.
Qed.

Lemma DeleteNodes_run asg nodes size (m m1 : AwsManager Svc) :
  GetAsgSize asg m = (Ok size, m1) ->
  MinSize asg < size ->
  DeleteNodes GenerateAsgUrl asg nodes m
  = match collectRefs GenerateAsgUrl asg nodes [] m1 with
    | (Ok refs, m2) => DeleteInstances refs m2
    | (Err e, m2) => (Err e, m2)
    | (Panic p, m2) => (Panic p, m2)
    end.
Proof.
  intros Hsize Hmin. unfold DeleteNodes. rewrite bind_unfold, Hsize.
  destruct (size <=? MinSize asg) eqn:E; [lia|]. reflexivity.
Qed.

End ManagerFacts.

(** ** Concrete runs on the scripted backend *)

Section Runs.
Import Aws Spec Scenario.

Example IncreaseSize_runs :
  IncreaseSize groupA 0 (manager script)
  = (Err SizeIncreaseMustBePositive, manager script)
  /\ IncreaseSize groupA 2 (manager script)
     = (Ok tt,
        mkAwsManager registered cache script
          [CallDescribeGroups "asg-a" None;
           CallSetDesiredCapacity "asg-a" 5 None])
  /\ IncreaseSize groupA 3 (manager script)
     = (Err (SizeIncreaseTooLarge 6 5),
        mkAwsManager registered cache script
          [CallDescribeGroups "asg-a" None]).
Proof. repeat split; vm_compute; reflexivity. Qed.

(** C6.  [IncreaseSize] adds the size read and [delta] without a check
    for overflow.  A group of three nodes and at most five, asked to grow
    by the largest [int]: the sum is far above the maximum size, yet the
    call returns no error, and the backend has been asked for a negative
    size.  So it is for every group whose maximum size is an [int] from
    [-1] on, whenever the sum of the size read and [delta] is beyond the
    largest [int]. *)
Theorem IncreaseSize_overflow_passes_the_size_check :
  GetAsgSize groupA (manager script)
  = (Ok 3, mkAwsManager registered cache script
             [CallDescribeGroups "asg-a" None])
  /\ MaxSize groupA = 5
  /\ GoInt.inRange GoInt.maxInt
  /\ 0 < GoInt.maxInt
  /\ MaxSize groupA < 3 + GoInt.maxInt
  /\ IncreaseSize groupA GoInt.maxInt (manager script)
     = (Ok tt,
        mkAwsManager registered cache script
          [CallDescribeGroups "asg-a" None;
           CallSetDesiredCapacity "asg-a" (-9223372036854775806) None])
  /\ (forall (asg : Asg) (delta size : Z) (m m1 : AwsManager Script),
        GetAsgSize asg m = (Ok size, m1) ->
        GoInt.inRange size -> GoInt.inRange delta ->
        GoInt.maxInt < size + delta ->
        -1 <= MaxSize asg <= GoInt.maxInt ->
        MaxSize asg < size + delta
        /\ IncreaseSize asg delta m
           = SetAsgSize asg (size + delta - 2 ^ 64) m1
        /\ size + delta - 2 ^ 64 < 0).
Proof.
  split; [vm_compute; reflexivity|]. split; [reflexivity|].
  split; [unfold GoInt.inRange, GoInt.minInt, GoInt.maxInt; lia|].
  split; [reflexivity|]. split; [reflexivity|].
  split; [vm_compute; reflexivity|].
  intros asg delta size m m1 Hsize Hs Hd Hover [Hmax Hmax'].
  destruct (IncreaseSize_overflow asg delta size m m1 Hsize Hs Hd Hover Hmax)
    as [Hneg Hrun].
  split; [lia|split; assumption].
Qed.

Example DeleteInstances_stops_at_first_refusal :
  DeleteInstances [refA1; refBad; refA2] (manager script)
  = (Err (BackendError "throttled"),
     mkAwsManager registered cache script
       [CallTerminate "i-a1" None; CallTerminate "i-bad" (Some "throttled")]).
Proof. vm_compute. reflexivity. Qed.


(** C1.  The membership test of [DeleteNodes] is inverted.  Asked to
    delete one of its own nodes, a group above its minimum size returns
    "belong to a different asg" and deletes nothing; asked to delete a
    node of another group, it passes the test and the node is terminated
    at the backend. *)
Theorem DeleteNodes_membership_test_is_inverted :
  asgCache (manager script) !! refA1 = Some groupA
  /\ asgCache (manager script) !! refB1 = Some groupB
  /\ (forall GenerateAsgUrl,
        DeleteNodes GenerateAsgUrl groupA [nodeA1] (manager script)
        = (Err (BelongsToDifferentAsg "node-a1" (Id GenerateAsgUrl groupA)),
           mkAwsManager registered cache script
             [CallDescribeGroups "asg-a" None]))
  /\ (forall GenerateAsgUrl,
        Id GenerateAsgUrl groupB <> Id GenerateAsgUrl groupA ->
        DeleteNodes GenerateAsgUrl groupA [nodeB1] (manager script)
        = (Ok tt,
           mkAwsManager registered cache script
             [CallDescribeGroups "asg-a" None; CallTerminate "i-b1" None])).
Proof.
  assert (Hsize : GetAsgSize groupA (manager script)
                  = (Ok 3, mkAwsManager registered cache script
                             [CallDescribeGroups "asg-a" None]))
    by (vm_compute; reflexivity).
  split; [vm_compute; reflexivity|]. split; [vm_compute; reflexivity|]. split.
  - intros G.
    rewrite (DeleteNodes_run G groupA [nodeA1] 3 _ _ Hsize); [|reflexivity].
    rewrite (collectRefs_own_member G groupA nodeA1 [] [] refA1);
      [reflexivity|reflexivity|vm_compute; reflexivity].
  - intros G Hne.
    rewrite (DeleteNodes_run G groupA [nodeB1] 3 _ _ Hsize); [|reflexivity].
    rewrite (collectRefs_foreign_member G groupA groupB nodeB1 [] [] refB1);
      [|reflexivity|vm_compute; reflexivity|exact Hne].
    vm_compute. reflexivity.
Qed.

Example DeleteNodes_deletes_foreign_node :
  DeleteNodes zoneSlashName groupA [nodeB1] (manager script)
  = (Ok tt,
     mkAwsManager registered cache script
       [CallDescribeGroups "asg-a" None; CallTerminate "i-b1" None]).
Proof. vm_compute. reflexivity. Qed.

(** C3, the claim as stated fails: for a reference in a configured zone
    that is not cached and is still not cached after a refresh that
    succeeds, the lookup returns an error, not the answer "no group". *)
Lemma GetAsgForInstance_unknown_after_refresh_is_an_error :
  asgCache (manager script) !! refUnknown = None
  /\ zoneConfigured refUnknown (manager script) = true
  /\ (exists m', regenerateCache (manager script) = (Ok tt, m')
                 /\ asgCache m' !! refUnknown = None)
  /\ fst (GetAsgForInstance refUnknown (manager script))
     = Err (NotInAnyConfiguredAsg refUnknown)
  /\ fst (GetAsgForInstance refUnknown (manager script)) <> Ok None.
Proof.
  split; [vm_compute; reflexivity|].
  split; [vm_compute; reflexivity|].
  split.
  - eexists. split; [vm_compute; reflexivity|vm_compute; reflexivity].
  - split; [vm_compute; reflexivity|vm_compute; discriminate].
Qed.

Example GetAsgForInstance_runs :
  GetAsgForInstance refElsewhere (manager script) = (Ok None, manager script)
  /\ GetAsgForInstance refA1 (manager script) = (Ok (Some groupA), manager script)
  /\ GetAsgForInstance refUnknown (manager scriptDown)
     = (Err (LookupFailed refUnknown (BackendError "unavailable")),
        mkAwsManager registered cache scriptDown
          [CallDescribeGroups EmptyString (Some "unavailable")]).
Proof. repeat split; vm_compute; reflexivity. Qed.



Lemma buildAsg_accepts_exactly_well_formed_specs_witness :
  buildAsg nameInZone 7 "1:5:k8s-worker-asg"
  = Ok (mkAsg 7 (mkAwsRef "us-east-1a" "k8s-worker-asg") 1 5).
Proof.
  apply (proj1 (buildAsg_accepts_exactly_well_formed_specs
                  nameInZone 7 "1:5:k8s-worker-asg")).
  split; [reflexivity|].
  exists "1", "5", "k8s-worker-asg". simpl.
  repeat split; reflexivity || lia.
Defined.

Lemma IncreaseSize_within_max_witness :
  IncreaseSize groupA 2 (manager script)
  = (Ok tt,
     mkAwsManager registered cache script
       [CallDescribeGroups "asg-a" None;
        CallSetDesiredCapacity "asg-a" 5 None]).
Proof.
  assert (Hsize : GetAsgSize groupA (manager script)
                  = (Ok 3, mkAwsManager registered cache script
                             [CallDescribeGroups "asg-a" None]))
    by (vm_compute; reflexivity).
  destruct (proj2 (IncreaseSize_within_max groupA 2 (manager script))
              ltac:(lia) _ _ Hsize)
    as (Hle & _).
  destruct Hle as (rep & s' & Hset & Hrun); [vm_compute; discriminate|].
  rewrite Hrun. vm_compute in Hset. injection Hset as <- <-.
  vm_compute. reflexivity.
Defined.

Lemma GetAsgForInstance_miss_in_configured_zone_witness :
  GetAsgForInstance refUnknown (manager script)
  = (Err (NotInAnyConfiguredAsg refUnknown),
     snd (regenerateCache (manager script)))
  /\ GetAsgForInstance refUnknown (manager scriptDown)
     = (Err (LookupFailed refUnknown (BackendError "unavailable")),
        snd (regenerateCache (manager scriptDown)))
  /\ GetAsgForInstance refElsewhere (manager script)
     = (Ok None, manager script).
Proof.
  split; [|split].
  - destruct (proj2 (GetAsgForInstance_miss_in_configured_zone
                       refUnknown (manager script)))
      as (Hstill & _); [vm_compute; reflexivity..|].
    apply Hstill; vm_compute; reflexivity.
  - destruct (proj2 (GetAsgForInstance_miss_in_configured_zone
                       refUnknown (manager scriptDown)))
      as (_ & Hfailed & _); [vm_compute; reflexivity..|].
    apply Hfailed. vm_compute. reflexivity.
  - vm_compute. reflexivity.
Defined.

Lemma cache_refresh_is_all_or_nothing_witness :
  asgCache (snd (regenerateCache (manager scriptDown))) = cache
  /\ regenerateCache (withCache ∅ (manager script))
     = regenerateCache (manager script).
Proof.
  destruct (cache_refresh_is_all_or_nothing zoneSlashName (Svc:=Script))
    as (Hrefresh & _).
  split.
  - destruct (regenerateCache (manager scriptDown)) as [r m'] eqn:Hrun.
    destruct (Hrefresh _ _ _ Hrun) as (_ & Hkeep & _).
    simpl. rewrite Hkeep; [reflexivity|].
    vm_compute in Hrun. injection Hrun as <- _. discriminate.
  - destruct (regenerateCache (manager script)) as [r m'] eqn:Hrun.
    destruct (Hrefresh _ _ _ Hrun) as (_ & _ & Hfresh).
    assert (Hr : r = Ok tt) by (vm_compute in Hrun; injection Hrun as <- _; reflexivity).
    subst r. apply (Hfresh eq_refl).
Defined.

Lemma DeleteInstances_terminates_in_order_witness :
  exists r m' done,
    DeleteInstances [refA1; refBad; refA2] (manager script) = (r, m')
    /\ asgs m' = registered /\ asgCache m' = cache
    /\ calls m' = calls (manager script) ++ done
    /\ (length done <= 3)%nat
    /\ map terminatedId done
       = map (fun ref => Some (Name ref))
             (take (length done) [refA1; refBad; refA2])
    /\ terminationVerdict r done [refA1; refBad; refA2].
Proof.
  apply (proj2 (DeleteInstances_terminates_in_order
                  [refA1; refBad; refA2] (manager script))
               groupA (manager script)).
  - discriminate.
  - apply resolveInTurn_cached. intros x Hx.
    repeat (apply elem_of_cons in Hx as [->|Hx]; [reflexivity|]).
    inversion Hx.
Defined.

End Runs.

(** ** The scale-up engine *)

Section EngineFacts.
Import Provider Engine.

Context {W E Pod KNode NodeInfo Est NG P : Type}.
Context `{!EqDecision Pod}.
Context `{!NodeGroup W E KNode NG} `{!Provider W E KNode NG P}.
Context `{!Estimator Pod KNode Est} `{!Simulator W E Pod KNode NodeInfo}.

Variable BestExpansionOption :
  list (ExpansionOption Est NG) -> option (ExpansionOption Est NG).
Variable recordEvent : Event Pod NG -> W -> W.

Lemma tryGroups_app pods (before after : list NG) options remain (w : W) :
  tryGroups pods (before ++ after) options remain w =
    let '(options1, remain1, w1) := tryGroups pods before options remain w in
    tryGroups pods after options1 remain1 w1.
Proof.
  revert options remain w.
  induction before as [|g rest IH]; intros options remain w.
  - simpl. reflexivity.
  - cbn [app tryGroups].
    destruct (IsScaleUpPossible g w) as [[[|]|e] w'].
    + destruct (tryPods g pods NewBasicNodeEstimator false remain w')
        as [[[est helps] remain'] w''].
      apply IH.
    + apply IH.
    + apply IH.
Qed.

Lemma tryGroups_skip pods (group : NG) rest options remain (w w' : W) r :
  IsScaleUpPossible group w = (r, w') ->
  r = Success false \/ (exists e, r = Failure e) ->
  tryGroups pods (group :: rest) options remain w
  = tryGroups pods rest options remain w'.
Proof.
  intros Hposs [->|[e ->]]; cbn [tryGroups]; rewrite Hposs; reflexivity.
Qed.

Lemma ScaleUp_run pods nodes (provider : P) (w w0 : W) groups :
  pods <> [] ->
  GetNodeGroups provider nodes w = (Success groups, w0) ->
  ScaleUp BestExpansionOption recordEvent pods nodes provider w =
    let '(options, remain, w2) := tryGroups pods groups [] [] w0 in
    resizeBestOption BestExpansionOption recordEvent options remain w2.
Proof.
  intros Hne Hgroups. unfold ScaleUp.
  destruct pods as [|pod pods]; [congruence|]. rewrite Hgroups. reflexivity.
Qed.

(** C8.  In a cycle with unschedulable pods, a node group whose
    [IsScaleUpPossible] returns false or an error is skipped: the loop
    goes on with the groups after it, from the options and the pods
    gathered so far, and [ScaleUp] ends as the cycle over the remaining
    groups ends.  The error of the skipped group is dropped. *)
Theorem ScaleUp_skips_group_that_cannot_scale_up
    pods nodes (provider : P) (before : list NG) (group : NG) (after : list NG)
    (w w0 w1 w1' : W) options remain r :
  pods <> [] ->
  GetNodeGroups provider nodes w = (Success (before ++ group :: after), w0) ->
  tryGroups pods before [] [] w0 = (options, remain, w1) ->
  IsScaleUpPossible group w1 = (r, w1') ->
  r = Success false \/ (exists e, r = Failure e) ->
  tryGroups pods (before ++ group :: after) [] [] w0
  = tryGroups pods after options remain w1'
  /\ ScaleUp BestExpansionOption recordEvent pods nodes provider w
     = (let '(options', remain', w2) :=
          tryGroups pods after options remain w1' in
        resizeBestOption BestExpansionOption recordEvent options' remain' w2).
Proof.
  intros Hne Hgroups Hbefore Hposs Hr.
  assert (Hloop : tryGroups pods (before ++ group :: after) [] [] w0
                  = tryGroups pods after options remain w1').
  { rewrite tryGroups_app, Hbefore. eapply tryGroups_skip; eassumption. }
  split; [exact Hloop|].
  rewrite (ScaleUp_run _ _ _ _ _ _ Hne Hgroups), Hloop. reflexivity.
Qed.

End EngineFacts.

Section GceEngineFacts.
Import Provider Gce Engine.

Context {W Pod KNode NodeInfo Est P : Type}.
Context `{!EqDecision Pod} `{!GceManager W}.
Context `{!Provider.Provider W Gce.error KNode (gceNodeGroup KNode) P}.
Context `{!Estimator Pod KNode Est}.
Context `{!Simulator W Gce.error Pod KNode NodeInfo}.

Variable BestExpansionOption :
  list (ExpansionOption Est (gceNodeGroup KNode))
  -> option (ExpansionOption Est (gceNodeGroup KNode)).
Variable recordEvent : Event Pod (gceNodeGroup KNode) -> W -> W.

Lemma cappedSize_cases (g : gceNodeGroup KNode) size :
  (MaxSize (migConfig g) <= size -> cappedSize g size = MaxSize (migConfig g))
  /\ (size < MaxSize (migConfig g) -> cappedSize g size = size).
Proof.
  unfold cappedSize.
  destruct (size >=? MaxSize (migConfig g)) eqn:E; split; intros; lia.
Qed.

(** [IsScaleUpPossible] of a gce node group: true exactly below the
    maximum size, an error exactly when the size cannot be read. *)
Lemma Gce_IsScaleUpPossible_cases (g : gceNodeGroup KNode) (w : W) :
  match GetMigSize (migConfig g) w with
  | (Failure err, w') => Gce.IsScaleUpPossible g w = (Failure err, w')
  | (Success currentSize, w') =>
      Gce.IsScaleUpPossible g w
      = (Success (currentSize <? MaxSize (migConfig g)), w')
  end.
Proof.
  unfold Gce.IsScaleUpPossible.
  destruct (GetMigSize (migConfig g) w) as [[currentSize|err] w'];
    [|reflexivity].
  destruct (currentSize >=? MaxSize (migConfig g)) eqn:E;
    destruct (currentSize <? MaxSize (migConfig g)) eqn:E'; reflexivity || lia.
Qed.

(** C2.  When [ScaleUp] has picked a best option and has read the size
    of its group, the size it passes to [SetSize] is the estimate alone,
    not the current size plus the estimate; [SetSize] caps a size at or
    above [MaxSize] to [MaxSize] and hands the result to the backend
    without failing on it.  [ScaleUp] then returns what the backend
    answers to that one call. *)
Theorem ScaleUp_sets_capped_estimate
    pods nodes (provider : P) (w w1 w2 w3 w4 : W) groups options remain
    best nodeInfo estimate report currentSize :
  pods <> [] ->
  GetNodeGroups provider nodes w = (Success groups, w1) ->
  tryGroups pods groups [] [] w1 = (options, remain, w2) ->
  BestExpansionOption options = Some best ->
  0 < GetCount (estimator best) ->
  BuildNodeInfoForNode (sampleNode (nodeGroup best)) w2
  = (Success nodeInfo, w3) ->
  Estimate (estimator best) (NodeInfoNode nodeInfo) = (estimate, report) ->
  GetMigSize (migConfig (nodeGroup best)) w3 = (Success currentSize, w4) ->
  exists rep w5,
    SetMigSize (migConfig (nodeGroup best))
               (cappedSize (nodeGroup best) estimate) w4 = (rep, w5)
    /\ ScaleUp BestExpansionOption recordEvent pods nodes provider w
       = match rep with
         | Success _ =>
             (Success true,
              recordAll recordEvent
                (map (fun pod =>
                        TriggeredScaleUp pod (nodeGroup best) currentSize
                          (GoInt.add currentSize estimate))
                     (FittingPods (estimator best)))
                w5)
         | Failure err => (Failure (Passed (FailedToSetMigSize err)), w5)
         end
    /\ (MaxSize (migConfig (nodeGroup best)) <= estimate ->
        cappedSize (nodeGroup best) estimate
        = MaxSize (migConfig (nodeGroup best)))
    /\ (estimate < MaxSize (migConfig (nodeGroup best)) ->
        cappedSize (nodeGroup best) estimate = estimate).
Proof.
  intros Hne Hgroups Hloop Hbest Hcount Hinfo Hest Hsize.
  destruct (SetMigSize (migConfig (nodeGroup best))
                       (cappedSize (nodeGroup best) estimate) w4)
    as [rep w5] eqn:Hset.
  exists rep, w5. split; [reflexivity|].
  split; [|apply cappedSize_cases].
  rewrite (ScaleUp_run _ _ _ _ _ _ _ _ Hne Hgroups), Hloop.
  unfold resizeBestOption. rewrite Hbest.
  destruct (GetCount (estimator best) >? 0) eqn:E; [|lia].
  change (Provider.GetSampleNode (nodeGroup best))
    with (sampleNode (nodeGroup best)).
  rewrite Hinfo, Hest.
  change (Provider.GetCurrentSize (nodeGroup best) w3)
    with (Gce.GetCurrentSize (nodeGroup best) w3).
  unfold Gce.GetCurrentSize. rewrite Hsize.
  change (Provider.SetSize (nodeGroup best) estimate w4)
    with (Gce.SetSize (nodeGroup best) estimate w4).
  unfold Gce.SetSize. rewrite Hset.
  destruct rep as [[]|err]; reflexivity.
Qed.

End GceEngineFacts.

(** ** Concrete runs of the engine *)

Section EngineRuns.
Import Provider Gce Engine EngineScenario.

(** The scenario of C2: one node at present, at most three, five nodes
    estimated; the size set at the backend is three. *)
Lemma ScaleUp_sets_capped_estimate_witness :
  migSize oneNode = 1
  /\ MaxSize (migConfig smallGroup) = 3
  /\ ScaleUp firstOption countEvent fivePods [] [smallGroup] oneNode
     = (Success true, mkWorld 3 [3] 2 5).
Proof.
  split; [reflexivity|]. split; [reflexivity|].
  edestruct (ScaleUp_sets_capped_estimate firstOption countEvent
               fivePods [] [smallGroup] oneNode)
    as (rep & w5 & Hset & Hrun & Hcap & _).
  - discriminate.
  - reflexivity.
  - vm_compute. reflexivity.
  - reflexivity.
  - vm_compute. reflexivity.
  - reflexivity.
  - reflexivity.
  - reflexivity.
  - rewrite Hrun. vm_compute in Hset. injection Hset as <- <-.
    vm_compute. reflexivity.
Defined.

(** A cycle over a group whose size cannot be read and a group that can
    grow: the first is skipped, the second is resized. *)
Lemma ScaleUp_skips_group_witness :
  ScaleUp firstOption countEvent fivePods [] [downGroup; smallGroup] oneNode
  = (Success true, mkWorld 3 [3] 3 5).
Proof.
  destruct (ScaleUp_skips_group_that_cannot_scale_up firstOption countEvent
              fivePods [] [downGroup; smallGroup] [] downGroup [smallGroup]
              oneNode oneNode oneNode (mkWorld 1 [] 1 0) [] []
              (Failure (ManagerError "down")))
    as [_ Hrun].
  - discriminate.
  - reflexivity.
  - reflexivity.
  - reflexivity.
  - right. eexists. reflexivity.
  - rewrite Hrun. vm_compute. reflexivity.
Defined.

End EngineRuns.

(** * Further properties of the code *)

(** ** Parsing *)

Section MoreParsing.
Import Aws GoStrings.

Lemma dropBytes_Some n s t :
  dropBytes n s = Some t ->
  exists prefix, String.length prefix = n /\ s = prefix +:+ t.
Proof.
  revert s. induction n as [|n IH]; intros s H.
  - injection H as <-. exists EmptyString. split; reflexivity.
  - destruct s as [|c s]; [discriminate|]. simpl in H.
    destruct (IH _ H) as (prefix & Hlen & ->).
    exists (String c prefix). split; [simpl; congruence|reflexivity].
Qed.

Lemma dropBytes_None n s :
  dropBytes n s = None <-> (String.length s < n)%nat.
Proof.
  revert s. induction n as [|n IH]; intros s.
  - simpl. split; [discriminate|lia].
  - destruct s as [|c s]; simpl; [split; [lia|reflexivity]|].
    rewrite IH. lia.
Qed.

Lemma append_length (a b : string) :
  String.length (a +:+ b) = (String.length a + String.length b)%nat.
Proof. induction a as [|c a IH]; simpl; [reflexivity|rewrite IH; reflexivity]. Qed.

(** With cuts to spare, one piece means no separator. *)
Lemma cutAt_single sep k s b :
  (String.length s <= k)%nat -> cutAt sep k s = [b] ->
  s = b /\ hasByte sep s = false.
Proof.
  revert k b. induction s as [|c s IH]; intros k b Hk H.
  - destruct k; injection H as <-; split; reflexivity.
  - destruct k as [|k]; [simpl in Hk; lia|]. cbn [cutAt] in H.
    destruct (Ascii.eqb c sep) eqn:Hc.
    + injection H as _ Hnil. exfalso. exact (cutAt_nonempty _ _ _ Hnil).
    + destruct (cutAt sep (S k) s) as [|t ts] eqn:Hcut;
        [exfalso; exact (cutAt_nonempty _ _ _ Hcut)|].
      injection H as <- ->.
      destruct (IH (S k) t) as [-> Hfree]; [simpl in Hk; lia|exact Hcut|].
      split; [reflexivity|]. simpl. rewrite Hc. exact Hfree.
Qed.

Lemma Split_pair_inv sep s a b :
  Split s sep = [a; b] ->
  s = a +:+ String sep b /\ hasByte sep a = false /\ hasByte sep b = false.
Proof.
  unfold Split. intros H.
  destruct (String.length s) as [|k] eqn:Hlen.
  - rewrite cutAt_0 in H. discriminate.
  - destruct (cutAt_first_inv _ _ _ _ _ _ H) as (Ha & s' & -> & Hs').
    rewrite append_length in Hlen. simpl in Hlen.
    destruct (cutAt_single sep k s' b) as [-> Hb]; [lia|exact Hs'|].
    auto.
Qed.

(** X1.  [AwsRefFromProviderId] on every string: it panics exactly on the
    strings shorter than six bytes; it returns a reference exactly on six
    bytes of any kind followed by a zone, one slash and a name, and the
    reference holds that zone and that name; on every other string it
    returns the error "Wrong id" about that string. *)
Theorem AwsRefFromProviderId_cases (id : string) :
  (AwsRefFromProviderId id = Panic SliceBoundsOutOfRange
   <-> (String.length id < 6)%nat)
  /\ (forall ref,
        AwsRefFromProviderId id = Ok ref <->
        exists prefix,
          String.length prefix = 6%nat
          /\ id = prefix +:+ Zone ref +:+ "/" +:+ Name ref
          /\ hasByte "/" (Zone ref) = false
          /\ hasByte "/" (Name ref) = false)
  /\ (forall e, AwsRefFromProviderId id = Err e ->
                e = WrongId id /\ (6 <= String.length id)%nat)
  /\ (forall p, AwsRefFromProviderId id = Panic p ->
                p = SliceBoundsOutOfRange).
Proof.
  unfold AwsRefFromProviderId, sliceFrom.
  destruct (dropBytes 6 id) as [tail|] eqn:Hdrop.
  - assert (Hlen : (6 <= String.length id)%nat).
    { destruct (dropBytes_Some _ _ _ Hdrop) as (prefix & Hp & ->).
      rewrite append_length. lia. }
    split; [|split; [|split]].
    + split; [|lia].
      destruct (Split tail "/") as [|a [|b [|c l]]]; discriminate.
    + intros [zone name]. simpl. split.
      * intros H.
        destruct (Split tail "/") as [|a [|b [|c l]]] eqn:Hsplit;
          try discriminate.
        injection H as -> ->.
        destruct (Split_pair_inv _ _ _ _ Hsplit) as (-> & Hzone & Hname).
        destruct (dropBytes_Some _ _ _ Hdrop) as (prefix & Hp & ->).
        exists prefix. auto.
      * intros (prefix & Hp & -> & Hzone & Hname).
        rewrite <- Hp, dropBytes_prefix in Hdrop. injection Hdrop as <-.
        change (zone +:+ "/" +:+ name) with (zone +:+ String "/" name).
        rewrite (Split_pair _ _ _ Hzone Hname). reflexivity.
    + intros e H.
      destruct (Split tail "/") as [|a [|b [|c l]]]; try discriminate;
        injection H as <-; auto.
    + intros p H.
      destruct (Split tail "/") as [|a [|b [|c l]]]; discriminate.
  - apply dropBytes_None in Hdrop.
    split; [|split; [|split]].
    + split; [intros _; exact Hdrop|reflexivity].
    + intros ref. split; [discriminate|].
      intros (prefix & Hp & -> & _). rewrite append_length in Hdrop. lia.
    + intros e H. discriminate.
    + intros p H. injection H as <-. reflexivity.
Qed.

Lemma parseDigits_bound acc s v :
  0 <= acc -> parseDigits acc s = Some v -> 0 <= v.
Proof.
  revert acc. induction s as [|c s IH]; intros acc Hacc H.
  - injection H as <-. exact Hacc.
  - simpl in H. destruct (digitValue c) as [d|] eqn:Hd; [|discriminate].
    apply (IH (10 * acc + d)); [|exact H].
    unfold digitValue in Hd.
    destruct ((48 <=? Z.of_N (N_of_ascii c)) && (Z.of_N (N_of_ascii c) <=? 57))
      eqn:E; [|discriminate].
    injection Hd as <-. apply andb_prop in E as [E1 E2]. lia.
Qed.

(** What [strconv.Atoi] returns fits an [int]. *)
Lemma Atoi_inRange s z : Atoi s = Some z -> GoInt.inRange z.
Proof.
  unfold Atoi, GoInt.inRange, GoInt.minInt, GoInt.maxInt.
  destruct s as [|c rest]; [discriminate|].
  destruct (Ascii.eqb c "-"); [|destruct (Ascii.eqb c "+")].
  - destruct rest as [|c' rest']; [discriminate|].
    destruct (parseDigits 0 (String c' rest')) as [un|] eqn:Hp; [|discriminate].
    pose proof (parseDigits_bound _ _ _ (Z.le_refl 0) Hp).
    destruct (un <=? 2 ^ 63) eqn:E; [|discriminate].
    intros H'. injection H' as <-. lia.
  - destruct rest as [|c' rest']; [discriminate|].
    destruct (parseDigits 0 (String c' rest')) as [un|] eqn:Hp; [|discriminate].
    pose proof (parseDigits_bound _ _ _ (Z.le_refl 0) Hp).
    destruct (un <? 2 ^ 63) eqn:E; [|discriminate].
    intros H'. injection H' as <-. lia.
  - destruct (parseDigits 0 (String c rest)) as [un|] eqn:Hp; [|discriminate].
    pose proof (parseDigits_bound _ _ _ (Z.le_refl 0) Hp).
    destruct (un <? 2 ^ 63) eqn:E; [|discriminate].
    intros H'. injection H' as <-. lia.
Qed.

End MoreParsing.

(** ** Building the provider *)

Section MoreProvider.
Import Aws Spec Laws GoStrings.

Context {Svc : Type} `{!AutoScalingAPI Svc}.
Variable ParseAsgUrl : string -> error + (string * string).

(** X2.  Every group [buildAsg] returns keeps the bounds of a node group:
    [1 <= MinSize() <= MaxSize()], both of them values of an [int]; and it
    is the object allocated for this call. *)
Theorem buildAsg_bounds (here : nat) (value : string) (asg : Asg) :
  buildAsg ParseAsgUrl here value = Ok asg ->
  asgAddr asg = here
  /\ 1 <= minSize asg /\ minSize asg <= maxSize asg
  /\ GoInt.inRange (minSize asg) /\ GoInt.inRange (maxSize asg).
Proof.
  intros H. apply buildAsg_Ok_iff in H
    as [Haddr (smin & smax & id & _ & Hmin & Hmax & H1 & H2 & _)].
  repeat split; try assumption; first [eapply Atoi_inRange; eassumption].
Qed.

Lemma lookup_map {A B} (f : A -> B) (l : list A) (j : nat) :
  map f l !! j = f <$> (l !! j).
Proof.
  revert j. induction l as [|x l IH]; intros [|j]; simpl; auto.
Qed.

Lemma addNodeGroups_run here (specs : list string) aws (m : AwsManager Svc) :
  exists built r,
    (forall j asg, built !! j = Some asg ->
       exists spec, specs !! j = Some spec
                    /\ buildAsg ParseAsgUrl (here + j) spec = Ok asg)
    /\ addNodeGroups ParseAsgUrl here specs aws m
       = (r, mkAwsManager (asgs m ++ map registration built) (asgCache m)
               (service m) (calls m))
    /\ match r with
       | Ok aws' =>
           cloudAsgs aws' = cloudAsgs aws ++ built
           /\ length built = length specs
       | Err e =>
           exists spec, specs !! (length built) = Some spec
                        /\ buildAsg ParseAsgUrl (here + length built) spec = Err e
       | Panic _ => False
       end.
Proof.
  revert here aws m. induction specs as [|spec rest IH]; intros here aws m.
  - exists [], (Ok aws). simpl. rewrite !app_nil_r.
    split; [intros j asg Hj; inversion Hj|].
    split; [destruct m; reflexivity|]. split; reflexivity.
  - cbn [addNodeGroups]. rewrite bind_unfold.
    unfold addNodeGroup. rewrite bind_unfold. unfold liftPure.
    destruct (buildAsg_total ParseAsgUrl here spec) as [[asg Hok]|[e Herr]].
    + rewrite Hok. cbn [RegisterAsg]. rewrite bind_unfold.
      unfold RegisterAsg. cbn [mret M_ret].
      destruct (IH (S here) (mkAwsCloudProvider (cloudAsgs aws ++ [asg]))
                  (mkAwsManager (asgs m ++ [mkAsgInformation asg EmptyString])
                     (asgCache m) (service m) (calls m)))
        as (built & r & Hbuilt & Hrun & Hr).
      exists (asg :: built), r. split; [|split].
      * intros [|j] a Hj.
        -- injection Hj as <-. exists spec. rewrite Nat.add_0_r. auto.
        -- destruct (Hbuilt j a Hj) as (sp & Hsp & Hb). exists sp.
           replace (here + S j)%nat with (S here + j)%nat by lia. auto.
      * rewrite Hrun. simpl. rewrite <- app_assoc. reflexivity.
      * destruct r as [aws'|e|p]; [| |exact Hr].
        -- destruct Hr as [Hc Hl]. simpl in Hc. rewrite <- app_assoc in Hc.
           split; [exact Hc|simpl; congruence].
        -- destruct Hr as (sp & Hsp & Hb). exists sp. simpl.
           replace (here + S (length built))%nat
             with (S here + length built)%nat by lia. auto.
    + rewrite Herr. exists [], (Err e). simpl. rewrite !app_nil_r.
      split; [intros j asg Hj; inversion Hj|].
      split; [destruct m; reflexivity|]. exists spec.
      rewrite Nat.add_0_r. auto.
Qed.

Lemma built_addresses here (specs : list string) (built : list Asg) :
  (forall j asg, built !! j = Some asg ->
     exists spec : string, specs !! j = Some spec
                  /\ buildAsg ParseAsgUrl (here + j) spec = Ok asg) ->
  map asgAddr built = seq here (length built).
Proof.
  intros Hbuilt. apply list_eq. intros j.
  rewrite list_lookup_fmap.
  destruct (built !! j) as [asg|] eqn:Hj; simpl.
  - destruct (Hbuilt j asg Hj) as (spec & _ & Hb).
    apply buildAsg_Ok_iff in Hb as [-> _].
    symmetry. apply lookup_seq. split; [reflexivity|].
    eapply lookup_lt_Some; eassumption.
  - symmetry. apply lookup_ge_None. rewrite length_seq.
    apply lookup_ge_None in Hj. exact Hj.
Qed.

(** X3.  When [BuildAwsCloudProvider] succeeds, the provider holds one
    group for each specification, in their order, each the group
    [buildAsg] makes of that specification; these are pairwise different
    objects; the manager has the same groups registered after those it
    had, in the same order, each with an empty [basename]; neither the
    cache nor the backend has been touched; and [NodeGroups] lists these
    groups, in the same order, each as a node group that is not nil. *)
Theorem BuildAwsCloudProvider_registers_in_order
    (here : nat) (specs : list string) (m m' : AwsManager Svc)
    (aws : AwsCloudProvider) :
  BuildAwsCloudProvider ParseAsgUrl here specs m = (Ok aws, m') ->
  length (cloudAsgs aws) = length specs
  /\ (forall j asg, cloudAsgs aws !! j = Some asg ->
        exists spec, specs !! j = Some spec
                     /\ buildAsg ParseAsgUrl (here + j) spec = Ok asg)
  /\ NoDup (map asgAddr (cloudAsgs aws))
  /\ asgs m' = asgs m ++ map registration (cloudAsgs aws)
  /\ asgCache m' = asgCache m
  /\ service m' = service m
  /\ calls m' = calls m
  /\ length (NodeGroups aws) = length specs
  /\ (forall j g, NodeGroups aws !! j = Some g ->
        exists spec asg,
          specs !! j = Some spec
          /\ buildAsg ParseAsgUrl (here + j) spec = Ok asg
          /\ g = AsgNodeGroup (Some asg)).
Proof.
  unfold BuildAwsCloudProvider. intros H.
  destruct (addNodeGroups_run here specs (mkAwsCloudProvider []) m)
    as (built & r & Hbuilt & Hrun & Hr).
  rewrite Hrun in H. injection H as -> <-. destruct Hr as [Hc Hl].
  unfold NodeGroups. rewrite length_map.
  simpl in Hc. rewrite Hc. simpl.
  repeat split; try assumption.
  - rewrite (built_addresses _ _ _ Hbuilt). apply NoDup_seq.
  - intros j g Hj. rewrite lookup_map in Hj.
    destruct (built !! j) as [asg|] eqn:Hasg; [|discriminate].
    injection Hj as <-.
    destruct (Hbuilt j asg Hasg) as (spec & Hspec & Hok).
    exists spec, asg. auto.
Qed.

(** [BuildAwsCloudProvider] returns a provider or an error: whatever the
    specifications and the manager, it does not panic. *)
Lemma BuildAwsCloudProvider_no_panic
    (here : nat) (specs : list string) (m m' : AwsManager Svc) r :
  BuildAwsCloudProvider ParseAsgUrl here specs m = (r, m') ->
  forall p, r <> Panic p.
Proof.
  unfold BuildAwsCloudProvider. intros H p ->.
  destruct (addNodeGroups_run here specs (mkAwsCloudProvider []) m)
    as (built & r & Hbuilt & Hrun & Hr).
  rewrite Hrun in H. injection H as -> _. exact Hr.
Qed.

(** X4.  Whatever the specifications and the manager,
    [BuildAwsCloudProvider] does not panic.  When it fails, its error is
    the error [buildAsg] gives for the first specification it rejects,
    and no provider is returned; but the groups of the specifications
    before that one stay registered with the manager; no call has been
    made to the backend. *)
Theorem BuildAwsCloudProvider_fails_at_first_bad_spec
    (here : nat) (specs : list string) (m : AwsManager Svc) :
  (forall p m'', BuildAwsCloudProvider ParseAsgUrl here specs m
                 <> (Panic p, m''))
  /\ forall e m',
       BuildAwsCloudProvider ParseAsgUrl here specs m = (Err e, m') ->
       exists built spec,
         specs !! (length built) = Some spec
         /\ buildAsg ParseAsgUrl (here + length built) spec = Err e
         /\ (forall j asg, built !! j = Some asg ->
               exists spec', specs !! j = Some spec'
                             /\ buildAsg ParseAsgUrl (here + j) spec' = Ok asg)
         /\ asgs m' = asgs m ++ map registration built
         /\ asgCache m' = asgCache m
         /\ service m' = service m
         /\ calls m' = calls m.
Proof.
  split.
  - intros p m'' Hp.
    exact (BuildAwsCloudProvider_no_panic _ _ _ _ _ Hp p eq_refl).
  - unfold BuildAwsCloudProvider. intros e m' H.
    destruct (addNodeGroups_run here specs (mkAwsCloudProvider []) m)
      as (built & r & Hbuilt & Hrun & Hr).
    rewrite Hrun in H. injection H as -> <-.
    destruct Hr as (spec & Hspec & Hb).
    exists built, spec. simpl. repeat split; assumption.
Qed.

End MoreProvider.

(** ** Lookups and deletions of the manager *)

Section MoreManager.
Import Aws Spec Laws.

Context {Svc : Type} `{!AutoScalingAPI Svc}.
Variable GenerateAsgUrl : string -> string -> string.

(** X5.  A lookup that has returned a group can be repeated at once: the
    second lookup returns the same group from the cache, with no call to
    the backend and no change of the manager. *)
Theorem GetAsgForInstance_repeat (instance : AwsRef) (g : Asg)
    (m m' : AwsManager Svc) :
  GetAsgForInstance instance m = (Ok (Some g), m') ->
  GetAsgForInstance instance m' = (Ok (Some g), m').
Proof.
  intros H. apply GetAsgForInstance_hit.
  eapply GetAsgForInstance_found. exact H.
Qed.

Lemma DeleteInstances_unmanaged_run instances (m : AwsManager Svc) :
  (forall r, r ∈ instances -> unmanaged m r) ->
  DeleteInstances instances m = terminateEach instances m.
Proof.
  intros Hall.
  assert (Hget : forall r, r ∈ instances ->
                           GetAsgForInstance r m = (Ok None, m)).
  { intros r Hr. destruct (Hall r Hr) as [Hmiss Hzone].
    rewrite GetAsgForInstance_cases, Hmiss, Hzone. reflexivity. }
  assert (Hchk : forall l, (forall r, r ∈ l -> r ∈ instances) ->
                           checkCommonAsg None l m = (Ok tt, m)).
  { induction l as [|i rest IH]; intros Hsub; [reflexivity|].
    cbn [checkCommonAsg]. rewrite bind_unfold, (Hget i); [|apply Hsub; left].
    simpl. apply IH. intros r Hr. apply Hsub. right. exact Hr. }
  destruct instances as [|first rest]; [reflexivity|].
  unfold DeleteInstances. rewrite bind_unfold, (Hget first); [|left].
  rewrite bind_unfold, Hchk; [reflexivity|auto].
Qed.

(** X6.  [DeleteInstances] does not require that a group owns the
    instances: when no reference of the list is cached or lies in the
    zone of a registered group, every lookup answers "no group", the
    answers agree, and the instances are terminated at the backend, one
    call each in list order, up to the first refusal. *)
Theorem DeleteInstances_terminates_unmanaged
    (instances : list AwsRef) (m : AwsManager Svc) :
  (forall r, r ∈ instances -> unmanaged m r) ->
  exists r m' done,
    DeleteInstances instances m = (r, m')
    /\ asgs m' = asgs m /\ asgCache m' = asgCache m
    /\ callsSince m m' done
    /\ (length done <= length instances)%nat
    /\ map terminatedId done
       = map (fun ref => Some (Name ref)) (take (length done) instances)
    /\ terminationVerdict r done instances.
Proof.
  intros Hall. rewrite (DeleteInstances_unmanaged_run _ _ Hall).
  apply terminateEach_run.
Qed.

(** X7.  Whatever the list and the state, the calls of one
    [DeleteInstances] are describe calls of cache refreshes followed by
    termination calls, and the termination calls name a prefix of the
    list, one call for each reference, in list order.  It never resizes a
    group, and it leaves the registered groups as they are. *)
Theorem DeleteInstances_calls (instances : list AwsRef) (m : AwsManager Svc) :
  exists described done,
    callsSince m (snd (DeleteInstances instances m)) (described ++ done)
    /\ forallb isDescribe described = true
    /\ (length done <= length instances)%nat
    /\ map terminatedId done
       = map (fun ref => Some (Name ref)) (take (length done) instances)
    /\ (isOk (fst (DeleteInstances instances m)) = true ->
        length done = length instances)
    /\ asgs (snd (DeleteInstances instances m)) = asgs m.
Proof.
  rewrite DeleteInstances_validate_then_terminate.
  destruct (validateCommonAsg instances m) as [r m1] eqn:Hv.
  destruct (validateCommonAsg_Evolves _ _ _ _ Hv)
    as (Ha & _ & described & Hn & Hd).
  destruct r as [[]|e|p].
  - destruct (terminateEach_run instances m1)
      as (r & m' & done & Hrun & Ha' & _ & Hn' & Hlen & Hids & Hverdict).
    rewrite Hrun. simpl. exists described, done.
    unfold callsSince. rewrite Hn', Hn, app_assoc.
    repeat split; try assumption; [|congruence].
    intros Hok. destruct r; try discriminate. apply Hverdict.
  - exists described, []. simpl. unfold callsSince. rewrite app_nil_r.
    repeat split; try assumption; try lia; try discriminate.
  - exists described, []. simpl. unfold callsSince. rewrite app_nil_r.
    repeat split; try assumption; try lia; try discriminate.
Qed.

(** X8.  [Belongs] is [NodeGroupForNode] followed by a comparison of the
    [Id]s: it answers whether the group that owns the node has the [Id] of
    this group, and passes on every error and panic of the lookup.  When
    [NodeGroupForNode] returns no error its result is never the nil
    interface; for a node that no group owns it holds a nil [*Asg], and
    [Belongs] fails on exactly those nodes with "doesn't belong to a
    known asg". *)
Theorem Belongs_follows_NodeGroupForNode
    (asg : Asg) (node : Node) (m : AwsManager Svc) :
  match NodeGroupForNode node m with
  | (Ok (AsgNodeGroup (Some target)), m') =>
      Belongs GenerateAsgUrl asg node m
      = (Ok (String.eqb (Id GenerateAsgUrl target) (Id GenerateAsgUrl asg)), m')
  | (Ok (AsgNodeGroup None), m') =>
      Belongs GenerateAsgUrl asg node m
      = (Err (NotInKnownAsg (nodeName node)), m')
  | (Ok NilNodeGroup, _) => False
  | (Err e, m') => Belongs GenerateAsgUrl asg node m = (Err e, m')
  | (Panic p, m') => Belongs GenerateAsgUrl asg node m = (Panic p, m')
  end.
Proof.
  unfold NodeGroupForNode, Belongs. rewrite !bind_unfold. unfold liftPure.
  destruct (AwsRefFromProviderId (ProviderID node)) as [ref|e|p];
    [|reflexivity|reflexivity].
  rewrite !bind_unfold.
  destruct (GetAsgForInstance ref m) as [[[target|]|e|p] m'];
    try reflexivity.
  cbn [mret M_ret].
  destruct (String.eqb (Id GenerateAsgUrl target) (Id GenerateAsgUrl asg));
    reflexivity.
Qed.

(** X9.  The size guard of [DeleteNodes]: with the current size read and
    at or below [MinSize()], it returns "min size reached" whatever the
    nodes are, having made the one describe call only.  Above the
    minimum, an empty list of nodes succeeds, again with no other call.
    The guard looks at the current size alone, not at the number of
    nodes. *)
Theorem DeleteNodes_size_guard
    (asg : Asg) (nodes : list Node) (size : Z) (m m1 : AwsManager Svc) :
  GetAsgSize asg m = (Ok size, m1) ->
  (size <= MinSize asg ->
   DeleteNodes GenerateAsgUrl asg nodes m = (Err MinSizeReached, m1))
  /\ (MinSize asg < size ->
      DeleteNodes GenerateAsgUrl asg [] m = (Ok tt, m1))
  /\ m1 = mkAwsManager (asgs m) (asgCache m) (service m1)
            (calls m ++ [CallDescribeGroups (Name (asgRef asg)) None]).
Proof.
  intros Hsize. split; [|split].
  - intros Hle. unfold DeleteNodes. rewrite bind_unfold, Hsize.
    destruct (size <=? MinSize asg) eqn:E; [reflexivity|lia].
  - intros Hgt. rewrite (DeleteNodes_run _ _ _ _ _ _ Hsize Hgt). reflexivity.
  - unfold GetAsgSize in Hsize. rewrite bind_unfold in Hsize.
    unfold sdkCall in Hsize.
    destruct (DescribeAutoScalingGroups (Name (asgRef asg)) (service m))
      as [[l|msg] s']; [|discriminate].
    rewrite bind_unfold in Hsize. destruct l as [|[g|] l']; try discriminate.
    cbn [index0] in Hsize. rewrite bind_unfold in Hsize. cbn [deref] in Hsize.
    destruct (DesiredCapacity g); [|discriminate].
    injection Hsize as _ <-. reflexivity.
Qed.

End MoreManager.

(** ** What a refresh asks and what it builds *)

Section MoreRefresh.
Import Aws Spec Laws.

Context {Svc : Type} `{!AutoScalingAPI Svc}.
Variable GenerateAsgUrl : string -> string -> string.

Lemma sdkCall_run {A} (f : Svc -> reply A * Svc) (c : reply A -> Call)
    (m m' : AwsManager Svc) r :
  sdkCall f c m = (r, m') ->
  exists rep s',
    f (service m) = (rep, s')
    /\ m' = mkAwsManager (asgs m) (asgCache m) s' (calls m ++ [c rep])
    /\ r = match rep with
           | Reply a => Ok a
           | Refused msg => Err (BackendError msg)
           end.
Proof.
  unfold sdkCall. destruct (f (service m)) as [rep s']. intros H.
  exists rep, s'. split; [reflexivity|].
  destruct rep; injection H as <- <-; split; reflexivity.
Qed.

Lemma describedGroups_app l1 l2 :
  describedGroups (l1 ++ l2) = describedGroups l1 ++ describedGroups l2.
Proof. apply omap_app. Qed.

Lemma insertAll_snoc g keys k (c : gmap AwsRef Asg) :
  insertAll g (keys ++ [k]) c = <[k := g]> (insertAll g keys c).
Proof. unfold insertAll. rewrite foldl_app. reflexivity. Qed.

Lemma insertAll_cons g keys k (c : gmap AwsRef Asg) :
  insertAll g (k :: keys) c = insertAll g keys (<[k := g]> c).
Proof. reflexivity. Qed.

Lemma insertAll_lookup g keys (c : gmap AwsRef Asg) ref :
  insertAll g keys c !! ref = if decide (ref ∈ keys) then Some g else c !! ref.
Proof.
  revert c. induction keys as [|k keys IH]; intros c.
  - destruct (decide (ref ∈ [])) as [Hin|_]; [inversion Hin|reflexivity].
  - rewrite insertAll_cons, IH.
    destruct (decide (ref ∈ keys)) as [Hin|Hnin].
    + rewrite decide_True; [reflexivity|right; exact Hin].
    + destruct (decide (ref = k)) as [->|Hne].
      * rewrite decide_True; [|left]. apply lookup_insert_eq.
      * rewrite decide_False; [apply lookup_insert_ne; congruence|].
        intros Hin. apply elem_of_cons in Hin as [?|?]; contradiction.
Qed.

(** One run of the inner loop: it logs no describe-groups call, and what
    it returns is the map it was given with some keys set to the group. *)
Lemma regenerateInstances_run asgConfig instances newCache
    (m m' : AwsManager Svc) r :
  regenerateInstances asgConfig instances newCache m = (r, m') ->
  asgs m' = asgs m
  /\ exists new,
       calls m' = calls m ++ new
       /\ describedGroups new = []
       /\ match r with
          | Ok built => exists keys, built = insertAll asgConfig keys newCache
          | _ => True
          end.
Proof.
  revert newCache m. induction instances as [|i rest IH]; intros newCache m H.
  - injection H as <- <-. split; [reflexivity|]. exists [].
    rewrite app_nil_r. repeat split. exists []. reflexivity.
  - cbn [regenerateInstances] in H. rewrite bind_unfold in H.
    destruct i as [[oid]|]; cbn [deref] in H;
      [|injection H as <- <-; split; [reflexivity|]; exists [];
        rewrite app_nil_r; repeat split].
    rewrite bind_unfold in H.
    destruct oid as [id|]; cbn [deref InstanceId] in H;
      [|injection H as <- <-; split; [reflexivity|]; exists [];
        rewrite app_nil_r; repeat split].
    rewrite bind_unfold in H.
    destruct (sdkCall (DescribeAutoScalingInstances id)
                (fun r => CallDescribeInstances id (refusal r)) m)
      as [r1 m1] eqn:Hcall.
    destruct (sdkCall_run _ _ _ _ _ Hcall) as (rep & s' & _ & -> & ->).
    destruct rep as [l|msg];
      [|injection H as <- <-; split; [reflexivity|];
        eexists; split; [reflexivity|]; split; reflexivity].
    rewrite bind_unfold in H.
    destruct l as [|[[ozone]|] l']; cbn [index0] in H;
      try (injection H as <- <-; split; [reflexivity|];
           eexists; split; [reflexivity|]; split; reflexivity).
    rewrite bind_unfold in H. cbn [deref] in H.
    rewrite bind_unfold in H.
    destruct ozone as [zone|]; cbn [deref AvailabilityZone] in H;
      [|injection H as <- <-; split; [reflexivity|];
        eexists; split; [reflexivity|]; split; reflexivity].
    destruct (IH _ _ H) as (Ha & new & Hn & Hd & Hr).
    split; [exact Ha|].
    exists (CallDescribeInstances id None :: new). simpl in *.
    split; [rewrite Hn, <- app_assoc; reflexivity|].
    split; [exact Hd|].
    destruct r as [built| |]; [|exact I|exact I].
    destruct Hr as (keys & ->). exists (mkAwsRef zone id :: keys). reflexivity.
Qed.

(** One run of the outer loop: its describe-groups calls ask for the
    [basename]s of the registered groups, in order, and every entry of the
    map it returns was given to it or belongs to a registered group. *)
Lemma regenerateGroups_run registered newCache (m m' : AwsManager Svc) r :
  regenerateGroups registered newCache m = (r, m') ->
  asgs m' = asgs m
  /\ exists new,
       calls m' = calls m ++ new
       /\ describedGroups new `prefix_of` map basename registered
       /\ match r with
          | Ok built =>
              describedGroups new = map basename registered
              /\ forall ref g, built !! ref = Some g ->
                   g ∈ map config registered \/ newCache !! ref = Some g
          | _ => True
          end.
Proof.
  revert newCache m. induction registered as [|a rest IH]; intros newCache m H.
  - injection H as <- <-. split; [reflexivity|]. exists [].
    rewrite app_nil_r. repeat split; auto.
  - cbn [regenerateGroups] in H. rewrite bind_unfold in H.
    destruct (sdkCall (DescribeAutoScalingGroups (basename a))
                (fun r => CallDescribeGroups (basename a) (refusal r)) m)
      as [r1 m1] eqn:Hcall.
    destruct (sdkCall_run _ _ _ _ _ Hcall) as (rep & s' & _ & -> & ->).
    assert (Hstop : forall (r0 : outcome error (gmap AwsRef Asg)),
               isOk r0 = false ->
               (r0, mkAwsManager (asgs m) (asgCache m) s'
                      (calls m ++ [CallDescribeGroups (basename a) (refusal rep)]))
               = (r, m') ->
               asgs m' = asgs m
               /\ exists new,
                    calls m' = calls m ++ new
                    /\ describedGroups new `prefix_of` map basename (a :: rest)
                    /\ match r with
                       | Ok built =>
                           describedGroups new = map basename (a :: rest)
                           /\ forall ref g, built !! ref = Some g ->
                                g ∈ map config (a :: rest)
                                \/ newCache !! ref = Some g
                       | _ => True
                       end).
    { intros r0 Hr0 Heq. injection Heq as <- <-. split; [reflexivity|].
      eexists. split; [reflexivity|]. simpl.
      split; [apply prefix_cons, prefix_nil|].
      destruct r0; [discriminate|exact I|exact I]. }
    destruct rep as [l|msg]; [|(eapply Hstop; [|exact H]; reflexivity)].
    rewrite bind_unfold in H.
    destruct l as [|[group|] l']; cbn [index0] in H;
      [(eapply Hstop; [|exact H]; reflexivity)| |(eapply Hstop; [|exact H]; reflexivity)].
    rewrite bind_unfold in H. cbn [deref] in H. rewrite bind_unfold in H.
    cbn [refusal] in H.
    destruct (regenerateInstances (config a) (Instances group) newCache
                (mkAwsManager (asgs m) (asgCache m) s'
                   (calls m ++ [CallDescribeGroups (basename a) None])))
      as [[built1|e|p] m2] eqn:Hinst;
      destruct (regenerateInstances_run _ _ _ _ _ _ Hinst)
        as (Ha1 & new1 & Hn1 & Hd1 & Hr1); simpl in Ha1, Hn1.
    + destruct (IH _ _ H) as (Ha2 & new2 & Hn2 & Hp2 & Hr2).
      split; [congruence|].
      exists (CallDescribeGroups (basename a) None :: new1 ++ new2).
      split; [rewrite Hn2, Hn1, <- !app_assoc; reflexivity|].
      simpl. rewrite describedGroups_app, Hd1. simpl.
      split; [apply prefix_cons; exact Hp2|].
      destruct r as [built| |]; [|exact I|exact I].
      destruct Hr2 as [Hnames Hvals]. split; [rewrite Hnames; reflexivity|].
      intros ref g Hg. destruct (Hvals ref g Hg) as [Hin|Hin].
      * left. right. exact Hin.
      * destruct Hr1 as (keys & ->). rewrite insertAll_lookup in Hin.
        case_decide; [injection Hin as <-; left; left|right; exact Hin].
    + injection H as <- <-. split; [exact Ha1|].
      exists (CallDescribeGroups (basename a) None :: new1).
      split; [rewrite Hn1, <- app_assoc; reflexivity|].
      simpl. rewrite Hd1. split; [apply prefix_cons, prefix_nil|exact I].
    + injection H as <- <-. split; [exact Ha1|].
      exists (CallDescribeGroups (basename a) None :: new1).
      split; [rewrite Hn1, <- app_assoc; reflexivity|].
      simpl. rewrite Hd1. split; [apply prefix_cons, prefix_nil|exact I].
Qed.

Lemma regenerateCache_describedGroups (m m' : AwsManager Svc) r new :
  regenerateCache m = (r, m') ->
  callsSince m m' new ->
  describedGroups new `prefix_of` map basename (asgs m)
  /\ (r = Ok tt -> describedGroups new = map basename (asgs m)).
Proof.
  unfold regenerateCache, callsSince. intros H Hnew.
  destruct (regenerateGroups (asgs m) ∅ m) as [r0 m0] eqn:Hg.
  destruct (regenerateGroups_run _ _ _ _ _ Hg) as (_ & new0 & Hn0 & Hp & Hr).
  assert (Hcalls : calls m' = calls m0)
    by (destruct r0; injection H as _ <-; reflexivity).
  assert (new = new0) by (apply (app_inv_head (calls m)); congruence).
  subst new0. split; [exact Hp|].
  intros ->. destruct r0; try discriminate. apply Hr.
Qed.

Lemma runOp_asgs op (m : AwsManager Svc) :
  asgs (runOp GenerateAsgUrl op m) = asgs m
  \/ exists asg, asgs (runOp GenerateAsgUrl op m) = asgs m ++ [registration asg].
Proof.
  assert (Hev : forall m', evolves anyCall m m' -> asgs m' = asgs m)
    by (intros m' (Ha & _); exact Ha).
  destruct op; cbn [runOp];
    [right; eexists; reflexivity|..]; left; apply Hev, Evolves_snd.
  - eapply Evolves_any, GetAsgSize_Evolves.
  - apply SetAsgSize_Evolves.
  - apply DeleteInstances_Evolves.
  - eapply Evolves_any, GetAsgForInstance_Evolves.
  - eapply Evolves_any, regenerateCacheIgnoreError_Evolves.
  - apply IncreaseSize_Evolves.
  - eapply Evolves_any, Belongs_Evolves.
  - apply DeleteNodes_Evolves.
Qed.

Lemma reachable_basenames svc0 (m : AwsManager Svc) :
  reachable GenerateAsgUrl svc0 m ->
  Forall (fun a => basename a = EmptyString) (asgs m).
Proof.
  induction 1 as [|m op _ IH|m s log _ IH].
  - constructor.
  - destruct (runOp_asgs op m) as [->|[asg ->]]; [exact IH|].
    apply Forall_app. split; [exact IH|]. repeat constructor.
  - exact IH.
Qed.

(** X10.  In every state a manager can reach, a refresh never asks the
    backend for a group by its name: [RegisterAsg] leaves [basename]
    unset, so every describe-groups call of the refresh asks for the
    empty name; a refresh that succeeds has made one such call for each
    registered group. *)
Theorem regenerateCache_asks_for_the_empty_name
    svc0 (m m' : AwsManager Svc) r new :
  reachable GenerateAsgUrl svc0 m ->
  regenerateCache m = (r, m') ->
  callsSince m m' new ->
  Forall (fun name => name = EmptyString) (describedGroups new)
  /\ (length (describedGroups new) <= length (asgs m))%nat
  /\ (r = Ok tt -> length (describedGroups new) = length (asgs m)).
Proof.
  intros Hreach Hrun Hnew.
  destruct (regenerateCache_describedGroups _ _ _ _ Hrun Hnew) as [Hp Hok].
  pose proof (reachable_basenames _ _ Hreach) as Hnames.
  assert (Hall : Forall (fun name => name = EmptyString)
                        (map basename (asgs m)))
    by (apply Forall_fmap; exact Hnames).
  split; [|split].
  - destruct Hp as [k Hk]. rewrite Hk in Hall.
    apply Forall_app in Hall as [Hall _]. exact Hall.
  - apply prefix_length in Hp. rewrite length_map in Hp. exact Hp.
  - intros Hr. rewrite (Hok Hr), length_map. reflexivity.
Qed.

Lemma isSnapshot_values l (c : gmap AwsRef Asg) ref g :
  isSnapshot (Svc:=Svc) l c -> c !! ref = Some g -> g ∈ map config l.
Proof.
  intros (m0 & m1 & Hp & Hr & <-) Hg.
  destruct (regenerateCache_run _ _ _ Hr) as (_ & _ & m2 & Hgroups & _).
  destruct (regenerateGroups_run _ _ _ _ _ Hgroups) as (_ & new & _ & _ & _ & Hv).
  destruct (Hv _ _ Hg) as [Hin|Hin]; [|rewrite lookup_empty in Hin; discriminate].
  destruct Hp as [k ->]. rewrite map_app. apply elem_of_app. left. exact Hin.
Qed.

(** X11.  In every state a manager can reach, the cache maps instances to
    registered groups only, and so every group a lookup returns is one of
    the groups registered with the manager. *)
Theorem GetAsgForInstance_returns_registered_groups
    svc0 (m : AwsManager Svc) :
  reachable GenerateAsgUrl svc0 m ->
  (forall ref g, asgCache m !! ref = Some g -> g ∈ map config (asgs m))
  /\ (forall instance g m',
        GetAsgForInstance instance m = (Ok (Some g), m') ->
        g ∈ map config (asgs m)).
Proof.
  intros Hreach. split.
  - intros ref g Hg.
    eapply isSnapshot_values; [|exact Hg].
    eapply reachable_whole. exact Hreach.
  - intros instance g m' Hget.
    destruct (GetAsgForInstance_Evolves _ _ _ _ Hget) as (Ha & _).
    rewrite <- Ha.
    eapply isSnapshot_values;
      [|eapply GetAsgForInstance_found; exact Hget].
    replace m' with (runOp GenerateAsgUrl (OpGetAsgForInstance instance) m)
      by (simpl; rewrite Hget; reflexivity).
    eapply reachable_whole. apply reach_op. exact Hreach.
Qed.

(** X12.  A lookup refreshes the cache at most once: a hit, and a miss in
    a zone of no registered group, leave the manager as it is; a miss in
    the zone of a registered group runs [regenerateCache] once, however
    many registered groups lie in that zone.  So a lookup makes describe
    calls only, and at most one describe-groups call for each registered
    group. *)
Theorem GetAsgForInstance_refreshes_at_most_once
    (instance : AwsRef) (m : AwsManager Svc) :
  snd (GetAsgForInstance instance m)
  = match asgCache m !! instance with
    | Some _ => m
    | None =>
        if zoneConfigured instance m then snd (regenerateCache m) else m
    end
  /\ exists new,
       callsSince m (snd (GetAsgForInstance instance m)) new
       /\ forallb isDescribe new = true
       /\ describedGroups new `prefix_of` map basename (asgs m).
Proof.
  assert (Hstate : snd (GetAsgForInstance instance m)
            = match asgCache m !! instance with
              | Some _ => m
              | None =>
                  if zoneConfigured instance m
                  then snd (regenerateCache m) else m
              end).
  { rewrite GetAsgForInstance_cases.
    destruct (asgCache m !! instance); [reflexivity|].
    destruct (zoneConfigured instance m); [|reflexivity].
    unfold refreshAndFind.
    destruct (regenerateCache m) as [[[]|e|p] m1]; try reflexivity.
    simpl. destruct (asgCache m1 !! instance); reflexivity. }
  split; [exact Hstate|]. rewrite Hstate.
  assert (Hsame : exists new, callsSince m m new
                    /\ forallb isDescribe new = true
                    /\ describedGroups new `prefix_of` map basename (asgs m)).
  { exists []. unfold callsSince. rewrite app_nil_r.
    repeat split. apply prefix_nil. }
  destruct (asgCache m !! instance); [exact Hsame|].
  destruct (zoneConfigured instance m); [|exact Hsame].
  destruct (regenerateCache m) as [r m1] eqn:Hr.
  destruct (regenerateCache_Evolves _ _ _ Hr) as (_ & _ & new & Hn & Hd).
  exists new. simpl. split; [exact Hn|]. split; [exact Hd|].
  apply (regenerateCache_describedGroups _ _ _ _ Hr Hn).
Qed.

(** *** Against a backend whose describe calls only read *)

Section ReadOnly.

Hypothesis groups_read_only :
  forall name (s : Svc), snd (DescribeAutoScalingGroups name s) = s.
Hypothesis details_read_only :
  forall id (s : Svc), snd (DescribeAutoScalingInstances id s) = s.

Variable s : Svc.

Lemma ReadsOnly_bind {A B} (c : M Svc A) (f : A -> M Svc B) :
  ReadsOnly s c -> (forall a, ReadsOnly s (f a)) -> ReadsOnly s (c ≫= f).
Proof.
  intros [r Hc] Hf. destruct r as [a|e|p].
  - destruct (Hf a) as [r' Hfa]. exists r'. intros m Hm.
    rewrite bind_unfold. destruct (Hc m Hm) as [Hr Hs].
    destruct (c m) as [r1 m1]. simpl in Hr, Hs. subst r1. apply Hfa, Hs.
  - exists (Err e). intros m Hm.
    rewrite bind_unfold. destruct (Hc m Hm) as [Hr Hs].
    destruct (c m) as [r1 m1]. simpl in Hr, Hs. subst r1. split; [reflexivity|exact Hs].
  - exists (Panic p). intros m Hm.
    rewrite bind_unfold. destruct (Hc m Hm) as [Hr Hs].
    destruct (c m) as [r1 m1]. simpl in Hr, Hs. subst r1. split; [reflexivity|exact Hs].
Qed.

Lemma ReadsOnly_pure {A} (c : M Svc A) r :
  (forall m, c m = (r, m)) -> ReadsOnly s c.
Proof. intros Hr. exists r. intros m Hm. rewrite Hr. split; [reflexivity|exact Hm]. Qed.

Lemma ReadsOnly_describeGroups name :
  ReadsOnly s (sdkCall (DescribeAutoScalingGroups name)
                 (fun r => CallDescribeGroups name (refusal r))).
Proof using groups_read_only.
  exists (match fst (DescribeAutoScalingGroups name s) with
          | Reply a => Ok a
          | Refused msg => Err (BackendError msg)
          end).
  intros m Hm. unfold sdkCall. rewrite Hm.
  pose proof (groups_read_only name s) as Hs.
  destruct (DescribeAutoScalingGroups name s) as [rep s']. simpl in Hs. subst s'.
  destruct rep; split; reflexivity.
Qed.

Lemma ReadsOnly_index0 {A} (xs : list A) : ReadsOnly s (index0 (Svc:=Svc) xs).
Proof.
  unfold index0.
  destruct xs as [|x xs];
    [apply (ReadsOnly_pure _ (Panic IndexOutOfRange))
    |apply (ReadsOnly_pure _ (Ok x))]; reflexivity.
Qed.

Lemma ReadsOnly_deref {A} (p : option A) : ReadsOnly s (deref (Svc:=Svc) p).
Proof.
  unfold deref.
  destruct p as [x|];
    [apply (ReadsOnly_pure _ (Ok x))
    |apply (ReadsOnly_pure _ (Panic NilPointerDereference))]; reflexivity.
Qed.

(** The inner loop: whether it succeeds, and the keys it writes, depend
    on the instances listed and on the service state only. *)
Lemma regenerateInstances_reads instances :
  exists out : outcome error (list AwsRef),
    forall g c (m : AwsManager Svc), service m = s ->
      fst (regenerateInstances g instances c m)
      = match out with
        | Ok keys => Ok (insertAll g keys c)
        | Err e => Err e
        | Panic p => Panic p
        end
      /\ service (snd (regenerateInstances g instances c m)) = s.
Proof using details_read_only.
  induction instances as [|i rest [out IH]].
  - exists (Ok []). intros g c m Hm. split; [reflexivity|exact Hm].
  - destruct i as [[oid]|].
    2:{ exists (Panic NilPointerDereference). intros g c m Hm.
        cbn [regenerateInstances]. rewrite bind_unfold. cbn [deref].
        split; [reflexivity|exact Hm]. }
    destruct oid as [id|].
    2:{ exists (Panic NilPointerDereference). intros g c m Hm.
        cbn [regenerateInstances]. rewrite bind_unfold. cbn [deref].
        rewrite bind_unfold. cbn [deref InstanceId].
        split; [reflexivity|exact Hm]. }
    pose proof (details_read_only id s) as Hs.
    destruct (DescribeAutoScalingInstances id s) as [rep s'] eqn:Hd.
    simpl in Hs. subst s'.
    assert (Hstart : forall g c (m : AwsManager Svc), service m = s ->
               regenerateInstances g (Some (mkInstance (Some id)) :: rest) c m
               = match rep with
                 | Reply resp =>
                     (first ← index0 resp;
                      details ← deref first;
                      zone ← deref (AvailabilityZone details);
                      regenerateInstances g rest (<[mkAwsRef zone id := g]> c))
                       (mkAwsManager (asgs m) (asgCache m) s
                          (calls m ++ [CallDescribeInstances id (refusal rep)]))
                 | Refused msg =>
                     (Err (BackendError msg),
                      mkAwsManager (asgs m) (asgCache m) s
                        (calls m ++ [CallDescribeInstances id (refusal rep)]))
                 end).
    { intros g c m Hm. cbn [regenerateInstances]. rewrite bind_unfold.
      cbn [deref]. rewrite bind_unfold. cbn [deref InstanceId].
      rewrite bind_unfold. unfold sdkCall. rewrite Hm, Hd.
      destruct rep; reflexivity. }
    destruct rep as [resp|msg].
    2:{ exists (Err (BackendError msg)). intros g c m Hm.
        rewrite (Hstart g c m Hm). split; reflexivity. }
    destruct resp as [|first resp'].
    { exists (Panic IndexOutOfRange). intros g c m Hm.
      rewrite (Hstart g c m Hm). rewrite bind_unfold. cbn [index0].
      split; reflexivity. }
    destruct first as [[ozone]|].
    2:{ exists (Panic NilPointerDereference). intros g c m Hm.
        rewrite (Hstart g c m Hm). rewrite bind_unfold. cbn [index0].
        rewrite bind_unfold. cbn [deref]. split; reflexivity. }
    destruct ozone as [zone|].
    2:{ exists (Panic NilPointerDereference). intros g c m Hm.
        rewrite (Hstart g c m Hm). rewrite bind_unfold. cbn [index0].
        rewrite bind_unfold. cbn [deref]. rewrite bind_unfold.
        cbn [deref AvailabilityZone]. split; reflexivity. }
    exists (match out with
            | Ok keys => Ok (mkAwsRef zone id :: keys)
            | Err e => Err e
            | Panic p => Panic p
            end).
    intros g c m Hm.
    rewrite (Hstart g c m Hm). rewrite bind_unfold. cbn [index0].
    rewrite bind_unfold. cbn [deref]. rewrite bind_unfold.
    cbn [deref AvailabilityZone].
    match goal with
    | |- context [regenerateInstances g rest ?c0 ?m0] =>
        destruct (IH g c0 m0 eq_refl) as [Hr Hsvc]
    end.
    split; [|exact Hsvc]. rewrite Hr. destruct out; reflexivity.
Qed.

Lemma regenerateInstances_ReadsOnly g instances c :
  ReadsOnly s (regenerateInstances g instances c).
Proof using details_read_only.
  destruct (regenerateInstances_reads instances) as [out H].
  eexists. intros m Hm. exact (H g c m Hm).
Qed.

Lemma regenerateGroups_ReadsOnly registered newCache :
  ReadsOnly s (regenerateGroups registered newCache).
Proof using groups_read_only details_read_only.
  revert newCache. induction registered as [|a rest IH]; intros newCache;
    cbn [regenerateGroups].
  - apply (ReadsOnly_pure _ (Ok newCache)). reflexivity.
  - apply ReadsOnly_bind; [apply ReadsOnly_describeGroups|intros groups].
    apply ReadsOnly_bind; [apply ReadsOnly_index0|intros first].
    apply ReadsOnly_bind; [apply ReadsOnly_deref|intros group].
    apply ReadsOnly_bind; [apply regenerateInstances_ReadsOnly|intros built].
    apply IH.
Qed.

Lemma regenerateCache_again (m m1 m2 : AwsManager Svc) :
  service m = s -> service m2 = s ->
  regenerateCache m = (Ok tt, m1) ->
  asgs m2 = asgs m ->
  exists m2', regenerateCache m2 = (Ok tt, m2') /\ asgCache m2' = asgCache m1.
Proof using groups_read_only details_read_only.
  unfold regenerateCache. intros Hm Hm2 H Ha. rewrite Ha.
  destruct (regenerateGroups_ReadsOnly (asgs m) ∅) as [r Hr].
  destruct (Hr m Hm) as [H1 _]. destruct (Hr m2 Hm2) as [H2 _].
  destruct (regenerateGroups (asgs m) ∅ m) as [[built|e|p] m0];
    try discriminate.
  destruct (regenerateGroups (asgs m) ∅ m2) as [r2 m0'].
  simpl in H1, H2. subst r r2. injection H as <-.
  eexists. split; reflexivity.
Qed.

(** With one [basename] for all groups, every group writes the same keys. *)
Lemma regenerateGroups_reads b :
  exists out : outcome error (list AwsRef),
    forall registered, Forall (fun a => basename a = b) registered ->
    forall c (m : AwsManager Svc), service m = s ->
      fst (regenerateGroups registered c m)
      = match registered with
        | [] => Ok c
        | _ :: _ =>
            match out with
            | Ok keys => Ok (spread keys registered c)
            | Err e => Err e
            | Panic p => Panic p
            end
        end
      /\ service (snd (regenerateGroups registered c m)) = s.
Proof using groups_read_only details_read_only.
  pose proof (groups_read_only b s) as Hs.
  destruct (DescribeAutoScalingGroups b s) as [rep s'] eqn:Hd.
  simpl in Hs. subst s'.
  assert (Hstart : forall a rest c (m : AwsManager Svc),
             basename a = b -> service m = s ->
             regenerateGroups (a :: rest) c m
             = match rep with
               | Reply groups =>
                   (first ← index0 groups;
                    group ← deref first;
                    newCache' ← regenerateInstances (config a)
                                  (Instances group) c;
                    regenerateGroups rest newCache')
                     (mkAwsManager (asgs m) (asgCache m) s
                        (calls m ++ [CallDescribeGroups b (refusal rep)]))
               | Refused msg =>
                   (Err (BackendError msg),
                    mkAwsManager (asgs m) (asgCache m) s
                      (calls m ++ [CallDescribeGroups b (refusal rep)]))
               end).
  { intros a rest c m Ha Hm. cbn [regenerateGroups]. rewrite bind_unfold.
    unfold sdkCall. rewrite Ha, Hm, Hd. destruct rep; reflexivity. }
  destruct rep as [groups|msg].
  2:{ exists (Err (BackendError msg)).
      intros registered Hall c m Hm. destruct Hall as [|a rest Ha Hrest].
      - split; [reflexivity|exact Hm].
      - rewrite (Hstart a rest c m Ha Hm). split; reflexivity. }
  destruct groups as [|first groups'].
  { exists (Panic IndexOutOfRange).
    intros registered Hall c m Hm. destruct Hall as [|a rest Ha Hrest].
    - split; [reflexivity|exact Hm].
    - rewrite (Hstart a rest c m Ha Hm). rewrite bind_unfold. cbn [index0].
      split; reflexivity. }
  destruct first as [group|].
  2:{ exists (Panic NilPointerDereference).
      intros registered Hall c m Hm. destruct Hall as [|a rest Ha Hrest].
      - split; [reflexivity|exact Hm].
      - rewrite (Hstart a rest c m Ha Hm). rewrite bind_unfold. cbn [index0].
        rewrite bind_unfold. cbn [deref]. split; reflexivity. }
  destruct (regenerateInstances_reads (Instances group)) as [out Hinst].
  exists out. intros registered Hall.
  induction Hall as [|a rest Ha Hrest IH]; intros c m Hm.
  - split; [reflexivity|exact Hm].
  - rewrite (Hstart a rest c m Ha Hm). rewrite bind_unfold. cbn [index0].
    rewrite bind_unfold. cbn [deref]. rewrite bind_unfold.
    match goal with
    | |- context [regenerateInstances ?g ?i ?c0 ?m0] =>
        destruct (Hinst g c0 m0 eq_refl) as [Hr Hsvc];
        destruct (regenerateInstances g i c0 m0) as [r1 m1]
    end.
    simpl in Hr, Hsvc. subst r1.
    destruct out as [keys|e|p]; [|split; [reflexivity|exact Hsvc]..].
    destruct (IH (insertAll (config a) keys c) m1 Hsvc) as [Hr' Hsvc'].
    split; [|exact Hsvc']. rewrite Hr'.
    destruct rest; reflexivity.
Qed.

Lemma spread_other keys (registered : list asgInformation)
    (c : gmap AwsRef Asg) ref :
  ref ∉ keys -> spread keys registered c !! ref = c !! ref.
Proof.
  intros Hnot. unfold spread. revert c.
  induction registered as [|a rest IH]; intros c.
  - reflexivity.
  - simpl. rewrite IH, insertAll_lookup. rewrite decide_False; auto.
Qed.

Lemma regenerateGroups_last_wins init last (m m' : AwsManager Svc) built :
  service m = s ->
  Forall (fun a => basename a = EmptyString) (init ++ [last]) ->
  regenerateGroups (init ++ [last]) ∅ m = (Ok built, m') ->
  forall ref g, built !! ref = Some g -> g = config last.
Proof using groups_read_only details_read_only.
  intros Hm Hall H ref g Hg.
  destruct (regenerateGroups_reads EmptyString) as [out Hout].
  destruct (Hout _ Hall ∅ m Hm) as [Hr _]. rewrite H in Hr. cbn [fst] in Hr.
  destruct (init ++ [last]) as [|a rest] eqn:Hl;
    [destruct init; discriminate|].
  destruct out as [keys|e|p]; try discriminate.
  assert (Hb : built = spread keys (a :: rest) ∅) by congruence.
  rewrite Hb, <- Hl in Hg. unfold spread in Hg.
  rewrite foldl_app in Hg. simpl in Hg. rewrite insertAll_lookup in Hg.
  destruct (decide (ref ∈ keys)) as [Hin|Hnot].
  - injection Hg as <-. reflexivity.
  - fold (spread keys init ∅) in Hg.
    rewrite spread_other, lookup_empty in Hg by exact Hnot.
    discriminate.
Qed.

End ReadOnly.

(** X13.  Against a backend whose describe calls only read, any group
    registered last takes every instance: a refresh asks the same question
    (the empty group name) for each registered group, so it lists the
    same instances for each and writes them for each group in turn.
    After a refresh that succeeds, every instance in the cache is mapped
    to the group that was registered last. *)
Theorem regenerateCache_maps_all_to_last_group
    svc0 (m m' : AwsManager Svc) init last :
  ReadOnlyDescribes (Svc:=Svc) ->
  reachable GenerateAsgUrl svc0 m ->
  asgs m = init ++ [last] ->
  regenerateCache m = (Ok tt, m') ->
  forall ref g, asgCache m' !! ref = Some g -> g = config last.
Proof.
  intros (HG & HD) Hreach Hasgs Hrun ref g Hg.
  pose proof (reachable_basenames _ _ Hreach) as Hnames. rewrite Hasgs in Hnames.
  destruct (regenerateCache_run _ _ _ Hrun) as (_ & _ & m1 & Hgroups & _).
  rewrite Hasgs in Hgroups.
  exact (regenerateGroups_last_wins HG HD (service m)
           _ _ _ _ _ eq_refl Hnames Hgroups ref g Hg).
Qed.

(** X14.  Against a backend whose describe calls only read, a refresh
    that succeeds leaves the backend as it found it, and the refresh run
    again right after it succeeds again and builds the same cache. *)
Theorem regenerateCache_idempotent (m m1 : AwsManager Svc) :
  ReadOnlyDescribes (Svc:=Svc) ->
  regenerateCache m = (Ok tt, m1) ->
  service m1 = service m
  /\ exists m2,
       regenerateCache m1 = (Ok tt, m2)
       /\ asgCache m2 = asgCache m1
       /\ service m2 = service m.
Proof.
  intros (HG & HD) Hrun.
  assert (Hkeeps : forall (m0 m0' : AwsManager Svc),
             regenerateCache m0 = (Ok tt, m0') ->
             asgs m0' = asgs m0 /\ service m0' = service m0).
  { intros m0 m0' H0.
    destruct (regenerateCache_run _ _ _ H0) as (Ha & _ & m0'' & Hgroups & Heq).
    split; [exact Ha|].
    destruct (regenerateGroups_ReadsOnly HG HD (service m0) (asgs m0) ∅)
      as [r Hr].
    destruct (Hr m0 eq_refl) as [_ Hs]. rewrite Hgroups in Hs.
    rewrite Heq. exact Hs. }
  destruct (Hkeeps _ _ Hrun) as [Hasgs Hsvc].
  split; [exact Hsvc|].
  destruct (regenerateCache_again HG HD (service m) m m1 m1 eq_refl Hsvc
              Hrun Hasgs) as (m2 & Hagain & Hcache).
  exists m2. split; [exact Hagain|]. split; [exact Hcache|].
  destruct (Hkeeps _ _ Hagain) as [_ Hsvc2]. congruence.
Qed.

End MoreRefresh.

(** ** The loops of the scale-up engine *)

Section MoreEngine.
Import Provider Engine EngineLaws.

Context {W E Pod KNode NodeInfo Est NG P : Type}.
Context `{!EqDecision Pod}.
Context `{!NodeGroup W E KNode NG} `{!Provider.Provider W E KNode NG P}.
Context `{!Estimator Pod KNode Est} `{!Simulator W E Pod KNode NodeInfo}.

Variable BestExpansionOption :
  list (ExpansionOption Est NG) -> option (ExpansionOption Est NG).
Variable recordEvent : Event Pod NG -> W -> W.

Lemma markUnschedulable_NoDup (pod : Pod) remain :
  NoDup remain -> NoDup (markUnschedulable pod remain).
Proof.
  intros Hnd. unfold markUnschedulable.
  destruct (decide (pod ∈ remain)) as [Hin|Hnot]; [exact Hnd|].
  apply NoDup_app. split; [exact Hnd|]. split.
  - intros x Hx Hx'. apply list_elem_of_singleton in Hx'. subst x. contradiction.
  - apply NoDup_singleton.
Qed.

Lemma markUnschedulable_elem (pod : Pod) remain p :
  p ∈ markUnschedulable pod remain <-> p = pod \/ p ∈ remain.
Proof.
  unfold markUnschedulable.
  destruct (decide (pod ∈ remain)) as [Hin|Hnot].
  - split; [auto|]. intros [->|?]; assumption.
  - rewrite elem_of_app, list_elem_of_singleton. tauto.
Qed.

(** The loop over the pods for one group: the estimator is fed the pods
    that pass the predicates, in order; the group helps when it started
    out helping or one pod passed; the set of remaining pods only grows,
    by pods of the list, and stays free of duplicates. *)
Lemma tryPods_run (group : NG) (pods : list Pod) est helps remain (w : W) :
  exists fitting est' helps' remain' w',
    tryPods group pods est helps remain w = (est', helps', remain', w')
    /\ sublist fitting pods
    /\ est' = foldl Add est fitting
    /\ (helps' = true <-> helps = true \/ fitting <> [])
    /\ (NoDup remain -> NoDup remain')
    /\ (forall p, p ∈ remain' -> p ∈ remain \/ p ∈ pods)
    /\ (forall p, p ∈ remain -> p ∈ remain').
Proof.
  revert est helps remain w.
  induction pods as [|pod rest IH]; intros est helps remain w.
  - exists [], est, helps, remain, w. simpl.
    repeat split; auto; try tauto; try (intros [?|?]; congruence).
  - cbn [tryPods].
    destruct (BuildNodeInfoForNode (GetSampleNode group) w)
      as [[nodeInfo|err] w1].
    + destruct (CheckPredicates pod nodeInfo) as [err|].
      * destruct (IH est helps (markUnschedulable pod remain) w1)
          as (fitting & est' & helps' & remain' & w' & Hrun & Hsub & Hest
              & Hhelps & Hnd & Hfrom & Hkeep).
        exists fitting, est', helps', remain', w'.
        split; [exact Hrun|]. split; [apply sublist_cons; exact Hsub|].
        split; [exact Hest|]. split; [exact Hhelps|].
        split; [intros Hr; apply Hnd, markUnschedulable_NoDup, Hr|].
        split.
        -- intros p Hp. destruct (Hfrom p Hp) as [Hin|Hin].
           ++ apply markUnschedulable_elem in Hin as [->|Hin];
                [right; left|left; exact Hin].
           ++ right. right. exact Hin.
        -- intros p Hp. apply Hkeep, markUnschedulable_elem. right. exact Hp.
      * destruct (IH (Add est pod) true remain w1)
          as (fitting & est' & helps' & remain' & w' & Hrun & Hsub & Hest
              & Hhelps & Hnd & Hfrom & Hkeep).
        exists (pod :: fitting), est', helps', remain', w'.
        split; [exact Hrun|]. split; [apply sublist_skip; exact Hsub|].
        split; [exact Hest|].
        split.
        { split; [intros _; right; discriminate|].
          intros _. apply Hhelps. left. reflexivity. }
        split; [exact Hnd|].
        split; [|exact Hkeep].
        intros p Hp. destruct (Hfrom p Hp) as [Hin|Hin];
          [left; exact Hin|right; right; exact Hin].
    + destruct (IH est helps remain w1)
        as (fitting & est' & helps' & remain' & w' & Hrun & Hsub & Hest
            & Hhelps & Hnd & Hfrom & Hkeep).
      exists fitting, est', helps', remain', w'.
      split; [exact Hrun|]. split; [apply sublist_cons; exact Hsub|].
      split; [exact Hest|]. split; [exact Hhelps|].
      split; [exact Hnd|].
      split; [|exact Hkeep].
      intros p Hp. destruct (Hfrom p Hp) as [Hin|Hin];
        [left; exact Hin|right; right; exact Hin].
Qed.

(** The loop over the node groups. *)
Lemma tryGroups_run (pods : list Pod) (groups : list NG) options remain (w : W) :
  exists added remain' w',
    tryGroups pods groups options remain w = (options ++ added, remain', w')
    /\ sublist (map nodeGroup added) groups
    /\ Forall (wellFed pods) added
    /\ (NoDup remain -> NoDup remain')
    /\ (forall p, p ∈ remain' -> p ∈ remain \/ p ∈ pods)
    /\ (forall p, p ∈ remain -> p ∈ remain').
Proof.
  revert options remain w.
  induction groups as [|group rest IH]; intros options remain w.
  - exists [], remain, w. cbn [tryGroups]. rewrite app_nil_r.
    repeat split; auto; try constructor.
  - cbn [tryGroups].
    destruct (IsScaleUpPossible group w) as [[[|]|err] w1].
    + destruct (tryPods_run group pods NewBasicNodeEstimator false remain w1)
        as (fitting & est' & helps' & remain1 & w2 & Hrun & Hsub & Hest
            & Hhelps & Hnd & Hfrom & Hkeep).
      rewrite Hrun.
      destruct helps'.
      * destruct (IH (options ++ [mkExpansionOption group est']) remain1 w2)
          as (added & remain' & w' & Hrest & Hsub' & Hfed & Hnd' & Hfrom'
              & Hkeep').
        exists (mkExpansionOption group est' :: added), remain', w'.
        split; [rewrite Hrest, <- app_assoc; reflexivity|].
        split; [cbn [map nodeGroup]; apply sublist_skip; exact Hsub'|].
        split.
        { constructor; [|exact Hfed].
          exists fitting. split.
          - destruct (proj1 Hhelps eq_refl) as [?|?]; [discriminate|assumption].
          - split; [exact Hsub|exact Hest]. }
        split; [intros Hr; apply Hnd', Hnd, Hr|].
        split; [|intros p Hp; apply Hkeep', Hkeep, Hp].
        intros p Hp. destruct (Hfrom' p Hp) as [Hin|Hin]; [|right; exact Hin].
        apply Hfrom, Hin.
      * destruct (IH options remain1 w2)
          as (added & remain' & w' & Hrest & Hsub' & Hfed & Hnd' & Hfrom'
              & Hkeep').
        exists added, remain', w'.
        split; [exact Hrest|].
        split; [apply sublist_cons; exact Hsub'|].
        split; [exact Hfed|].
        split; [intros Hr; apply Hnd', Hnd, Hr|].
        split; [|intros p Hp; apply Hkeep', Hkeep, Hp].
        intros p Hp. destruct (Hfrom' p Hp) as [Hin|Hin]; [|right; exact Hin].
        apply Hfrom, Hin.
    + destruct (IH options remain w1)
        as (added & remain' & w' & Hrest & Hsub' & Hfed & Hnd' & Hfrom'
            & Hkeep').
      exists added, remain', w'.
      split; [exact Hrest|]. split; [apply sublist_cons; exact Hsub'|].
      split; [exact Hfed|]. split; [exact Hnd'|]. split; assumption.
    + destruct (IH options remain w1)
        as (added & remain' & w' & Hrest & Hsub' & Hfed & Hnd' & Hfrom'
            & Hkeep').
      exists added, remain', w'.
      split; [exact Hrest|]. split; [apply sublist_cons; exact Hsub'|].
      split; [exact Hfed|]. split; [exact Hnd'|]. split; assumption.
Qed.

(** X15.  The expansion options the loop over the node groups gathers
    are for node groups of the list, each at most once per occurrence and
    in the order of the list, and the estimator of each was fed, from
    fresh, a non-empty selection of the unschedulable pods in their
    order. *)
Theorem tryGroups_options_follow_the_groups
    (pods : list Pod) (groups : list NG) (w : W) :
  exists options remain w',
    tryGroups pods groups [] [] w = (options, remain, w')
    /\ sublist (map nodeGroup options) groups
    /\ Forall (wellFed pods) options.
Proof.
  destruct (tryGroups_run pods groups [] [] w)
    as (added & remain' & w' & Hrun & Hsub & Hfed & _).
  exists added, remain', w'. auto.
Qed.

(** X16.  The pods the loop over the node groups leaves as remaining
    unschedulable are pods of the cycle, each once; without a node group
    that can scale up no pod is left as remaining. *)
Theorem tryGroups_remaining_pods
    (pods : list Pod) (groups : list NG) (w : W) :
  exists options remain w',
    tryGroups pods groups [] [] w = (options, remain, w')
    /\ NoDup remain
    /\ (forall p, p ∈ remain -> p ∈ pods)
    /\ ((forall g w1, g ∈ groups -> fst (IsScaleUpPossible g w1) <> Success true)
        -> remain = []).
Proof.
  destruct (tryGroups_run pods groups [] [] w)
    as (added & remain' & w' & Hrun & _ & _ & Hnd & Hfrom & _).
  exists added, remain', w'.
  split; [exact Hrun|]. split; [apply Hnd, NoDup_nil_2|].
  split.
  - intros p Hp. destruct (Hfrom p Hp) as [Hin|Hin]; [|exact Hin].
    apply elem_of_nil in Hin. contradiction.
  - intros Hnone. clear -Hrun Hnone.
    assert (Hgen : forall options w,
               snd (fst (tryGroups pods groups options [] w)) = []).
    { clear Hrun. induction groups as [|g rest IH]; intros o w0.
      - reflexivity.
      - cbn [tryGroups].
        pose proof (Hnone g w0 (list_elem_of_here _ _)) as Hg.
        destruct (IsScaleUpPossible g w0) as [[[|]|err] w1].
        + exfalso. apply Hg. reflexivity.
        + apply IH. intros g' wg Hin. apply Hnone. right. exact Hin.
        + apply IH. intros g' wg Hin. apply Hnone. right. exact Hin. }
    specialize (Hgen [] w). rewrite Hrun in Hgen. exact Hgen.
Qed.

Lemma resizeBestOption_outcomes options remain (w2 : W) r (w' : W) :
  resizeBestOption BestExpansionOption recordEvent options remain w2 = (r, w') ->
  match BestExpansionOption options with
  | None => r = Success false
            /\ w' = recordAll recordEvent (map NotTriggerScaleUp remain) w2
  | Some best =>
      if GetCount (estimator best) >? 0 then
        exists b3 w3,
          BuildNodeInfoForNode (GetSampleNode (nodeGroup best)) w2 = (b3, w3)
          /\ match b3 with
             | Failure err => r = Failure (Passed err) /\ w' = w3
             | Success nodeInfo =>
                 exists s4 w4,
                   GetCurrentSize (nodeGroup best) w3 = (s4, w4)
                   /\ match s4 with
                      | Failure err =>
                          r = Failure (ErrorGettingNodeGroupSize err) /\ w' = w4
                      | Success currentSize =>
                          let estimate :=
                            fst (Estimate (estimator best)
                                          (NodeInfoNode nodeInfo)) in
                          exists r5 w5,
                            SetSize (nodeGroup best) estimate w4 = (r5, w5)
                            /\ match r5 with
                               | Failure err =>
                                   r = Failure (Passed err) /\ w' = w5
                               | Success _ =>
                                   r = Success true
                                   /\ w' = recordAll recordEvent
                                        (map (fun pod =>
                                                TriggeredScaleUp pod
                                                  (nodeGroup best) currentSize
                                                  (GoInt.add currentSize estimate))
                                             (FittingPods (estimator best)))
                                        w5
                               end
                      end
             end
      else r = Success false
           /\ w' = recordAll recordEvent (map NotTriggerScaleUp remain) w2
  end.
Proof.
  unfold resizeBestOption, noScaleUp.
  destruct (BestExpansionOption options) as [best|].
  - destruct (GetCount (estimator best) >? 0).
    + destruct (BuildNodeInfoForNode (GetSampleNode (nodeGroup best)) w2)
        as [[nodeInfo|err] w3].
      * destruct (Estimate (estimator best) (NodeInfoNode nodeInfo))
          as [estimate report] eqn:Hest.
        destruct (GetCurrentSize (nodeGroup best) w3) as [[size|err] w4] eqn:Hs.
        -- destruct (SetSize (nodeGroup best) estimate w4) as [[[]|err] w5] eqn:H5;
             intros Hr; injection Hr as <- <-;
             eexists _, _; (split; [reflexivity|]);
             eexists _, _; (split; [exact Hs|]); rewrite Hest; cbn [fst];
             eexists _, _; (split; [exact H5|]); split; reflexivity.
        -- intros Hr; injection Hr as <- <-.
           eexists _, _; (split; [reflexivity|]).
           eexists _, _; (split; [exact Hs|]). split; reflexivity.
      * intros Hr; injection Hr as <- <-.
        eexists _, _; (split; [reflexivity|]). split; reflexivity.
    + intros Hr; injection Hr as <- <-. split; reflexivity.
  - intros Hr; injection Hr as <- <-. split; reflexivity.
Qed.

(** X17.  [ScaleUp] reports a scale-up only after the best option, of
    positive count, had its node group's size read and [SetSize] on that
    group succeeded with the estimate; the events it then records are the
    scale-up events of the option's fitting pods, with the size read and
    its wrapped sum with the estimate. *)
Theorem ScaleUp_true_only_after_SetSize
    pods nodes (provider : P) (w w' : W) :
  ScaleUp BestExpansionOption recordEvent pods nodes provider w
    = (Success true, w') ->
  exists remain w2 best nodeInfo w3 currentSize w4 w5,
    picked BestExpansionOption pods nodes provider w remain w2 best
    /\ BuildNodeInfoForNode (GetSampleNode (nodeGroup best)) w2
       = (Success nodeInfo, w3)
    /\ GetCurrentSize (nodeGroup best) w3 = (Success currentSize, w4)
    /\ let estimate :=
         fst (Estimate (estimator best) (NodeInfoNode nodeInfo)) in
       SetSize (nodeGroup best) estimate w4 = (Success tt, w5)
       /\ w' = recordAll recordEvent
                 (map (fun pod =>
                         TriggeredScaleUp pod (nodeGroup best) currentSize
                           (GoInt.add currentSize estimate))
                      (FittingPods (estimator best)))
                 w5.
Proof.
  unfold ScaleUp. destruct pods as [|pod pods]; [discriminate|].
  destruct (GetNodeGroups provider nodes w) as [[groups|err] w1] eqn:Hg;
    [|discriminate].
  destruct (tryGroups (pod :: pods) groups [] [] w1)
    as [[options remain] w2] eqn:Hloop.
  intros Hr. apply resizeBestOption_outcomes in Hr.
  destruct (BestExpansionOption options) as [best|] eqn:Hbest;
    [|destruct Hr; discriminate].
  destruct (GetCount (estimator best) >? 0) eqn:Hcount;
    [|destruct Hr; discriminate].
  destruct Hr as (b3 & w3 & H3 & Hr).
  destruct b3 as [nodeInfo|err]; [|destruct Hr; discriminate].
  destruct Hr as (s4 & w4 & H4 & Hr).
  destruct s4 as [size|err]; [|destruct Hr; discriminate].
  cbn zeta in Hr. destruct Hr as (r5 & w5 & H5 & Hr).
  destruct r5 as [[]|err]; [|destruct Hr; discriminate].
  destruct Hr as [_ ->].
  exists remain, w2, best, nodeInfo, w3, size, w4, w5.
  split.
  { exists groups, w1, options. repeat split; try assumption.
    apply Z.gtb_lt in Hcount. exact Hcount. }
  split; [exact H3|]. split; [exact H4|].
  cbn zeta. split; [exact H5|reflexivity].
Qed.

(** X18.  When [ScaleUp] reports no scale-up and no error, either there
    was no unschedulable pod and nothing was done, or no option of
    positive count was picked and all that was done after the loop over
    the node groups was to record one event per remaining pod. *)
Theorem ScaleUp_false_only_records_events
    pods nodes (provider : P) (w w' : W) :
  ScaleUp BestExpansionOption recordEvent pods nodes provider w
    = (Success false, w') ->
  (pods = [] /\ w' = w)
  \/ exists remain w2,
       nothingPicked BestExpansionOption pods nodes provider w remain w2
       /\ w' = recordAll recordEvent (map NotTriggerScaleUp remain) w2.
Proof.
  unfold ScaleUp. destruct pods as [|pod pods].
  { intros Hr. injection Hr as <-. left. split; reflexivity. }
  destruct (GetNodeGroups provider nodes w) as [[groups|err] w1] eqn:Hg;
    [|discriminate].
  destruct (tryGroups (pod :: pods) groups [] [] w1)
    as [[options remain] w2] eqn:Hloop.
  intros Hr. apply resizeBestOption_outcomes in Hr. right.
  exists remain, w2.
  destruct (BestExpansionOption options) as [best|] eqn:Hbest.
  - destruct (GetCount (estimator best) >? 0) eqn:Hcount.
    + exfalso.
      destruct Hr as (b3 & w3 & H3 & Hr).
      destruct b3 as [nodeInfo|err]; [|destruct Hr; discriminate].
      destruct Hr as (s4 & w4 & H4 & Hr).
      destruct s4 as [size|err]; [|destruct Hr; discriminate].
      cbn zeta in Hr. destruct Hr as (r5 & w5 & H5 & Hr).
      destruct r5 as [[]|err]; destruct Hr; discriminate.
    + destruct Hr as [_ ->]. split; [|reflexivity].
      exists groups, w1, options. repeat split; try assumption.
      right. exists best. split; [exact Hbest|].
      destruct (Z.gtb_spec (GetCount (estimator best)) 0); [discriminate|lia].
  - destruct Hr as [_ ->]. split; [|reflexivity].
    exists groups, w1, options. repeat split; try assumption.
    left. exact Hbest.
Qed.

(** X19.  An error of [ScaleUp] is the provider's failure to list the
    node groups, wrapped, or it arises after an option of positive count
    was picked: the simulator's error for the group's sample node passed
    on, the error of reading the group's size wrapped, or the error of
    [SetSize] passed on.  Errors inside the loop over the node groups
    never end the cycle. *)
Theorem ScaleUp_errors
    pods nodes (provider : P) (w w' : W) e :
  ScaleUp BestExpansionOption recordEvent pods nodes provider w
    = (Failure e, w') ->
  (exists cause, e = FailedToGetNodeGroups cause
                 /\ pods <> []
                 /\ GetNodeGroups provider nodes w = (Failure cause, w'))
  \/ exists remain w2 best,
       picked BestExpansionOption pods nodes provider w remain w2 best
       /\ ((exists cause, e = Passed cause
               /\ BuildNodeInfoForNode (GetSampleNode (nodeGroup best)) w2
                  = (Failure cause, w'))
           \/ exists nodeInfo w3,
                BuildNodeInfoForNode (GetSampleNode (nodeGroup best)) w2
                  = (Success nodeInfo, w3)
                /\ ((exists cause, e = ErrorGettingNodeGroupSize cause
                        /\ GetCurrentSize (nodeGroup best) w3
                           = (Failure cause, w'))
                    \/ exists currentSize w4 cause,
                         GetCurrentSize (nodeGroup best) w3
                           = (Success currentSize, w4)
                         /\ e = Passed cause
                         /\ SetSize (nodeGroup best)
                              (fst (Estimate (estimator best)
                                             (NodeInfoNode nodeInfo))) w4
                            = (Failure cause, w'))).
Proof.
  unfold ScaleUp. destruct pods as [|pod pods]; [discriminate|].
  destruct (GetNodeGroups provider nodes w) as [[groups|err] w1] eqn:Hg.
  2:{ intros Hr. injection Hr as <- <-. left. exists err.
      split; [reflexivity|]. split; [discriminate|reflexivity]. }
  destruct (tryGroups (pod :: pods) groups [] [] w1)
    as [[options remain] w2] eqn:Hloop.
  intros Hr. apply resizeBestOption_outcomes in Hr. right.
  destruct (BestExpansionOption options) as [best|] eqn:Hbest;
    [|destruct Hr; discriminate].
  destruct (GetCount (estimator best) >? 0) eqn:Hcount;
    [|destruct Hr; discriminate].
  exists remain, w2, best. split.
  { exists groups, w1, options. repeat split; try assumption.
    apply Z.gtb_lt in Hcount. exact Hcount. }
  destruct Hr as (b3 & w3 & H3 & Hr).
  destruct b3 as [nodeInfo|err].
  2:{ destruct Hr as [Hr ->]. injection Hr as ->.
      left. exists err. split; [reflexivity|exact H3]. }
  right. exists nodeInfo, w3. split; [exact H3|].
  destruct Hr as (s4 & w4 & H4 & Hr).
  destruct s4 as [size|err].
  2:{ destruct Hr as [Hr ->]. injection Hr as ->.
      left. exists err. split; [reflexivity|exact H4]. }
  right. cbn zeta in Hr. destruct Hr as (r5 & w5 & H5 & Hr).
  destruct r5 as [[]|err]; [destruct Hr; discriminate|].
  destruct Hr as [Hr ->]. injection Hr as ->.
  exists size, w4, err. split; [exact H4|]. split; [reflexivity|exact H5].
Qed.

End MoreEngine.

(** ** The gce node group *)

Section MoreGce.
Import Provider Gce EngineLaws.

Context {W KNode : Type} `{!GceManager W}.

(** X20.  [IsScaleUpPossible] and [GetCurrentSize] of a gce node group
    read the same size and leave the same world: scaling up is possible
    exactly when the current size is below the maximum.  When the size
    cannot be read both fail, [GetCurrentSize] with the manager's error
    wrapped, [IsScaleUpPossible] with that error as it is. *)
Theorem IsScaleUpPossible_agrees_with_GetCurrentSize
    (g : gceNodeGroup KNode) (w : W) :
  match Gce.GetCurrentSize g w with
  | (Success currentSize, w') =>
      Gce.IsScaleUpPossible g w
      = (Success (currentSize <? MaxSize (migConfig g)), w')
  | (Failure e, w') =>
      exists cause, e = FailedToGetMigSize cause
                    /\ Gce.IsScaleUpPossible g w = (Failure cause, w')
  end.
Proof.
  unfold Gce.GetCurrentSize, Gce.IsScaleUpPossible.
  destruct (GetMigSize (migConfig g) w) as [[currentSize|err] w'].
  - destruct (currentSize >=? MaxSize (migConfig g)) eqn:E;
      destruct (currentSize <? MaxSize (migConfig g)) eqn:E';
      reflexivity || lia.
  - exists err. split; reflexivity.
Qed.

(** X21.  Against a backend that keeps the size a group was set to, the
    size read right after a successful [SetSize] is the smaller of the
    size asked for and the maximum of the group, and scaling up is then
    possible exactly when the size asked for was below the maximum. *)
Theorem SetSize_then_GetCurrentSize
    (g : gceNodeGroup KNode) (size : Z) (w w' : W) :
  KeepsSize (migConfig g) ->
  Gce.SetSize g size w = (Success tt, w') ->
  fst (Gce.GetCurrentSize g w') = Success (Z.min size (MaxSize (migConfig g)))
  /\ fst (Gce.IsScaleUpPossible g w')
     = Success (size <? MaxSize (migConfig g)).
Proof.
  intros Hkeeps. unfold Gce.SetSize.
  destruct (SetMigSize (migConfig g) (cappedSize g size) w)
    as [[[]|err] w1] eqn:Hset; [|discriminate].
  intros Hrun. injection Hrun as <-.
  pose proof (Hkeeps _ _ _ Hset) as Hread.
  unfold Gce.GetCurrentSize, Gce.IsScaleUpPossible.
  destruct (GetMigSize (migConfig g) w1) as [r w2]. simpl in Hread. subst r.
  unfold cappedSize.
  destruct (size >=? MaxSize (migConfig g)) eqn:E.
  - rewrite Z.min_r by lia.
    replace (MaxSize (migConfig g) >=? MaxSize (migConfig g)) with true by lia.
    replace (size <? MaxSize (migConfig g)) with false by lia.
    split; reflexivity.
  - rewrite Z.min_l by lia. rewrite E.
    replace (size <? MaxSize (migConfig g)) with true by lia.
    split; reflexivity.
Qed.

End MoreGce.

(** ** No panic on complete replies; the size after an increase *)

Section MoreSafety.
Import Aws Spec Laws.

Context {Svc : Type} `{!AutoScalingAPI Svc}.
Variable ParseAsgUrl : string -> error + (string * string).
Variable GenerateAsgUrl : string -> string -> string.

Lemma NoPanic_sdkCall {A} (f : Svc -> reply A * Svc) (c : reply A -> Call) :
  NoPanic (sdkCall f c).
Proof.
  intros m r m' H p. unfold sdkCall in H.
  destruct (f (service m)) as [[a|msg] s']; injection H as <- _; discriminate.
Qed.

Lemma NoPanic_raise {A} (e : error) : NoPanic (raise (Svc:=Svc) (A:=A) e).
Proof. intros m r m' H p. injection H as <- _. discriminate. Qed.

Lemma NoPanic_mret {A} (a : A) : NoPanic (mret (M:=M Svc) a).
Proof. intros m r m' H p. injection H as <- _. discriminate. Qed.

Lemma NoPanic_liftPure {A} (o : outcome error A) :
  (forall p, o <> Panic p) -> NoPanic (liftPure (Svc:=Svc) o).
Proof. intros Ho m r m' H p. injection H as <- _. apply Ho. Qed.

Lemma AwsRefFromProviderId_no_panic (id : string) :
  (6 <= String.length id)%nat -> forall p, AwsRefFromProviderId id <> Panic p.
Proof.
  intros Hlen p. unfold AwsRefFromProviderId, GoStrings.sliceFrom.
  destruct (GoStrings.dropBytes 6 id) as [tail|] eqn:Hdrop.
  - destruct (GoStrings.Split tail "/") as [|a [|b [|c l]]]; discriminate.
  - apply dropBytes_None in Hdrop. lia.
Qed.

Lemma GetAsgSize_no_panic asg : SdkContract -> NoPanic (GetAsgSize asg).
Proof.
  intros [Hsdk _] m r m' H p. unfold GetAsgSize in H.
  rewrite bind_unfold in H. unfold sdkCall in H.
  destruct (DescribeAutoScalingGroups (Name (asgRef asg)) (service m))
    as [[l|msg] s'] eqn:Hd.
  - apply Hsdk in Hd. destruct l as [|[g|] l']; try discriminate.
    simpl in Hd. destruct g as [[size|] instances]; [|discriminate].
    injection H as <- _. discriminate.
  - injection H as <- _. discriminate.
Qed.

Lemma terminateEach_no_panic instances : NoPanic (terminateEach instances).
Proof.
  induction instances as [|i rest IH]; cbn [terminateEach].
  - apply NoPanic_mret.
  - apply NoPanic_bind; [apply NoPanic_sdkCall|intros _; exact IH].
Qed.

Lemma DeleteInstances_no_panic instances :
  SdkContract -> NoPanic (DeleteInstances instances).
Proof.
  intros Hsdk. unfold DeleteInstances.
  destruct instances as [|first rest]; [apply NoPanic_mret|].
  apply NoPanic_bind; [apply GetAsgForInstance_no_panic, Hsdk|intros common].
  apply NoPanic_bind; [apply checkCommonAsg_no_panic, Hsdk|intros _].
  apply terminateEach_no_panic.
Qed.

Lemma regenerateCacheIgnoreError_no_panic :
  SdkContract -> NoPanic (regenerateCacheIgnoreError (Svc:=Svc)).
Proof.
  intros Hsdk m r m' H p. unfold regenerateCacheIgnoreError, regenerateCache in H.
  destruct (regenerateGroups (asgs m) ∅ m) as [[nc|e|q] m1] eqn:Hg.
  - injection H as <- _. discriminate.
  - injection H as <- _. discriminate.
  - exfalso. eapply regenerateGroups_no_panic; [exact Hsdk|exact Hg|reflexivity].
Qed.

Lemma IncreaseSize_no_panic asg delta :
  SdkContract -> NoPanic (IncreaseSize asg delta).
Proof.
  intros Hsdk. unfold IncreaseSize.
  destruct (delta <=? 0); [apply NoPanic_raise|].
  apply NoPanic_bind; [apply GetAsgSize_no_panic, Hsdk|intros size].
  destruct (GoInt.add size delta >? MaxSize asg);
    [apply NoPanic_raise|apply NoPanic_sdkCall].
Qed.

Lemma Belongs_no_panic asg node :
  SdkContract -> longEnough node -> NoPanic (Belongs GenerateAsgUrl asg node).
Proof.
  intros Hsdk Hlong. unfold Belongs.
  apply NoPanic_bind;
    [apply NoPanic_liftPure, AwsRefFromProviderId_no_panic, Hlong|intros ref].
  apply NoPanic_bind; [apply GetAsgForInstance_no_panic, Hsdk|intros target].
  destruct target as [target|]; [|apply NoPanic_raise].
  destruct (negb _); apply NoPanic_mret.
Qed.

Lemma collectRefs_no_panic asg nodes refs :
  SdkContract -> Forall longEnough nodes ->
  NoPanic (collectRefs GenerateAsgUrl asg nodes refs).
Proof.
  intros Hsdk Hall. revert refs.
  induction Hall as [|node rest Hnode _ IH]; intros refs; cbn [collectRefs].
  - apply NoPanic_mret.
  - apply NoPanic_bind; [apply Belongs_no_panic; assumption|intros belongs].
    destruct belongs; [apply NoPanic_raise|].
    apply NoPanic_bind;
      [apply NoPanic_liftPure, AwsRefFromProviderId_no_panic, Hnode|intros ref].
    apply IH.
Qed.

(** X22.  On complete replies of the SDK, no operation of the manager or
    of a node group ends in a panic of the Go runtime, when it is called
    on pointers that are not nil and the provider id of every node handed
    in has at least six bytes.  The values of [Asg], [Node] and [AwsRef]
    stand for such pointers: the group the method is called on, the
    groups registered with the manager, the nodes and the references are
    not nil here.  (A method called on the nil [*Asg] that
    [GetAsgForInstance] hands out for an unowned instance is outside
    this statement.) *)
Theorem AwsManager_never_panics :
  SdkContract (Svc:=Svc) ->
  (forall asg, NoPanic (GetAsgSize asg))
  /\ (forall asg size, NoPanic (SetAsgSize asg size))
  /\ NoPanic (regenerateCacheIgnoreError (Svc:=Svc))
  /\ (forall instance, NoPanic (GetAsgForInstance instance))
  /\ (forall instances, NoPanic (DeleteInstances instances))
  /\ (forall asg delta, NoPanic (IncreaseSize asg delta))
  /\ (forall asg node,
        longEnough node -> NoPanic (Belongs GenerateAsgUrl asg node))
  /\ (forall asg nodes,
        Forall longEnough nodes -> NoPanic (DeleteNodes GenerateAsgUrl asg nodes))
  /\ (forall node, longEnough node -> NoPanic (Svc:=Svc) (NodeGroupForNode node))
  /\ (forall here specs,
        NoPanic (Svc:=Svc) (BuildAwsCloudProvider ParseAsgUrl here specs)).
Proof.
  intros Hsdk.
  split; [intros asg; apply GetAsgSize_no_panic, Hsdk|].
  split; [intros asg size; apply NoPanic_sdkCall|].
  split; [apply regenerateCacheIgnoreError_no_panic, Hsdk|].
  split; [intros instance; apply GetAsgForInstance_no_panic, Hsdk|].
  split; [intros instances; apply DeleteInstances_no_panic, Hsdk|].
  split; [intros asg delta; apply IncreaseSize_no_panic, Hsdk|].
  split; [intros asg node Hlong; apply Belongs_no_panic; assumption|].
  split.
  { intros asg nodes Hall. unfold DeleteNodes.
    apply NoPanic_bind; [apply GetAsgSize_no_panic, Hsdk|intros size].
    destruct (size <=? MinSize asg); [apply NoPanic_raise|].
    apply NoPanic_bind; [apply collectRefs_no_panic; assumption|intros refs].
    apply DeleteInstances_no_panic, Hsdk. }
  split.
  { intros node Hlong. unfold NodeGroupForNode.
    apply NoPanic_bind;
      [apply NoPanic_liftPure, AwsRefFromProviderId_no_panic, Hlong|intros ref].
    apply NoPanic_bind; [apply GetAsgForInstance_no_panic, Hsdk|intros asg].
    apply NoPanic_mret. }
  intros here specs. unfold BuildAwsCloudProvider.
  generalize (mkAwsCloudProvider []). revert here.
  induction specs as [|spec rest IH]; intros here aws; cbn [addNodeGroups].
  - apply NoPanic_mret.
  - apply NoPanic_bind; [|intros aws'; apply IH].
    unfold addNodeGroup.
    apply NoPanic_bind.
    + apply NoPanic_liftPure. intros p Hp.
      pose proof (buildAsg_total ParseAsgUrl here spec) as Ht.
      rewrite Hp in Ht. destruct Ht as [[? ?]|[? ?]]; discriminate.
    + intros asg. apply NoPanic_bind; [|intros _; apply NoPanic_mret].
      intros m r m' H p. injection H as <- _. discriminate.
Qed.

(** X23.  Against a backend that keeps the capacity a group was set to,
    the target size read right after a successful [IncreaseSize] is the
    size read before plus the increase, as Go adds them, and it is at most
    the maximum size of the group. *)
Theorem IncreaseSize_then_TargetSize
    (asg : Asg) (delta : Z) (m m' : AwsManager Svc) :
  KeepsCapacity (Svc:=Svc) ->
  IncreaseSize asg delta m = (Ok tt, m') ->
  exists size,
    fst (GetAsgSize asg m) = Ok size
    /\ fst (TargetSize asg m') = Ok (GoInt.add size delta)
    /\ GoInt.add size delta <= MaxSize asg
    /\ 0 < delta.
Proof.
  intros Hkeeps. unfold IncreaseSize.
  destruct (delta <=? 0) eqn:Hdelta; [discriminate|].
  rewrite bind_unfold.
  destruct (GetAsgSize asg m) as [[size|e|p] m1]; try discriminate.
  destruct (GoInt.add size delta >? MaxSize asg) eqn:Hmax; [discriminate|].
  destruct (SetAsgSize_run asg (GoInt.add size delta) m1)
    as (rep & s' & Hset & ->).
  destruct rep as [[]|msg]; [|discriminate].
  intros H. injection H as <-.
  destruct (Hkeeps _ _ _ _ Hset) as (g & rest & Hdescribe & Hcapacity).
  exists size. split; [reflexivity|]. split; [|lia].
  unfold TargetSize, GetAsgSize. rewrite bind_unfold. unfold sdkCall.
  cbn [service].
  destruct (DescribeAutoScalingGroups (Name (asgRef asg)) s') as [rep s''].
  simpl in Hdescribe. subst rep.
  rewrite bind_unfold. cbn [index0]. rewrite bind_unfold. cbn [deref].
  rewrite Hcapacity. reflexivity.
Qed.

End MoreSafety.

(** ** Concrete runs *)

Section MoreRuns.
Import Aws Spec Laws Scenario MoreScenario.

Lemma Script_ReadOnlyDescribes : ReadOnlyDescribes (Svc:=Script).
Proof. split; intros; reflexivity. Qed.

Lemma started_reachable : reachable zoneSlashName script started.
Proof. unfold started. apply reach_op, reach_op, reach_create. Qed.

Lemma refreshed_reachable : reachable zoneSlashName script refreshed.
Proof. unfold refreshed. apply reach_op, started_reachable. Qed.

Lemma buildAsg_bounds_witness :
  buildAsg nameInZone 1 "1:5:asg-a" = Ok groupA
  /\ asgAddr groupA = 1%nat
  /\ 1 <= minSize groupA /\ minSize groupA <= maxSize groupA
  /\ GoInt.inRange (minSize groupA) /\ GoInt.inRange (maxSize groupA).
Proof.
  assert (Hrun : buildAsg nameInZone 1 "1:5:asg-a" = Ok groupA)
    by (vm_compute; reflexivity).
  split; [exact Hrun|].
  exact (buildAsg_bounds nameInZone 1%nat "1:5:asg-a" groupA Hrun).
Defined.

Lemma BuildAwsCloudProvider_registers_in_order_witness :
  BuildAwsCloudProvider nameInZone 1 specsAB (CreateAwsManager script)
  = (Ok (mkAwsCloudProvider [groupA; groupB]), started)
  /\ NoDup (map asgAddr [groupA; groupB])
  /\ asgs started = [] ++ map registration [groupA; groupB]
  /\ NodeGroups (mkAwsCloudProvider [groupA; groupB]) !! 1%nat
     = Some (AsgNodeGroup (Some groupB))
  /\ exists spec asg,
       specsAB !! 1%nat = Some spec
       /\ buildAsg nameInZone (1 + 1) spec = Ok asg
       /\ AsgNodeGroup (Some groupB) = AsgNodeGroup (Some asg).
Proof.
  assert (Hrun : BuildAwsCloudProvider nameInZone 1 specsAB
                   (CreateAwsManager script)
                 = (Ok (mkAwsCloudProvider [groupA; groupB]), started))
    by (vm_compute; reflexivity).
  split; [exact Hrun|].
  destruct (BuildAwsCloudProvider_registers_in_order nameInZone 1%nat specsAB
              (CreateAwsManager script) started
              (mkAwsCloudProvider [groupA; groupB]) Hrun)
    as (_ & _ & Hnd & Hasgs & _ & _ & _ & _ & Hgroups).
  split; [exact Hnd|]. split; [exact Hasgs|].
  split; [reflexivity|].
  apply (Hgroups 1%nat). reflexivity.
Defined.

Lemma BuildAwsCloudProvider_fails_at_first_bad_spec_witness :
  exists built spec,
    specsBad !! (length built) = Some spec
    /\ buildAsg nameInZone (1 + length built) spec = Err MinSizeBelowOne
    /\ asgs (snd (BuildAwsCloudProvider nameInZone 1 specsBad
                    (CreateAwsManager script)))
       = [] ++ map registration built.
Proof.
  destruct (BuildAwsCloudProvider nameInZone 1 specsBad
              (CreateAwsManager script)) as [r m'] eqn:Hrun.
  assert (Hr : r = Err MinSizeBelowOne)
    by (vm_compute in Hrun; injection Hrun as <- _; reflexivity).
  subst r.
  destruct (proj2 (BuildAwsCloudProvider_fails_at_first_bad_spec nameInZone
                     1%nat specsBad (CreateAwsManager script))
                  MinSizeBelowOne m' Hrun)
    as (built & spec & Hspec & Hbad & _ & Hasgs & _).
  exists built, spec. split; [exact Hspec|]. split; [exact Hbad|exact Hasgs].
Defined.

Lemma regenerateCache_asks_for_the_empty_name_witness :
  describedGroups (calls (snd (regenerateCache started)))
  = [EmptyString; EmptyString]
  /\ Forall (fun name => name = EmptyString)
       (describedGroups (calls (snd (regenerateCache started))))
  /\ length (describedGroups (calls (snd (regenerateCache started))))
     = length (asgs started).
Proof.
  destruct (regenerateCache started) as [r m'] eqn:Hrun.
  assert (Hr : r = Ok tt)
    by (vm_compute in Hrun; injection Hrun as <- _; reflexivity).
  destruct (regenerateCache_asks_for_the_empty_name zoneSlashName script
              started m' r (calls m') started_reachable Hrun eq_refl)
    as (Hall & _ & Hlen).
  split; [|split; [exact Hall|exact (Hlen Hr)]].
  vm_compute in Hrun. injection Hrun as _ <-. reflexivity.
Defined.

Lemma GetAsgForInstance_returns_registered_groups_witness :
  asgCache refreshed !! refA1 = Some groupB
  /\ groupB ∈ map config (asgs refreshed).
Proof.
  assert (Hcached : asgCache refreshed !! refA1 = Some groupB)
    by (vm_compute; reflexivity).
  split; [exact Hcached|].
  exact (proj1 (GetAsgForInstance_returns_registered_groups zoneSlashName
                  script refreshed refreshed_reachable)
               refA1 groupB Hcached).
Defined.

Lemma regenerateCache_maps_all_to_last_group_witness :
  asgs started = [registration groupA] ++ [registration groupB]
  /\ asgCache (snd (regenerateCache started)) !! refA1 = Some groupB
  /\ forall ref g,
       asgCache (snd (regenerateCache started)) !! ref = Some g -> g = groupB.
Proof.
  split; [reflexivity|].
  destruct (regenerateCache started) as [r m'] eqn:Hrun.
  assert (Hr : r = Ok tt)
    by (vm_compute in Hrun; injection Hrun as <- _; reflexivity).
  subst r. split.
  - vm_compute in Hrun. injection Hrun as <-. vm_compute. reflexivity.
  - exact (regenerateCache_maps_all_to_last_group zoneSlashName script
             started m' [registration groupA] (registration groupB)
             Script_ReadOnlyDescribes started_reachable eq_refl Hrun).
Defined.

Lemma GetAsgForInstance_repeat_witness :
  GetAsgForInstance refA1 started = (Ok (Some groupB), refreshed)
  /\ GetAsgForInstance refA1 refreshed = (Ok (Some groupB), refreshed).
Proof.
  assert (Hrun : GetAsgForInstance refA1 started = (Ok (Some groupB), refreshed))
    by (vm_compute; reflexivity).
  split; [exact Hrun|].
  exact (GetAsgForInstance_repeat refA1 groupB started refreshed Hrun).
Defined.

Lemma regenerateCache_idempotent_witness :
  service (snd (regenerateCache started)) = service started
  /\ exists m2,
       regenerateCache (snd (regenerateCache started)) = (Ok tt, m2)
       /\ asgCache m2 = asgCache (snd (regenerateCache started))
       /\ service m2 = service started.
Proof.
  destruct (regenerateCache started) as [r m1] eqn:Hrun.
  assert (Hr : r = Ok tt)
    by (vm_compute in Hrun; injection Hrun as <- _; reflexivity).
  subst r.
  exact (regenerateCache_idempotent started m1 Script_ReadOnlyDescribes Hrun).
Defined.

Lemma DeleteInstances_terminates_unmanaged_witness :
  exists r m' done,
    DeleteInstances [refElsewhere; refElsewhere] started = (r, m')
    /\ asgs m' = asgs started /\ asgCache m' = asgCache started
    /\ callsSince started m' done
    /\ (length done <= 2)%nat
    /\ map terminatedId done
       = map (fun ref => Some (Name ref))
             (take (length done) [refElsewhere; refElsewhere])
    /\ terminationVerdict r done [refElsewhere; refElsewhere].
Proof.
  apply (DeleteInstances_terminates_unmanaged
           [refElsewhere; refElsewhere] started).
  intros r Hr.
  assert (r = refElsewhere) as ->.
  { apply elem_of_cons in Hr as [->|Hr]; [reflexivity|].
    apply elem_of_cons in Hr as [->|Hr]; [reflexivity|].
    apply elem_of_nil in Hr. contradiction. }
  split; vm_compute; reflexivity.
Defined.

Lemma DeleteNodes_size_guard_witness :
  DeleteNodes zoneSlashName (mkAsg 1 (mkAwsRef "us-east-1a" "asg-a") 3 5)
    [nodeA1] (manager script)
  = (Err MinSizeReached,
     mkAwsManager registered cache script [CallDescribeGroups "asg-a" None])
  /\ DeleteNodes zoneSlashName groupA [] (manager script)
     = (Ok tt,
        mkAwsManager registered cache script [CallDescribeGroups "asg-a" None]).
Proof.
  assert (Hsize : forall lo,
             GetAsgSize (mkAsg 1 (mkAwsRef "us-east-1a" "asg-a") lo 5)
               (manager script)
             = (Ok 3,
                mkAwsManager registered cache script
                  [CallDescribeGroups "asg-a" None]))
    by (intros lo; vm_compute; reflexivity).
  split.
  - apply (proj1 (DeleteNodes_size_guard zoneSlashName
                    (mkAsg 1 (mkAwsRef "us-east-1a" "asg-a") 3 5)
                    [nodeA1] 3 (manager script) _ (Hsize 3))).
    vm_compute. discriminate.
  - apply (proj1 (proj2 (DeleteNodes_size_guard zoneSlashName groupA
                           [] 3 (manager script) _ (Hsize 1)))).
    vm_compute. reflexivity.
Defined.

End MoreRuns.

Section MoreEngineRuns.
Import Provider Gce Engine EngineLaws EngineScenario.

Lemma ScaleUp_true_only_after_SetSize_witness :
  exists remain w2 best nodeInfo w3 currentSize w4 w5,
    picked firstOption fivePods [] [smallGroup] oneNode remain w2 best
    /\ BuildNodeInfoForNode (Provider.GetSampleNode (nodeGroup best)) w2
       = (Success nodeInfo, w3)
    /\ Provider.GetCurrentSize (nodeGroup best) w3 = (Success currentSize, w4)
    /\ Provider.SetSize (nodeGroup best)
         (fst (Estimate (estimator best) (NodeInfoNode nodeInfo))) w4
       = (Success tt, w5)
    /\ mkWorld 3 [3] 2 5
       = recordAll countEvent
           (map (fun pod =>
                   TriggeredScaleUp pod (nodeGroup best) currentSize
                     (GoInt.add currentSize
                        (fst (Estimate (estimator best)
                                       (NodeInfoNode nodeInfo)))))
                (FittingPods (estimator best)))
           w5.
Proof.
  assert (Hrun : ScaleUp firstOption countEvent fivePods [] [smallGroup] oneNode
                 = (Success true, mkWorld 3 [3] 2 5))
    by (vm_compute; reflexivity).
  exact (ScaleUp_true_only_after_SetSize (NodeInfo:=nat) firstOption countEvent
           fivePods [] [smallGroup] oneNode (mkWorld 3 [3] 2 5) Hrun).
Defined.

(** No pod with an odd number passes the predicates: no option is
    gathered, and one event is recorded for each of the two pods. *)
Lemma ScaleUp_false_only_records_events_witness :
  ScaleUp firstOption QuotaScenario.countEvent [1; 3]%nat []
    [QuotaScenario.group] QuotaScenario.one
  = (Success false, QuotaScenario.mkWorld 1 2)
  /\ (([1; 3]%nat = [] /\ QuotaScenario.mkWorld 1 2 = QuotaScenario.one)
      \/ exists remain w2,
           nothingPicked firstOption [1; 3]%nat [] [QuotaScenario.group]
             QuotaScenario.one remain w2
           /\ QuotaScenario.mkWorld 1 2
              = recordAll QuotaScenario.countEvent
                  (map NotTriggerScaleUp remain) w2).
Proof.
  assert (Hrun : ScaleUp firstOption QuotaScenario.countEvent [1; 3]%nat []
                   [QuotaScenario.group] QuotaScenario.one
                 = (Success false, QuotaScenario.mkWorld 1 2))
    by (vm_compute; reflexivity).
  split; [exact Hrun|].
  exact (ScaleUp_false_only_records_events firstOption
           QuotaScenario.countEvent [1; 3]%nat [] [QuotaScenario.group]
           QuotaScenario.one (QuotaScenario.mkWorld 1 2) Hrun).
Defined.

(** The backend refuses to resize: the error of [SetSize] ends the
    cycle. *)
Lemma ScaleUp_errors_witness :
  ScaleUp firstOption QuotaScenario.countEvent [2; 3]%nat []
    [QuotaScenario.group] QuotaScenario.one
  = (Failure (Passed (FailedToSetMigSize (ManagerError "quota"))),
     QuotaScenario.one)
  /\ exists remain w2 best,
       picked firstOption [2; 3]%nat [] [QuotaScenario.group]
         QuotaScenario.one remain w2 best.
Proof.
  assert (Hrun : ScaleUp firstOption QuotaScenario.countEvent [2; 3]%nat []
                   [QuotaScenario.group] QuotaScenario.one
                 = (Failure (Passed (FailedToSetMigSize (ManagerError "quota"))),
                    QuotaScenario.one))
    by (vm_compute; reflexivity).
  split; [exact Hrun|].
  destruct (ScaleUp_errors firstOption QuotaScenario.countEvent [2; 3]%nat []
              [QuotaScenario.group] QuotaScenario.one QuotaScenario.one _ Hrun)
    as [(cause & Hcause & _)|(remain & w2 & best & Hpicked & _)].
  - discriminate.
  - exists remain, w2, best. exact Hpicked.
Defined.

Lemma smallGroup_KeepsSize : KeepsSize (W:=World) (migConfig smallGroup).
Proof. intros size w w' H. injection H as <-. reflexivity. Qed.

Lemma SetSize_then_GetCurrentSize_witness :
  Gce.SetSize smallGroup 5 oneNode = (Success tt, mkWorld 3 [3] 0 0)
  /\ fst (Gce.GetCurrentSize smallGroup (mkWorld 3 [3] 0 0)) = Success 3
  /\ fst (Gce.IsScaleUpPossible smallGroup (mkWorld 3 [3] 0 0)) = Success false.
Proof.
  assert (Hrun : Gce.SetSize smallGroup 5 oneNode
                 = (Success tt, mkWorld 3 [3] 0 0))
    by (vm_compute; reflexivity).
  split; [exact Hrun|].
  exact (SetSize_then_GetCurrentSize smallGroup 5 oneNode (mkWorld 3 [3] 0 0)
           smallGroup_KeepsSize Hrun).
Defined.

End MoreEngineRuns.

Section MoreSafetyRuns.
Import Aws Spec Laws Scenario SteadyScenario.

Lemma Steady_SdkContract : SdkContract (Svc:=Steady).
Proof. split; intros ? s l s' H; injection H as <- _; reflexivity. Qed.

Lemma Steady_KeepsCapacity : KeepsCapacity (Svc:=Steady).
Proof.
  intros name size s s' H. injection H as <-.
  eexists _, _. split; reflexivity.
Qed.

Lemma AwsManager_never_panics_witness :
  longEnough nodeA1
  /\ NoPanic (Svc:=Steady) (DeleteNodes zoneSlashName groupA [nodeA1]).
Proof.
  assert (Hlong : longEnough nodeA1) by (unfold longEnough; simpl; lia).
  split; [exact Hlong|].
  destruct (AwsManager_never_panics nameInZone zoneSlashName Steady_SdkContract)
    as (_ & _ & _ & _ & _ & _ & _ & Hdelete & _).
  apply Hdelete. constructor; [exact Hlong|constructor].
Defined.

Lemma IncreaseSize_then_TargetSize_witness :
  exists size,
    fst (GetAsgSize groupA (CreateAwsManager three)) = Ok size
    /\ fst (TargetSize groupA
              (snd (IncreaseSize groupA 2 (CreateAwsManager three))))
       = Ok (GoInt.add size 2)
    /\ GoInt.add size 2 <= MaxSize groupA
    /\ 0 < 2.
Proof.
  apply (IncreaseSize_then_TargetSize groupA 2 (CreateAwsManager three) _
           Steady_KeepsCapacity).
  vm_compute. reflexivity.
Defined.

End MoreSafetyRuns.
